(** * Legal contract agent: clause segmentation, response parsing, retry and
      precedent fallback

    A shallow embedding of the Python sources
      - [app/utils/clauses.py]              (module [Clauses])
      - [app/llm/groq_client.py]            (modules [Json], [GroqClient])
      - [app/analyzer/analyze_document.py]  (module [Analyzer])
    then the predicates of the statements (module [Props]) and the concrete
    inputs (module [Inputs]), followed by the properties proved about them.

    Conventions of the embedding.
      - A Python [str] is a list of characters; a character is a code point
        in 0..255 (type [ascii]), which is the range on which the character
        classes below (white space, word characters, lower-casing, line
        boundaries) are written out in full.
      - Python integers are [Z]; lengths and indices that can never be
        negative are [nat].
      - A call that may raise returns a [result]; loops of the source become
        structurally recursive functions over the sequence they iterate on.
      - Library calls ([re], [str] methods, [json.loads]) are modelled by the
        functions of [Py], [Re] and [Json]; each is next to the pattern or
        the method it stands for. *)

From Stdlib Require Import String Ascii List ZArith Lia Bool Arith PeanoNat.
From Stdlib Require Import Sorted Permutation.
Import ListNotations.

Set Implicit Arguments.
Set Warnings "-register-all".

(** ** Python values shared by the modules *)

Definition str := list ascii.

(** Exceptions the modelled code raises or catches. Messages are kept as
    fixed text; what the source formats into them is left out. *)
Inductive exn : Type :=
| ValueError (msg : string)
| EnvironmentError (msg : string)
| RuntimeError (msg : string)
| AttributeError
| TypeError
| IndexError
| KeyError
| RequestError.

Inductive result (A : Type) : Type :=
| Ok (a : A)
| Raise (e : exn).
Arguments Ok {A} a.
Arguments Raise {A} e.

Definition bind {A B : Type} (r : result A) (k : A -> result B) : result B :=
  match r with
  | Ok a => k a
  | Raise e => Raise e
  end.

Notation "x <- r ;; k" := (bind r (fun x => k))
  (at level 61, r at next level, right associativity).

(** ** [str] methods and built-ins *)
Module Py.

Definition ord (c : ascii) : N := N_of_ascii c.

Definition chr (n : N) : ascii := ascii_of_N n.

Definition in_range (lo hi : N) (c : ascii) : bool :=
  (N.leb lo (ord c) && N.leb (ord c) hi)%bool.

Definition is_code (n : N) (c : ascii) : bool := N.eqb (ord c) n.

(** [str.isspace] on one character: 0x09-0x0D, 0x1C-0x20, 0x85 and 0xA0. *)
Definition isspace (c : ascii) : bool :=
  in_range 9 13 c || in_range 28 32 c || is_code 133 c || is_code 160 c.

Definition isupper_az (c : ascii) : bool := in_range 65 90 c.
Definition islower_az (c : ascii) : bool := in_range 97 122 c.
Definition isdigit_09 (c : ascii) : bool := in_range 48 57 c.

(** Characters matched by [\w] in a [str] pattern: alphanumeric (in the
    Unicode sense, restricted to 0..255) or underscore. *)
Definition isword (c : ascii) : bool :=
  isdigit_09 c || isupper_az c || islower_az c || is_code 95 c
  || is_code 170 c || is_code 178 c || is_code 179 c || is_code 181 c || is_code 185 c || is_code 186 c
  || in_range 188 190 c || in_range 192 214 c || in_range 216 246 c
  || in_range 248 255 c.

(** [str.lower] on one character, then on a string. *)
Definition lower_char (c : ascii) : ascii :=
  if isupper_az c || in_range 192 214 c || in_range 216 222 c
  then chr (ord c + 32) else c.

Definition lower (s : str) : str := map lower_char s.

Definition len (s : str) : Z := Z.of_nat (length s).

(** Python truthiness of a string. *)
Definition truthy (s : str) : bool :=
  match s with [] => false | _ :: _ => true end.

Fixpoint lstrip (s : str) : str :=
  match s with
  | [] => []
  | c :: rest => if isspace c then lstrip rest else s
  end.

Definition rstrip (s : str) : str := rev (lstrip (rev s)).

Definition strip (s : str) : str := lstrip (rstrip s).

(** [s[i:j]] for indices [0 <= i], [0 <= j]. *)
Definition slice (s : str) (i j : nat) : str := firstn (j - i) (skipn i s).

(** [s[i:]]. *)
Definition slice_from (s : str) (i : nat) : str := skipn i s.

(** [sep.join(l)]. *)
Fixpoint join (sep : str) (l : list str) : str :=
  match l with
  | [] => []
  | [x] => x
  | x :: rest => x ++ sep ++ join sep rest
  end.

Fixpoint startswith (s p : str) : bool :=
  match p, s with
  | [], _ => true
  | _ :: _, [] => false
  | a :: p', b :: s' => Ascii.eqb a b && startswith s' p'
  end.

Definition endswith (s p : str) : bool := startswith (rev s) (rev p).

Fixpoint str_eqb (a b : str) : bool :=
  match a, b with
  | [], [] => true
  | x :: a', y :: b' => Ascii.eqb x y && str_eqb a' b'
  | _, _ => false
  end.

(** Line boundaries of [str.splitlines]: LF, VT, FF, CR, FS, GS, RS, NEL. *)
Definition is_linebreak (c : ascii) : bool :=
  in_range 10 13 c || in_range 28 30 c || is_code 133 c.

(** [s.splitlines()]: CR LF counts as one boundary, and a boundary at the very
    end opens no further line. [cur] holds the current line, reversed. *)
Fixpoint splitlines_aux (cur : str) (s : str) : list str :=
  match s with
  | [] => match cur with [] => [] | _ :: _ => [rev cur] end
  | c :: rest =>
      if is_linebreak c then
        match rest with
        | c2 :: rest2 =>
            if is_code 13 c && is_code 10 c2
            then rev cur :: splitlines_aux [] rest2
            else rev cur :: splitlines_aux [] rest
        | [] => rev cur :: splitlines_aux [] rest
        end
      else splitlines_aux (c :: cur) rest
  end.

Definition splitlines (s : str) : list str := splitlines_aux [] s.

(** [l[1:-1]]. *)
Definition drop_first_last {A : Type} (l : list A) : list A :=
  removelast (tl l).

(** [range(0, stop, step)] for a positive [step]. *)
Definition range_step (stop step : nat) : list nat :=
  map (fun k => k * step) (seq 0 ((stop + step - 1) / step)).

(** [l[:k]] for a Python integer [k]: a negative [k] counts from the end. *)
Definition take {A : Type} (k : Z) (l : list A) : list A :=
  if (0 <=? k)%Z then firstn (Z.to_nat k) l
  else firstn (length l - Z.to_nat (- k)) l.

(** Literals: [esc] reads the escapes backslash-n, backslash-t, backslash-r,
    backslash-q (a double quote) and backslash-backslash. *)
Fixpoint esc_aux (s : str) : str :=
  match s with
  | [] => []
  | c :: rest =>
      if is_code 92 c then
        match rest with
        | d :: rest2 =>
            (if is_code 110 d then chr 10
             else if is_code 116 d then chr 9
             else if is_code 114 d then chr 13
             else if is_code 113 d then chr 34
             else d) :: esc_aux rest2
        | [] => [c]
        end
      else c :: esc_aux rest
  end.

Definition lit (s : string) : str := list_ascii_of_string s.
Definition esc (s : string) : str := esc_aux (lit s).

End Py.

(** ** The regular expressions of the sources

    Each pattern is written as the matcher it denotes under Python's
    backtracking semantics. Scanning functions carry [skip], the number of
    characters that still belong to the match found last, so that they stay
    structurally recursive on the text. *)
Module Re.
Import Py.

Fixpoint take_while (p : ascii -> bool) (s : str) : str :=
  match s with
  | [] => []
  | c :: rest => if p c then c :: take_while p rest else []
  end.

(** Length of the longest prefix of [s] made of [p] characters. *)
Definition run (p : ascii -> bool) (s : str) : nat := length (take_while p s).

Definition is_nl (c : ascii) : bool := is_code 10 c.
Definition is_cr (c : ascii) : bool := is_code 13 c.
Definition is_blank (c : ascii) : bool := is_code 32 c || is_code 9 c.

Definition nl : ascii := chr 10.
Definition sp : ascii := chr 32.

(** Index of the last line feed of [r], if any. *)
Fixpoint last_nl_aux (i : nat) (best : option nat) (r : str) : option nat :=
  match r with
  | [] => best
  | c :: rest => last_nl_aux (S i) (if is_nl c then Some i else best) rest
  end.

Definition last_nl (r : str) : option nat := last_nl_aux 0 None r.

Definition count_nl (r : str) : nat := length (filter is_nl r).

(** [re.sub(r'\r\n?', '\n', s)]. *)
Fixpoint sub_crlf (s : str) : str :=
  match s with
  | [] => []
  | c :: rest =>
      if is_cr c then
        match rest with
        | c2 :: rest2 =>
            if is_nl c2 then nl :: sub_crlf rest2 else nl :: sub_crlf rest
        | [] => [nl]
        end
      else c :: sub_crlf rest
  end.

(** [\n\s*\n\s*\n+] tried right after a line feed: the white-space run that
    follows must hold two more line feeds, and the match ends with the last
    line feed of that run. The result is the number of characters matched
    after the first line feed. *)
Definition blank_lines_len (rest : str) : option nat :=
  let w := take_while isspace rest in
  if 2 <=? count_nl w then
    match last_nl w with Some k => Some (S k) | None => None end
  else None.

(** [re.sub(r'\n\s*\n\s*\n+', '\n\n', s)]. *)
Fixpoint sub_blank_lines_aux (skip : nat) (s : str) : str :=
  match s with
  | [] => []
  | c :: rest =>
      match skip with
      | S k => sub_blank_lines_aux k rest
      | O =>
          if is_nl c then
            match blank_lines_len rest with
            | Some n => nl :: nl :: sub_blank_lines_aux n rest
            | None => c :: sub_blank_lines_aux 0 rest
            end
          else c :: sub_blank_lines_aux 0 rest
      end
  end.

Definition sub_blank_lines (s : str) : str := sub_blank_lines_aux 0 s.

(** [re.sub(r'[ \t]{2,}', ' ', s)]. *)
Fixpoint sub_spaces_aux (skip : nat) (s : str) : str :=
  match s with
  | [] => []
  | c :: rest =>
      match skip with
      | S k => sub_spaces_aux k rest
      | O =>
          if is_blank c then
            let n := run is_blank rest in
            if 1 <=? n then sp :: sub_spaces_aux n rest
            else c :: sub_spaces_aux 0 rest
          else c :: sub_spaces_aux 0 rest
      end
  end.

Definition sub_spaces (s : str) : str := sub_spaces_aux 0 s.

(** [\n\s*\n] tried right after a line feed: number of characters matched
    after that line feed. *)
Definition para_sep_len (rest : str) : option nat :=
  match last_nl (take_while isspace rest) with
  | Some k => Some (S k)
  | None => None
  end.

(** [re.split(r'\n\s*\n', s)]; [cur] is the current piece, reversed. *)
Fixpoint split_paragraphs_aux (skip : nat) (cur : str) (s : str) : list str :=
  match s with
  | [] => [rev cur]
  | c :: rest =>
      match skip with
      | S k => split_paragraphs_aux k cur rest
      | O =>
          if is_nl c then
            match para_sep_len rest with
            | Some n => rev cur :: split_paragraphs_aux n [] rest
            | None => split_paragraphs_aux 0 (c :: cur) rest
            end
          else split_paragraphs_aux 0 (c :: cur) rest
      end
  end.

Definition split_paragraphs (s : str) : list str :=
  split_paragraphs_aux 0 [] s.

(** [.], [?] or [!]. *)
Definition is_sentence_end (c : ascii) : bool :=
  is_code 46 c || is_code 63 c || is_code 33 c.

(** [re.split(r'(?<=[\.\?\!])\s+', s)]; [prev] tells whether the character
    before the current one ends a sentence. *)
Fixpoint split_sentences_aux (skip : nat) (prev : bool) (cur : str) (s : str)
  : list str :=
  match s with
  | [] => [rev cur]
  | c :: rest =>
      match skip with
      | S k => split_sentences_aux k false cur rest
      | O =>
          if prev && isspace c
          then rev cur :: split_sentences_aux (run isspace rest) false [] rest
          else split_sentences_aux 0 (is_sentence_end c) (c :: cur) rest
      end
  end.

Definition split_sentences (s : str) : list str :=
  split_sentences_aux 0 false [] s.

(** *** The heading patterns

    [_SPLIT_RE] joins [p.strip('(?m)')] for the four patterns. [str.strip]
    with an argument removes the characters of that argument from both ends:
    the leading [(?m)] goes, and so does the trailing [?] of the first
    pattern, which therefore reads [^(Section|Clause)\s+\d+[\.\: -]]. *)

Definition is_upper_or_space (c : ascii) : bool := isupper_az c || isspace c.
Definition is_alpha_or_space (c : ascii) : bool :=
  isupper_az c || islower_az c || isspace c.
Definition is_section_punct (c : ascii) : bool :=
  is_code 46 c || is_code 58 c || is_code 32 c || is_code 45 c.

(** A greedy class repetition [{min,}] followed by a line feed, where the
    class holds the line feed: the repetition backs off to the last line feed
    of the run that leaves at least [min] characters before it. The result is
    the number of characters matched, line feed included. *)
Definition run_then_nl (p : ascii -> bool) (min : nat) (s : str) : option nat :=
  match last_nl (take_while p s) with
  | Some k => if min <=? k then Some (S k) else None
  | None => None
  end.

(** [(Section|Clause)\s+\d+[\.\: -]] *)
Definition match_section (s : str) : option nat :=
  let after (kw : nat) :=
    let s1 := skipn kw s in
    let n1 := run isspace s1 in
    let s2 := skipn n1 s1 in
    let n2 := run isdigit_09 s2 in
    match skipn n2 s2 with
    | c :: _ =>
        if (1 <=? n1) && (1 <=? n2) && is_section_punct c
        then Some (kw + n1 + n2 + 1) else None
    | [] => None
    end in
  if startswith s (lit "Section") then after 7
  else if startswith s (lit "Clause") then after 6
  else None.

(** [[A-Z][A-Z\s]{4,}\n] *)
Definition match_caps (s : str) : option nat :=
  match s with
  | c :: rest =>
      if isupper_az c then
        match run_then_nl is_upper_or_space 4 rest with
        | Some n => Some (1 + n)
        | None => None
        end
      else None
  | [] => None
  end.

(** [\d+\.\s+[A-Z][A-Za-z\s]{3,}\n] *)
Definition match_numbered (s : str) : option nat :=
  let n1 := run isdigit_09 s in
  match skipn n1 s with
  | dot :: s1 =>
      let n2 := run isspace s1 in
      match skipn n2 s1 with
      | cap :: s2 =>
          if (1 <=? n1) && is_code 46 dot && (1 <=? n2) && isupper_az cap then
            match run_then_nl is_alpha_or_space 3 s2 with
            | Some n => Some (n1 + 1 + n2 + 1 + n)
            | None => None
            end
          else None
      | [] => None
      end
  | [] => None
  end.

(** [[0-9]+\.[0-9]+\s+] *)
Definition match_subsection (s : str) : option nat :=
  let n1 := run isdigit_09 s in
  match skipn n1 s with
  | dot :: s1 =>
      let n2 := run isdigit_09 s1 in
      let n3 := run isspace (skipn n2 s1) in
      if (1 <=? n1) && is_code 46 dot && (1 <=? n2) && (1 <=? n3)
      then Some (n1 + 1 + n2 + n3) else None
  | [] => None
  end.

Definition or_else {A : Type} (a b : option A) : option A :=
  match a with Some _ => a | None => b end.

(** The alternation, tried at the beginning of a line: length of the match. *)
Definition heading_match_len (s : str) : option nat :=
  or_else (match_section s)
    (or_else (match_caps s) (or_else (match_numbered s) (match_subsection s))).

(** [[m.start() for m in _SPLIT_RE.finditer(s)]]: [pos] is the index of the
    current character and [bol] tells whether it begins a line. *)
Fixpoint heading_starts_aux (pos : nat) (bol : bool) (skip : nat) (s : str)
  : list nat :=
  match s with
  | [] => []
  | c :: rest =>
      match skip with
      | S k => heading_starts_aux (S pos) (is_nl c) k rest
      | O =>
          if bol then
            match heading_match_len s with
            | Some (S n) => pos :: heading_starts_aux (S pos) (is_nl c) n rest
            | _ => heading_starts_aux (S pos) (is_nl c) 0 rest
            end
          else heading_starts_aux (S pos) (is_nl c) 0 rest
      end
  end.

Definition heading_starts (s : str) : list nat :=
  heading_starts_aux 0 true 0 s.

End Re.

(** ** [app/utils/clauses.py] *)
Module Clauses.
Import Py.

Definition DEFAULT_MIN_LEN : Z := 40.
Definition DEFAULT_MAX_LEN : Z := 2000.

Definition _normalize_whitespace (s : str) : str :=
  strip (Re.sub_spaces (Re.sub_blank_lines (Re.sub_crlf s))).

Definition nonempty {A : Type} (l : list A) : bool :=
  match l with [] => false | _ :: _ => true end.

(** The forced split of one sentence [s] longer than [max_len]:
    [for i in range(0, len(s), max_len): part = s[i:i+max_len].strip()],
    keeping the non-empty parts. [range] raises on a zero step and is empty
    on a negative one. *)
Definition force_split (s : str) (max_len : Z) : result (list str) :=
  if (max_len =? 0)%Z then
    Raise (ValueError "range() arg 3 must not be zero")
  else if (max_len <? 0)%Z then Ok []
  else
    let m := Z.to_nat max_len in
    Ok (filter truthy
          (map (fun i => strip (slice s i (i + m)))
               (range_step (length s) m))).

(** What [chunks.append(" ".join(current).strip())] adds when [current] is
    not empty. *)
Definition flush (chunks current : list str) : list str :=
  if nonempty current then chunks ++ [strip (join [Re.sp] current)]
  else chunks.

(** The loop of [_chunk_long_clause] over the sentences, with its three
    variables [chunks], [current] and [cur_len]. *)
Fixpoint chunk_loop (max_len : Z) (sentences chunks current : list str)
  (cur_len : Z) : result (list str) :=
  match sentences with
  | [] => Ok (flush chunks current)
  | s :: rest =>
      if (cur_len + len s <=? max_len)%Z then
        chunk_loop max_len rest chunks (current ++ [s]) (cur_len + len s)
      else
        let chunks1 := flush chunks current in
        if (len s >? max_len)%Z then
          parts <- force_split s max_len ;;
          chunk_loop max_len rest (chunks1 ++ parts) [] 0
        else chunk_loop max_len rest chunks1 [s] (len s)
  end.

Definition _chunk_long_clause (text : str) (max_len : Z) : result (list str) :=
  if (len text <=? max_len)%Z then
    Ok (if truthy text then [text] else [])
  else chunk_loop max_len (Re.split_sentences text) [] [] 0.

(** A clause entry. The fields [id], [text], [length] and [too_short] of the
    dictionary carry the prefix [clause_]; [start_idx] and [end_idx] are
    present under [debug] only. *)
Record clause : Type := {
  clause_id : nat;
  clause_text : str;
  clause_length : nat;
  clause_too_short : bool;
  start_idx : option nat;
  end_idx : option nat
}.

Definition part : Type := (str * nat * nat)%type.

(** The heading-aware split: the loop over the match positions, then the
    final tail. *)
Fixpoint heading_parts_loop (text : str) (starts : list nat) (last_idx : nat)
  (parts : list part) : list part * nat :=
  match starts with
  | [] => (parts, last_idx)
  | start :: rest =>
      let parts1 :=
        if last_idx <? start then
          let chunk := strip (slice text last_idx start) in
          if truthy chunk then parts ++ [(chunk, last_idx, start)] else parts
        else parts in
      heading_parts_loop text rest start parts1
  end.

Definition heading_parts (text : str) (starts : list nat) : list part :=
  let '(parts, last_idx) := heading_parts_loop text starts 0 [] in
  let final_chunk := strip (slice_from text last_idx) in
  if truthy final_chunk then parts ++ [(final_chunk, last_idx, length text)]
  else parts.

(** [[p.strip() for p in re.split(r'\n\s*\n', text) if p.strip()]] *)
Definition paragraphs_of (text : str) : list str :=
  map strip (filter (fun p => truthy (strip p)) (Re.split_paragraphs text)).

(** The paragraph parts, with their approximate positions. *)
Fixpoint paragraph_parts (paragraphs : list str) (idx : nat) : list part :=
  match paragraphs with
  | [] => []
  | p :: rest => (p, idx, idx + length p) :: paragraph_parts rest (idx + length p + 2)
  end.

(** The parts of a normalised, non-empty text. *)
Definition parts_of (text : str) : list part :=
  let matches := Re.heading_starts text in
  let parts :=
    if nonempty matches then heading_parts text matches
    else paragraph_parts (paragraphs_of text) 0 in
  if length parts =? 1 then
    let paragraphs := paragraphs_of text in
    if 1 <? length paragraphs then paragraph_parts paragraphs 0 else parts
  else parts.

(** [clauses[-1]] receives the short fragment [c]. *)
Definition merge_fragment (min_len : Z) (c : str) (prev : clause) : clause :=
  let text' := clause_text prev ++ [Re.nl; Re.nl] ++ c in
  {| clause_id := clause_id prev;
     clause_text := text';
     clause_length := clause_length prev;
     clause_too_short := (len text' <? min_len)%Z;
     start_idx := start_idx prev;
     end_idx := end_idx prev |}.

Fixpoint update_last {A : Type} (f : A -> A) (l : list A) : list A :=
  match l with
  | [] => []
  | [x] => [f x]
  | x :: rest => x :: update_last f rest
  end.

(** The state of the main loop: the list [clauses] and the counter [cid]. *)
Definition loop_state : Type := (list clause * nat)%type.

(** One iteration of [for c in chunks]. *)
Definition add_chunk (min_len : Z) (debug : bool) (start_i end_i : nat)
  (st : loop_state) (c0 : str) : loop_state :=
  let '(clauses, cid) := st in
  let c := strip c0 in
  let too_short := (len c <? min_len)%Z in
  if too_short && nonempty clauses then
    (update_last (merge_fragment min_len c) clauses, cid)
  else
    let entry :=
      {| clause_id := cid;
         clause_text := c;
         clause_length := length c;
         clause_too_short := too_short;
         start_idx := if debug then Some start_i else None;
         end_idx := if debug then Some end_i else None |} in
    (clauses ++ [entry], S cid).

(** [for part_text, start_idx, end_idx in parts]. *)
Fixpoint parts_loop (min_len max_len : Z) (debug : bool) (parts : list part)
  (st : loop_state) : result loop_state :=
  match parts with
  | [] => Ok st
  | (part_text, start_i, end_i) :: rest =>
      chunks <- _chunk_long_clause part_text max_len ;;
      parts_loop min_len max_len debug rest
        (fold_left (add_chunk min_len debug start_i end_i) chunks st)
  end.

(** The final pass. *)
Definition final_pass (min_len : Z) (clauses : list clause) : list clause :=
  if 1 <? length clauses then
    filter (fun c => negb (clause_too_short c
                           && (Z.of_nat (clause_length c) <? min_len)%Z))
           clauses
  else clauses.

Definition split_into_clauses (text : str) (min_len max_len : Z)
  (debug : bool) : result (list clause) :=
  let text := _normalize_whitespace text in
  if negb (truthy text) then Ok []
  else
    st <- parts_loop min_len max_len debug (parts_of text) ([], 0) ;;
    Ok (final_pass min_len (fst st)).

(** The call with the default parameters. *)
Definition split_into_clauses_default (text : str) : result (list clause) :=
  split_into_clauses text DEFAULT_MIN_LEN DEFAULT_MAX_LEN false.

End Clauses.


(** ** JSON values and [json.loads]

    The values [json.loads] and [resp.json()] produce. Python's [None] is
    [JNull]; an [int] is exact; a [float] keeps the text it was read from,
    so that no floating-point arithmetic is needed. [json_loads] follows the
    grammar of the library's decoder: RFC 8259 plus [NaN], [Infinity] and
    [-Infinity], control characters refused inside strings, later duplicate
    keys overriding earlier ones. It answers [None] where the library raises.
    Outside the model: an escape [\uXXXX] above 255 (refused here), the
    decoder's recursion limit and the interpreter's limit on the digits of
    an integer. *)
Module Json.
Import Py.

Inductive json : Type :=
| JNull
| JBool (b : bool)
| JInt (z : Z)
| JFloat (lexeme : str)
| JStr (s : str)
| JArr (items : list json)
| JObj (members : list (str * json)).

(** [d[k] = v] on a dictionary kept in insertion order. *)
Fixpoint dict_set (k : str) (v : json) (d : list (str * json))
  : list (str * json) :=
  match d with
  | [] => [(k, v)]
  | (k', v') :: rest =>
      if str_eqb k k' then (k', v) :: rest else (k', v') :: dict_set k v rest
  end.

(** [d.get(k)], [None] when the key is absent. *)
Fixpoint dict_get (k : str) (d : list (str * json)) : json :=
  match d with
  | [] => JNull
  | (k', v) :: rest => if str_eqb k k' then v else dict_get k rest
  end.

(** [k in d]. *)
Fixpoint dict_has (k : str) (d : list (str * json)) : bool :=
  match d with
  | [] => false
  | (k', _) :: rest => str_eqb k k' || dict_has k rest
  end.

Definition is_dict (j : json) : bool :=
  match j with JObj _ => true | _ => false end.

(** Python truthiness. A float is false when it is zero, which is read off
    its text: no digit of the mantissa differs from 0. (A text so small that
    it rounds to zero is taken as non-zero here; in [parse_reply] a float is
    refused either way.) *)
Definition float_nonzero (lexeme : str) : bool :=
  existsb (fun c => in_range 49 57 c)
          (Re.take_while (fun c => negb (is_code 101 c || is_code 69 c)) lexeme)
  || negb (isdigit_09 (last lexeme (chr 48))).

Definition json_truthy (j : json) : bool :=
  match j with
  | JNull => false
  | JBool b => b
  | JInt z => negb (z =? 0)%Z
  | JFloat l => float_nonzero l
  | JStr s => truthy s
  | JArr l => Clauses.nonempty l
  | JObj d => Clauses.nonempty d
  end.

(** The decoder's white space: space, tab, line feed, carriage return. *)
Definition is_ws (c : ascii) : bool :=
  is_code 32 c || is_code 9 c || is_code 10 c || is_code 13 c.

Fixpoint skip_ws (s : str) : str :=
  match s with
  | [] => []
  | c :: rest => if is_ws c then skip_ws rest else s
  end.

Definition hex_digit (c : ascii) : option N :=
  if isdigit_09 c then Some (ord c - 48)%N
  else if in_range 97 102 c then Some (ord c - 87)%N
  else if in_range 65 70 c then Some (ord c - 55)%N
  else None.

Definition hex4 (a b c d : ascii) : option N :=
  match hex_digit a, hex_digit b, hex_digit c, hex_digit d with
  | Some x, Some y, Some z, Some w => Some (((x * 16 + y) * 16 + z) * 16 + w)%N
  | _, _, _, _ => None
  end.

(** The character a one-letter escape stands for. *)
Definition simple_escape (e : ascii) : option ascii :=
  if is_code 34 e || is_code 92 e || is_code 47 e then Some e
  else if is_code 98 e then Some (chr 8)
  else if is_code 102 e then Some (chr 12)
  else if is_code 110 e then Some (chr 10)
  else if is_code 114 e then Some (chr 13)
  else if is_code 116 e then Some (chr 9)
  else None.

(** The body of a string, after its opening quote; [acc] is reversed. *)
Fixpoint scanstring (acc : str) (s : str) : option (str * str) :=
  match s with
  | [] => None
  | c :: rest =>
      if is_code 34 c then Some (rev acc, rest)
      else if is_code 92 c then
        match rest with
        | [] => None
        | e :: rest2 =>
            if is_code 117 e then
              match rest2 with
              | h1 :: h2 :: h3 :: h4 :: rest3 =>
                  match hex4 h1 h2 h3 h4 with
                  | Some n =>
                      if (n <? 256)%N then scanstring (chr n :: acc) rest3
                      else None
                  | None => None
                  end
              | _ => None
              end
            else
              match simple_escape e with
              | Some ch => scanstring (ch :: acc) rest2
              | None => None
              end
        end
      else if (ord c <=? 31)%N then None
      else scanstring (c :: acc) rest
  end.

Definition digits_value (ds : str) : Z :=
  fold_left (fun acc d => (acc * 10 + Z.of_N (ord d - 48))%Z) ds 0%Z.

(** A number: an optional minus sign, then [0] or a digit run that does not
    begin with 0, then an optional fraction (a dot and digits) and an
    optional exponent ([e] or [E], an optional sign, digits). *)
Definition match_number (s : str) : option (json * str) :=
  let '(neg, s1) :=
    match s with
    | c :: r => if is_code 45 c then (true, r) else (false, s)
    | [] => (false, s)
    end in
  match s1 with
  | [] => None
  | d :: r =>
      if isdigit_09 d then
        let ints := if is_code 48 d then [d] else d :: Re.take_while isdigit_09 r in
        let s2 := skipn (length ints) s1 in
        let frac :=
          match s2 with
          | dot :: f :: _ =>
              if is_code 46 dot && isdigit_09 f
              then dot :: Re.take_while isdigit_09 (tl s2) else []
          | _ => []
          end in
        let s3 := skipn (length frac) s2 in
        let expo :=
          match s3 with
          | e :: r3 =>
              if is_code 101 e || is_code 69 e then
                let sign :=
                  match r3 with
                  | sg :: _ => if is_code 43 sg || is_code 45 sg then [sg] else []
                  | [] => []
                  end in
                let ds := Re.take_while isdigit_09 (skipn (length sign) r3) in
                if Clauses.nonempty ds then e :: sign ++ ds else []
              else []
          | [] => []
          end in
        let s4 := skipn (length expo) s3 in
        if Clauses.nonempty frac || Clauses.nonempty expo then
          Some (JFloat ((if neg then [chr 45] else []) ++ ints ++ frac ++ expo), s4)
        else
          Some (JInt (if neg then - digits_value ints else digits_value ints)%Z, s4)
      else None
  end.

(** A keyword at the head of [s]. *)
Definition keyword (kw : string) (v : json) (s : str) : option (json * str) :=
  if startswith s (lit kw) then Some (v, skipn (String.length kw) s) else None.

(** [scan_once], the members of an object after its first key position and
    the items of an array after its opening bracket. [fuel] bounds the
    nesting and the number of items; every call consumes a character. *)
Fixpoint scan_once (fuel : nat) (s : str) : option (json * str) :=
  match fuel with
  | O => None
  | S f =>
      match s with
      | [] => None
      | c :: rest =>
          if is_code 34 c then
            match scanstring [] rest with
            | Some (v, r) => Some (JStr v, r)
            | None => None
            end
          else if is_code 123 c then
            match skip_ws rest with
            | c1 :: r1 =>
                if is_code 125 c1 then Some (JObj [], r1)
                else scan_members f [] (c1 :: r1)
            | [] => None
            end
          else if is_code 91 c then
            match skip_ws rest with
            | c1 :: r1 =>
                if is_code 93 c1 then Some (JArr [], r1)
                else scan_items f [] (c1 :: r1)
            | [] => None
            end
          else if is_code 110 c then keyword "null" JNull s
          else if is_code 116 c then keyword "true" (JBool true) s
          else if is_code 102 c then keyword "false" (JBool false) s
          else if is_code 78 c then keyword "NaN" (JFloat (lit "NaN")) s
          else if is_code 73 c then keyword "Infinity" (JFloat (lit "Infinity")) s
          else if is_code 45 c && startswith rest (lit "Infinity")
          then keyword "-Infinity" (JFloat (lit "-Infinity")) s
          else match_number s
      end
  end
with scan_members (fuel : nat) (acc : list (str * json)) (s : str)
  : option (json * str) :=
  match fuel with
  | O => None
  | S f =>
      match s with
      | q :: r0 =>
          if is_code 34 q then
            match scanstring [] r0 with
            | Some (key, r1) =>
                match skip_ws r1 with
                | colon :: r2 =>
                    if is_code 58 colon then
                      match scan_once f (skip_ws r2) with
                      | Some (v, r3) =>
                          let acc' := dict_set key v acc in
                          match skip_ws r3 with
                          | c :: r4 =>
                              if is_code 125 c then Some (JObj acc', r4)
                              else if is_code 44 c
                              then scan_members f acc' (skip_ws r4)
                              else None
                          | [] => None
                          end
                      | None => None
                      end
                    else None
                | [] => None
                end
            | None => None
            end
          else None
      | [] => None
      end
  end
with scan_items (fuel : nat) (acc : list json) (s : str)
  : option (json * str) :=
  match fuel with
  | O => None
  | S f =>
      match scan_once f s with
      | Some (v, r1) =>
          match skip_ws r1 with
          | c :: r2 =>
              if is_code 93 c then Some (JArr (acc ++ [v]), r2)
              else if is_code 44 c then scan_items f (acc ++ [v]) (skip_ws r2)
              else None
          | [] => None
          end
      | None => None
      end
  end.

(** [json.loads(s)]: one value between optional white space, nothing else. *)
Definition json_loads (s : str) : option json :=
  match scan_once (S (length s)) (skip_ws s) with
  | Some (v, r) => match skip_ws r with [] => Some v | _ :: _ => None end
  | None => None
  end.

End Json.

(** ** The outside world

    What the code reaches outside itself is an [env] of oracles, each
    indexed by the number of earlier calls of its kind; what it does to the
    outside is recorded, in order, in a [world] of events. A computation is
    a function from the world to a [result] and the world after it: an
    exception keeps the effects that came before it. *)
Module World.
Import Py Json.

(** The arguments of one [requests.post]: the payload and the timeout. *)
Record request : Type := {
  req_model : str;
  req_system_prompt : str;
  req_user_prompt : str;
  req_temperature : str;
  req_max_tokens : Z;
  req_timeout : Z
}.

(** The entry [_log_trace] receives. *)
Record trace_entry : Type := {
  tr_ts : str;
  tr_clause_id : nat;
  tr_clause_length : nat;
  tr_prompt : str;
  tr_error : option exn;
  tr_response : json;
  tr_risk_score : json;
  tr_precedents : list str
}.

Inductive event : Type :=
| EvPost (r : request)
| EvSleep (seconds : Z)
| EvNow
| EvTrace (entry : trace_entry)
| EvTraceFailed.

Definition world : Type := list event.

(** A collection of the similarity store, seen through [query]: what it
    answers to [query_texts=[text], n_results=k]. An answer is a dictionary
    or an object that may have a [documents] attribute. *)
Inductive query_res : Type :=
| QueryDict (d : list (str * json))
| QueryObject (documents : option json).

Definition collection : Type := str -> Z -> result query_res.

Record env : Type := {
  (** the environment variable, empty when unset *)
  GROQ_API_KEY : str;
  GROQ_MODEL : str;
  (** [requests.post], [raise_for_status] and [resp.json()] on the n-th
      request: the decoded body, or the exception one of them raises *)
  http_post : nat -> request -> result json;
  (** the n-th reading of [datetime.now(UTC).isoformat()] *)
  clock : nat -> str;
  (** [json.load] of data/precedents.json: [None] when the file cannot be
      opened or decoded, else the array of strings it holds *)
  corpus_file : option (list str);
  (** whether the n-th append to the trace file succeeds *)
  trace_writable : nat -> bool;
  (** [_init_chroma_client]: the collection, [None] without the library *)
  chroma : result (option collection)
}.

Definition M (A : Type) : Type := world -> result A * world.

Definition ret {A : Type} (a : A) : M A := fun w => (Ok a, w).

Definition raise {A : Type} (e : exn) : M A := fun w => (Raise e, w).

Definition mbind {A B : Type} (m : M A) (k : A -> M B) : M B :=
  fun w =>
    match m w with
    | (Ok a, w1) => k a w1
    | (Raise e, w1) => (Raise e, w1)
    end.

(** [try: m except Exception as e: h e] *)
Definition try_except {A : Type} (m : M A) (h : exn -> M A) : M A :=
  fun w =>
    match m w with
    | (Ok a, w1) => (Ok a, w1)
    | (Raise e, w1) => h e w1
    end.

Definition lift {A : Type} (r : result A) : M A := fun w => (r, w).

Definition emit (e : event) : M unit := fun w => (Ok tt, w ++ [e]).

Definition is_post (e : event) : bool :=
  match e with EvPost _ => true | _ => false end.
Definition is_now (e : event) : bool :=
  match e with EvNow => true | _ => false end.
Definition is_trace_attempt (e : event) : bool :=
  match e with EvTrace _ | EvTraceFailed => true | _ => false end.

Definition count (p : event -> bool) (w : world) : nat := length (filter p w).

(** The sleeps of a world, in order. *)
Definition sleeps (w : world) : list Z :=
  flat_map (fun e => match e with EvSleep d => [d] | _ => [] end) w.

(** The entries the trace file holds, in order. *)
Definition traces (w : world) : list trace_entry :=
  flat_map (fun e => match e with EvTrace t => [t] | _ => [] end) w.

End World.

Notation "x <-- m ;;; k" := (World.mbind m (fun x => k))
  (at level 61, m at next level, right associativity).

(** ** [app/llm/groq_client.py] *)
Module GroqClient.
Import Py Json World.

Definition DEFAULT_TIMEOUT : Z := 20.
Definition MAX_RETRIES : Z := 2.

(** [RETRY_DELAY = 1.0] seconds. Delays are counted in whole seconds: the
    product of 1.0 and an attempt number is that number, exactly. *)
Definition RETRY_DELAY : Z := 1.

(** The dash of the source, which lies outside 0..255, is written as a
    hyphen. *)
Definition SYSTEM_PROMPT : str :=
  lit "You are a contract risk assistant - reply in valid JSON only.".

Definition fence : str := lit "```".

Definition _strip_code_fences (text : str) : str :=
  if negb (truthy text) then text
  else
    let text := strip text in
    if startswith text fence && endswith text fence then
      let lines := splitlines text in
      strip (join [Re.nl] (drop_first_last lines))
    else text.

(** The loop of [_extract_first_json]: [i] is the index of [ch], [s] what is
    left of [text] from there. *)
Fixpoint extract_loop (text : str) (i : nat) (start_idx : option nat)
  (stack : nat) (s : str) : option str :=
  match s with
  | [] => None
  | ch :: rest =>
      if is_code 123 ch then
        extract_loop text (S i)
          (match start_idx with None => Some i | Some _ => start_idx end)
          (S stack) rest
      else if is_code 125 ch then
        match stack with
        | S k =>
            match k, start_idx with
            | O, Some st => Some (slice text st (i + 1))
            | _, _ => extract_loop text (S i) start_idx k rest
            end
        | O => extract_loop text (S i) start_idx stack rest
        end
      else extract_loop text (S i) start_idx stack rest
  end.

Definition _extract_first_json (text : str) : option str :=
  if negb (truthy text) then None
  else extract_loop text 0 None 0 text.

(** The result is the parsed value, [JNull] standing for [None]. *)
Definition _parse_json_strict (text : str) : json :=
  if negb (truthy text) then JNull
  else
    let s := _strip_code_fences text in
    match json_loads s with
    | Some v => v
    | None =>
        match _extract_first_json s with
        | Some candidate =>
            if truthy candidate then
              match json_loads candidate with
              | Some v => v
              | None => JNull
              end
            else JNull
        | None => JNull
        end
    end.

(** [x or ""] *)
Definition or_empty (x : json) : json :=
  if json_truthy x then x else JStr [].

(** The value of [content] when the request has been answered with [j];
    [JNull] is [None]. [first.get] raises when [first] is no dictionary. *)
Definition content_of (j : json) : result json :=
  match j with
  | JObj d =>
      content <-
        match dict_get (lit "choices") d with
        | JArr (first :: _) =>
            match first with
            | JObj f =>
                match dict_has (lit "message") f, dict_get (lit "message") f with
                | true, JObj m => Ok (or_empty (dict_get (lit "content") m))
                | _, _ => Ok (or_empty (dict_get (lit "text") f))
                end
            | _ => Raise AttributeError
            end
        | _ => Ok JNull
        end ;;
      Ok (match content with
          | JNull => dict_get (lit "text") d
          | _ => content
          end)
  | _ => Ok JNull
  end.

(** From the decoded body to the value the attempt returns. A [content]
    that is true but no string fails in [_strip_code_fences], at
    [text.strip()]. *)
Definition parse_reply (j : json) : result json :=
  content <- content_of j ;;
  if negb (json_truthy content) then
    Raise (ValueError "No content returned from LLM response.")
  else
    match content with
    | JStr text =>
        match _parse_json_strict text with
        | JNull => Raise (ValueError "LLM returned non-JSON content.")
        | JObj d => Ok (JObj d)
        | _ => Raise (ValueError "Parsed JSON is not an object.")
        end
    | _ => Raise AttributeError
    end.

(** The body of the [try] block: one request and the reading of its reply. *)
Definition attempt_once (E : env) (req : request) : M json :=
  fun w =>
    let w1 := w ++ [EvPost req] in
    match http_post E (count is_post w) req with
    | Ok j => (parse_reply j, w1)
    | Raise e => (Raise e, w1)
    end.

(** [range(1, max_retries + 2)] *)
Definition attempt_numbers (max_retries : Z) : list Z :=
  map Z.of_nat (seq 1 (Z.to_nat (max_retries + 1))).

(** [for attempt in range(1, max_retries + 2)], then the final [raise]. *)
Fixpoint retry_loop (E : env) (req : request) (max_retries : Z)
  (attempts : list Z) : M json :=
  match attempts with
  | [] => raise (RuntimeError "GROQ call failed")
  | attempt :: rest =>
      try_except (attempt_once E req)
        (fun _ =>
           _ <-- (if (attempt <=? max_retries)%Z
                  then emit (EvSleep (RETRY_DELAY * attempt))
                  else ret tt) ;;;
           retry_loop E req max_retries rest)
  end.

Definition call_groq_chat (E : env) (user_prompt system_prompt model : str)
  (temperature : str) (max_tokens timeout max_retries : Z) : M json :=
  if negb (truthy (GROQ_API_KEY E)) then
    raise (EnvironmentError "GROQ_API_KEY not set in environment.")
  else
    let req :=
      {| req_model := model;
         req_system_prompt := system_prompt;
         req_user_prompt := user_prompt;
         req_temperature := temperature;
         req_max_tokens := max_tokens;
         req_timeout := timeout |} in
    retry_loop E req max_retries (attempt_numbers max_retries).

End GroqClient.

(** ** [app/analyzer/analyze_document.py] *)
Module Analyzer.
Import Py Json World Clauses.

Definition CHROMA_AVAILABLE : bool := false.
Definition DEFAULT_TOP_K : Z := 3.

(** [re.findall(r'\w+', s)]: the maximal runs of word characters; [cur] is
    the current run, reversed. *)
Fixpoint findall_words_aux (cur : str) (s : str) : list str :=
  match s with
  | [] => match cur with [] => [] | _ :: _ => [rev cur] end
  | c :: rest =>
      if isword c then findall_words_aux (c :: cur) rest
      else
        match cur with
        | [] => findall_words_aux [] rest
        | _ :: _ => rev cur :: findall_words_aux [] rest
        end
  end.

Definition findall_words (s : str) : list str := findall_words_aux [] s.

Definition str_in (w : str) (l : list str) : bool := existsb (str_eqb w) l.

(** [set(l)], as a list without repetition. *)
Fixpoint to_set (l : list str) : list str :=
  match l with
  | [] => []
  | w :: rest => if str_in w rest then to_set rest else w :: to_set rest
  end.

(** [set(re.findall(r'\w+', s.lower()))] *)
Definition word_set (s : str) : list str := to_set (findall_words (lower s)).

(** [len(clause_words & p_words)] *)
Definition overlap (clause_words p_words : list str) : nat :=
  length (filter (fun w => str_in w p_words) clause_words).

Definition score (clause_text p : str) : nat :=
  overlap (word_set clause_text) (word_set p).

(** The order of Python on [str], by code point, and on the pairs
    [(score, p)]. *)
Fixpoint str_ltb (a b : str) : bool :=
  match a, b with
  | _, [] => false
  | [], _ :: _ => true
  | x :: a', y :: b' =>
      (ord x <? ord y)%N || ((ord x =? ord y)%N && str_ltb a' b')
  end.

Definition scored_ltb (a b : nat * str) : bool :=
  (fst a <? fst b) || ((fst a =? fst b) && str_ltb (snd a) (snd b)).

(** [scored.sort(reverse=True)]: pairs that compare equal are the same
    pair, so the result does not depend on how the sort breaks ties. *)
Fixpoint insert_desc (x : nat * str) (l : list (nat * str)) : list (nat * str) :=
  match l with
  | [] => [x]
  | y :: rest => if scored_ltb x y then y :: insert_desc x rest else x :: l
  end.

Definition sort_desc (l : list (nat * str)) : list (nat * str) :=
  fold_right insert_desc [] l.

Definition _fallback_precedents (E : env) (clause_text : str) (top_k : Z)
  : list str :=
  if negb (truthy clause_text) then []
  else
    match corpus_file E with
    | None => []
    | Some precedents =>
        let scored := map (fun p => (score clause_text p, p)) precedents in
        let hits :=
          map snd (filter (fun sp => 0 <? fst sp)
                          (take top_k (sort_desc scored))) in
        if nonempty hits then hits else take top_k precedents
    end.

(** [x[0]] on a JSON value. *)
Definition index0 (x : json) : result json :=
  match x with
  | JArr (a :: _) => Ok a
  | JArr [] => Raise IndexError
  | JStr (c :: _) => Ok (JStr [c])
  | JStr [] => Raise IndexError
  | JObj _ => Raise KeyError
  | _ => Raise TypeError
  end.

(** [[d for d in docs if isinstance(d, str) and d.strip()]]: a list gives
    its items, a string its characters, a dictionary its keys. *)
Definition keep_texts (docs : json) : result (list str) :=
  let texts (l : list json) :=
    flat_map (fun d => match d with
                       | JStr s => if truthy (strip s) then [s] else []
                       | _ => []
                       end) l in
  match docs with
  | JArr l => Ok (texts l)
  | JStr s => Ok (texts (map (fun c => JStr [c]) s))
  | JObj d => Ok (texts (map (fun kv => JStr (fst kv)) d))
  | _ => Raise TypeError
  end.

(** The [try] block of [_query_precedents]. *)
Definition primary_docs (coll : collection) (clause_text : str) (top_k : Z)
  : result (list str) :=
  query_res <- coll clause_text top_k ;;
  docs <-
    match query_res with
    | QueryDict d =>
        index0 (if dict_has (lit "documents") d
                then dict_get (lit "documents") d
                else JArr [JArr []])
    | QueryObject (Some documents) => index0 documents
    | QueryObject None => Ok (JArr [])
    end ;;
  keep_texts docs.

Definition _query_precedents (E : env) (coll : option collection)
  (clause_text : str) (top_k : Z) : list str :=
  match CHROMA_AVAILABLE, coll with
  | true, Some c =>
      match primary_docs c clause_text top_k with
      | Ok docs => docs
      | Raise _ => _fallback_precedents E clause_text top_k
      end
  | _, _ => _fallback_precedents E clause_text top_k
  end.

(** [_log_trace]: the append, whose failure is swallowed. *)
Definition _log_trace (E : env) (entry : trace_entry) : M unit :=
  fun w =>
    if trace_writable E (count is_trace_attempt w)
    then (Ok tt, w ++ [EvTrace entry])
    else (Ok tt, w ++ [EvTraceFailed]).

(** [datetime.now(UTC).isoformat()] *)
Definition now (E : env) : M str :=
  fun w => (Ok (clock E (count is_now w)), w ++ [EvNow]).

(** One element of the returned list. *)
Record analysis_obj : Type := {
  res_clause_id : nat;
  res_clause : str;
  res_analysis : json;
  res_precedents : list str;
  res_ts : str
}.

Definition prompt_of (clause_text : str) : str :=
  esc "Analyze the following contract clause and return JSON only following this schema:\n"
  ++ esc "{ \qrisk_score\q: int (0-5), \qreasons\q: [str], \qredline\q: str }\n\n"
  ++ esc "Clause:\n\q\q\q\n" ++ clause_text ++ esc "\n\q\q\q\n".

(** The value put in place of the reply when the call raises. *)
Definition llm_error_result : json :=
  JObj [(lit "risk_score", JInt 0);
        (lit "reasons", JArr [JStr (lit "llm_error")]);
        (lit "redline", JStr [])].

(** [parsed.get("risk_score", 0)] *)
Definition risk_score_of (parsed : json) : json :=
  match parsed with
  | JObj d =>
      if dict_has (lit "risk_score") d then dict_get (lit "risk_score") d
      else JInt 0
  | _ => JInt 0
  end.

(** The initial value of [collection]. *)
Definition setup_collection (E : env) : option collection :=
  if CHROMA_AVAILABLE then
    match chroma E with
    | Ok c => c
    | Raise _ => None
    end
  else None.

(** The body of [for clause in clauses], past the [continue] tests: it
    returns the element appended to [results]. *)
Definition analyze_clause (E : env) (coll : option collection) (top_k : Z)
  (temperature : str) (max_tokens : Z) (cid : nat) (clause_text : str)
  : M analysis_obj :=
  let user_prompt := prompt_of clause_text in
  ts <-- now E ;;;
  r <-- try_except
          (parsed <-- GroqClient.call_groq_chat E user_prompt
                        GroqClient.SYSTEM_PROMPT (GROQ_MODEL E) temperature
                        max_tokens GroqClient.DEFAULT_TIMEOUT
                        GroqClient.MAX_RETRIES ;;;
           ret (parsed, None))
          (fun e => ret (llm_error_result, Some e)) ;;;
  let '(parsed, err) := r in
  let precedents := _query_precedents E coll clause_text top_k in
  _ <-- _log_trace E
          {| tr_ts := ts;
             tr_clause_id := cid;
             tr_clause_length := length clause_text;
             tr_prompt := firstn 500 user_prompt;
             tr_error := err;
             tr_response := parsed;
             tr_risk_score := risk_score_of parsed;
             tr_precedents := precedents |} ;;;
  ret {| res_clause_id := cid;
         res_clause := clause_text;
         res_analysis := parsed;
         res_precedents := precedents;
         res_ts := ts |}.

(** [for clause in clauses]: a clause whose stripped text is empty is
    skipped. *)
Fixpoint analyze_loop (E : env) (coll : option collection) (top_k : Z)
  (temperature : str) (max_tokens : Z) (clauses : list clause)
  (results : list analysis_obj) : M (list analysis_obj) :=
  match clauses with
  | [] => ret results
  | cl :: rest =>
      let clause_text := strip (Clauses.clause_text cl) in
      if negb (truthy clause_text) then
        analyze_loop E coll top_k temperature max_tokens rest results
      else
        obj <-- analyze_clause E coll top_k temperature max_tokens
                  (clause_id cl) clause_text ;;;
        analyze_loop E coll top_k temperature max_tokens rest (results ++ [obj])
  end.

Definition analyze_document_text (E : env) (text : str)
  (max_clauses : option Z) (top_k_precedents : Z) (lll_max_tokens : Z)
  (lll_temperature : str) : M (list analysis_obj) :=
  clauses <-- lift (split_into_clauses_default text) ;;;
  if negb (nonempty clauses) then ret []
  else
    let clauses :=
      match max_clauses with
      | Some k => take k clauses
      | None => clauses
      end in
    analyze_loop E (setup_collection E) top_k_precedents lll_temperature
      lll_max_tokens clauses [].

(** The default of [max_clauses]. *)
Definition DEFAULT_MAX_CLAUSES : option Z := Some 20%Z.

End Analyzer.

(** ** Predicates used in the statements *)
Module Props.
Import Py Json World Clauses GroqClient Analyzer.






Definition is_brace (c : ascii) : bool := is_code 123 c || is_code 125 c.

(** No brace occurs in [s]. *)
Definition no_braces (s : str) : bool := forallb (fun c => negb (is_brace c)) s.

(** Counting braces from a depth of [k + 1], the depth first reaches zero
    on the last character of [s]. *)
Fixpoint closes_at_end (k : nat) (s : str) : bool :=
  match s with
  | [] => false
  | c :: rest =>
      if is_code 123 c then closes_at_end (S k) rest
      else if is_code 125 c then
        match k with
        | O => match rest with [] => true | _ :: _ => false end
        | S k' => closes_at_end k' rest
        end
      else closes_at_end k rest
  end.

(** [obj] begins with an opening brace, which its last character closes:
    a balanced-brace object text. *)
Definition balanced_object (obj : str) : bool :=
  match obj with
  | c :: body => is_code 123 c && closes_at_end 0 body
  | [] => false
  end.

(** The trimmed text begins and ends with three backticks. *)
Definition enclosed_in_fence (raw : str) : bool :=
  startswith (strip raw) fence && endswith (strip raw) fence.

(** What the n-th request comes to: the value its attempt returns, or the
    exception that ends the attempt. *)
Definition attempt_reply (E : env) (n : nat) (req : request) : result json :=
  j <- http_post E n req ;; parse_reply j.

Definition fails {A : Type} (r : result A) : Prop := exists e, r = Raise e.

(** The events of [n] consecutive attempts numbered from [first]: one
    request each, and between two consecutive attempts a sleep of
    [RETRY_DELAY] times the number of the attempt just made. *)
Fixpoint attempts_trace (req : request) (first : Z) (n : nat) : list event :=
  match n with
  | O => []
  | S n' =>
      match n' with
      | O => [EvPost req]
      | S _ =>
          EvPost req :: EvSleep (RETRY_DELAY * first)
          :: attempts_trace req (first + 1) n'
      end
  end.

(** The request [call_groq_chat] sends. *)
Definition request_of (user_prompt system_prompt model temperature : str)
  (max_tokens timeout : Z) : request :=
  {| req_model := model;
     req_system_prompt := system_prompt;
     req_user_prompt := user_prompt;
     req_temperature := temperature;
     req_max_tokens := max_tokens;
     req_timeout := timeout |}.

(** The references of [l] come in descending order of score. *)
Definition score_descending (clause_text : str) (l : list str) : Prop :=
  StronglySorted (fun p q => score clause_text q <= score clause_text p) l.

(** The order on the scores of the pairs [(score, p)]. *)
Definition by_score (x y : nat * str) : Prop := fst y <= fst x.

(** The pairs built by the scoring loop. *)
Definition scored_of (clause_text : str) (ps : list str) : list (nat * str) :=
  map (fun p => (score clause_text p, p)) ps.

Definition well_scored (clause_text : str) (sp : nat * str) : Prop :=
  fst sp = score clause_text (snd sp).

(** The selection made from the sorted pairs, for [top_k = k]. *)
Definition hits_of (clause_text : str) (ps : list str) (k : nat) : list str :=
  map snd (filter (fun sp => 0 <? fst sp)
                  (firstn k (sort_desc (scored_of clause_text ps)))).

(** The loop state in which the ids given out so far are 0, 1, 2, ... *)
Definition numbered (st : loop_state) : Prop :=
  map clause_id (fst st) = seq 0 (snd st).

(** A clause the analysis loop does not skip: its stripped text is not
    empty. *)
Definition eligible (c : clause) : bool := truthy (strip (clause_text c)).

(** The clauses the loop goes through: [clauses[:max_clauses]]. *)
Definition processed (max_clauses : option Z) (cs : list clause) : list clause :=
  match max_clauses with
  | Some k => take k cs
  | None => cs
  end.

(** What identifies a result, and the same for a clause. *)
Definition result_key (r : analysis_obj) : nat * str :=
  (res_clause_id r, res_clause r).
Definition clause_key (c : clause) : nat * str :=
  (clause_id c, strip (clause_text c)).

(** The result carries risk score 0 and at least one reason. *)
Definition degraded (r : analysis_obj) : Prop :=
  match res_analysis r with
  | JObj d =>
      dict_get (lit "risk_score") d = JInt 0
      /\ exists reason others,
           dict_get (lit "reasons") d = JArr (reason :: others)
  | _ => False
  end.

(** Every call of the model client, as the analysis makes it, raises. *)
Definition model_always_fails (E : env) (temperature : str) (max_tokens : Z)
  : Prop :=
  forall (user_prompt : str) (w : world),
    exists e w',
      call_groq_chat E user_prompt SYSTEM_PROMPT (GROQ_MODEL E) temperature
        max_tokens DEFAULT_TIMEOUT MAX_RETRIES w = (Raise e, w').

(** The number of results of a run, and of eligible clauses of a
    segmentation; 0 when it raised. *)
Definition count_results (r : result (list analysis_obj) * world) : nat :=
  match r with
  | (Ok results, _) => length results
  | (Raise _, _) => 0
  end.

Definition count_eligible (r : result (list clause)) : nat :=
  match r with
  | Ok cs => length (filter eligible cs)
  | Raise _ => 0
  end.

End Props.

(** ** Concrete inputs used below *)
Module Inputs.
Import Py Json World Clauses.

(** A short opening line, then a paragraph of 59 characters. *)
Definition doc_short_first : str :=
  esc "Hi there.\n\nThis agreement is made between the two parties named below.".

(** A paragraph of 59 characters, then a short closing line. *)
Definition doc_short_last : str :=
  esc "This agreement is made between the two parties named below.\n\nShort.".



(** A paragraph of 21 characters, then one of 7. *)
Definition doc_merge_over : str := esc "The term is one year.\n\nNo fee.".

(** What [split_into_clauses doc_merge_over 10 21 False] returns. *)
Definition clauses_merge_over : list clause :=
  [{| clause_id := 0;
      clause_text := esc "The term is one year.\n\nNo fee.";
      clause_length := 21;
      clause_too_short := false;
      start_idx := None;
      end_idx := None |}].

(** A fenced reply whose closing backticks follow the object on its line. *)
Definition reply_fence_glued : str :=
  esc "```json\n{\qrisk_score\q: 1, \qreasons\q: [], \qredline\q: \q\q}```".

(** The object of [reply_fence_glued]. *)
Definition reply_object : str :=
  esc "{\qrisk_score\q: 1, \qreasons\q: [], \qredline\q: \q\q}".

Definition reply_value : json :=
  JObj [(lit "risk_score", JInt 1); (lit "reasons", JArr []);
        (lit "redline", JStr [])].

(** Commentary around [reply_object]. *)
Definition reply_pre : str := lit "Here is the analysis: ".
Definition reply_post : str := esc ".\nHope this helps!".

(** A reply without braces. *)
Definition reply_number : str := lit "123".

(** An environment without API key, in which every request fails. *)
Definition env_no_key : env :=
  {| GROQ_API_KEY := [];
     GROQ_MODEL := lit "llama-3.3-70b-versatile";
     http_post := fun _ _ => Raise RequestError;
     clock := fun _ => lit "2025-01-01T00:00:00+00:00";
     corpus_file := Some [lit "Either party may terminate this agreement.";
                          lit "Payment is due within thirty days.";
                          lit "The lease term is one year."];
     trace_writable := fun _ => true;
     chroma := Ok None |}.

(** The same with an API key. *)
Definition env_down : env :=
  {| GROQ_API_KEY := lit "gsk-test";
     GROQ_MODEL := GROQ_MODEL env_no_key;
     http_post := http_post env_no_key;
     clock := clock env_no_key;
     corpus_file := corpus_file env_no_key;
     trace_writable := trace_writable env_no_key;
     chroma := chroma env_no_key |}.

(** A body in the shape of a chat completion whose message is [content]. *)
Definition completion (content : str) : json :=
  JObj [(lit "choices",
         JArr [JObj [(lit "message", JObj [(lit "content", JStr content)])]])].

(** An environment whose first request fails and whose later ones are
    answered with [reply_object]. *)
Definition env_flaky : env :=
  {| GROQ_API_KEY := lit "gsk-test";
     GROQ_MODEL := GROQ_MODEL env_no_key;
     http_post := fun n _ => match n with
                             | O => Raise RequestError
                             | S _ => Ok (completion reply_object)
                             end;
     clock := clock env_no_key;
     corpus_file := corpus_file env_no_key;
     trace_writable := trace_writable env_no_key;
     chroma := chroma env_no_key |}.

Definition a_prompt : str := lit "Analyze this clause.".
Definition a_model : str := lit "llama-3.3-70b-versatile".
Definition a_temperature : str := lit "0.0".

(** A document of 21 paragraphs of 56 characters each. *)
Definition a_paragraph : str :=
  lit "The supplier shall deliver the goods within thirty days.".

Definition doc_21_paragraphs : str :=
  join [Re.nl; Re.nl] (repeat a_paragraph 21).

End Inputs.

(** ** [call_groq_chat_langchain]

    The second entry point of [app/llm/groq_client.py]. What it does with
    the outside is one call of the chat model; [reply] is what that call
    comes to: the [content] attribute of the response ([JNull] when the
    response has none), or the exception raised on the way. *)
Module Langchain.
Import Py Json GroqClient.

Definition call_groq_chat_langchain (api_key : str) (reply : result json)
  : result json :=
  if negb (truthy api_key) then
    Raise (EnvironmentError "GROQ_API_KEY not set in environment.")
  else
    content <- reply ;;
    if negb (json_truthy content) then
      Raise (ValueError "No content returned from LLM response.")
    else
      match content with
      | JStr text =>
          match _parse_json_strict text with
          | JNull => Raise (ValueError "LLM returned non-JSON content.")
          | JObj d => Ok (JObj d)
          | _ => Raise (ValueError "Parsed JSON is not an object.")
          end
      | _ => Raise AttributeError
      end.

End Langchain.

(** ** Further predicates used in the statements *)
Module MoreProps.
Import Py Json World Clauses GroqClient Analyzer Props.

(** The characters of [s] that are not white space, in order. *)
Definition nonspace (s : str) : str := filter (fun c => negb (isspace c)) s.

(** All the characters of [s] are white space. *)
Definition blank (s : str) : bool := forallb isspace s.

(** No carriage return occurs in [s]. *)
Definition no_cr (s : str) : bool := forallb (fun c => negb (Re.is_cr c)) s.

(** No two neighbouring characters of [s] are both a space or a tab. *)
Fixpoint no_double_blank (s : str) : bool :=
  match s with
  | [] => true
  | c :: rest =>
      match rest with
      | [] => true
      | d :: _ => negb (Re.is_blank c && Re.is_blank d) && no_double_blank rest
      end
  end.

(** [s] is empty or begins with a character that is no space or tab. *)
Definition head_not_blank (s : str) : bool :=
  match s with
  | [] => true
  | c :: _ => negb (Re.is_blank c)
  end.

(** [s] neither begins nor ends with white space. *)
Definition trimmed (s : str) : bool :=
  match s with
  | [] => true
  | c :: _ => negb (isspace c) && negb (isspace (last s c))
  end.

(** No line boundary of [str.splitlines] occurs in [s]. *)
Definition one_line (s : str) : bool :=
  forallb (fun c => negb (is_linebreak c)) s.

(** No opening brace occurs in [s]. *)
Definition no_open_brace (s : str) : bool :=
  forallb (fun c => negb (is_code 123 c)) s.

(** A reply in a proper fence: the opening fence with its language tag on
    the first line, the lines of the body, the closing fence on the last
    line. *)
Definition fenced (tag : str) (body : list str) : str :=
  join [Re.nl] ((fence ++ tag) :: body ++ [fence]).

(** The events of a world that are requests, clock readings, attempts to
    write the trace. *)
Definition posts (w : world) : nat := count is_post w.
Definition clock_reads (w : world) : nat := count is_now w.
Definition trace_attempts (w : world) : nat := count is_trace_attempt w.

(** A trace entry and a result tell the same about one clause. *)
Definition entry_matches (t : trace_entry) (r : analysis_obj) : Prop :=
  tr_clause_id t = res_clause_id r
  /\ tr_clause_length t = length (res_clause r)
  /\ tr_ts t = res_ts r
  /\ tr_response t = res_analysis r
  /\ tr_risk_score t = risk_score_of (res_analysis r)
  /\ tr_precedents t = res_precedents r
  /\ tr_prompt t = firstn 500 (prompt_of (res_clause r)).

(** The flag [too_short] of a clause says that its text is shorter than
    [min_len], and its [length] does not exceed the size of its text. *)
Definition flag_ok (min_len : Z) (c : clause) : Prop :=
  clause_too_short c = (len (clause_text c) <? min_len)%Z
  /\ clause_length c <= length (clause_text c).

(** The clause is not flagged and its text has at least [min_len]
    characters. *)
Definition long_enough (min_len : Z) (c : clause) : Prop :=
  clause_too_short c = false /\ (min_len <= len (clause_text c))%Z.

(** What the main loop of [split_into_clauses] keeps true of its state. *)
Definition loop_inv (min_len : Z) (st : loop_state) : Prop :=
  numbered st
  /\ Forall (flag_ok min_len) (fst st)
  /\ Forall (long_enough min_len) (tl (fst st)).

(** The positions of [l] are in non-decreasing order and none is below
    [lo]. *)
Fixpoint asc_from (lo : nat) (l : list nat) : Prop :=
  match l with
  | [] => True
  | x :: r => lo <= x /\ asc_from x r
  end.

(** The texts of a list of parts, and of a list of clauses, end to end. *)
Definition parts_text (parts : list part) : str :=
  concat (map (fun p => fst (fst p)) parts).

Definition clauses_text (cs : list clause) : str :=
  concat (map clause_text cs).

(** The event is a request or a sleep. *)
Definition is_request_or_sleep (e : event) : bool :=
  match e with
  | EvPost _ | EvSleep _ => true
  | _ => false
  end.

End MoreProps.

(** * Properties *)

(** ** Strings *)
Section StringFacts.
Import Py.






End StringFacts.

(** ** The clause segmenter *)
Section ClauseFacts.
Import Py Clauses Props.


Lemma update_last_Forall {A : Type} (P : A -> Prop) (f : A -> A) (l : list A) :
  (forall x, P x -> P (f x)) -> Forall P l -> Forall P (update_last f l).
Proof.
  intros Hf. induction l as [|x [|y r] IH]; intros H; simpl; auto.
  - inversion H; subst. constructor; auto.
  - inversion H; subst. constructor; auto.
Qed.


End ClauseFacts.

Section ClauseIds.
Import Py Clauses Props.

Lemma update_last_ids (f : clause -> clause) (l : list clause) :
  (forall x, clause_id (f x) = clause_id x) ->
  map clause_id (update_last f l) = map clause_id l.
Proof.
  intros Hf. induction l as [|x [|y r] IH]; simpl in *; auto.
  - rewrite Hf. reflexivity.
  - f_equal. exact IH.
Qed.

Lemma add_chunk_numbered (min_len : Z) (debug : bool) (si ei : nat)
  (st : loop_state) (c0 : str) :
  numbered st -> numbered (add_chunk min_len debug si ei st c0).
Proof.
  destruct st as [clauses cid]. unfold numbered, add_chunk. cbn [fst snd].
  intros H.
  destruct ((len (strip c0) <? min_len)%Z && nonempty clauses); cbn [fst snd].
  - rewrite update_last_ids; auto.
  - rewrite map_app, H, seq_S. reflexivity.
Qed.

Lemma fold_add_chunk_numbered (min_len : Z) (debug : bool) (si ei : nat)
  (chunks : list str) :
  forall st, numbered st ->
    numbered (fold_left (add_chunk min_len debug si ei) chunks st).
Proof.
  induction chunks as [|c r IH]; intros st H; simpl; auto.
  apply IH. apply add_chunk_numbered. exact H.
Qed.

(** Before the final pass the ids are 0, 1, 2, ... in order. *)
Lemma parts_loop_numbered (min_len max_len : Z) (debug : bool)
  (parts : list part) :
  forall st st', numbered st ->
    parts_loop min_len max_len debug parts st = Ok st' -> numbered st'.
Proof.
  induction parts as [|[[pt si] ei] r IH]; intros st st' Hst; simpl.
  - intros H. inversion H; subst. exact Hst.
  - destruct (_chunk_long_clause pt max_len) as [chunks|e]; simpl; [|discriminate].
    apply IH. apply fold_add_chunk_numbered. exact Hst.
Qed.

(** Removing clauses keeps their ids distinct. *)
Lemma kept_ids_distinct (keep : clause -> bool) (cs : list clause) :
  NoDup (map clause_id cs) -> NoDup (map clause_id (filter keep cs)).
Proof.
  induction cs as [|c cs IH]; intros Hnd; cbn [filter map]; [constructor|].
  cbn [map] in Hnd. apply NoDup_cons_iff in Hnd. destruct Hnd as [Hc Hcs].
  destruct (keep c); [|apply IH; exact Hcs].
  cbn [map]. apply NoDup_cons; [|apply IH; exact Hcs].
  intros Hin. apply Hc. apply in_map_iff in Hin.
  destruct Hin as [d [Hd Hin]]. apply filter_In in Hin.
  rewrite <- Hd. apply in_map. tauto.
Qed.

(** The ids of the returned clauses are pairwise distinct. *)
Lemma split_into_clauses_ids_distinct (doc : str) (min_len max_len : Z)
  (debug : bool) (cs : list clause) :
  split_into_clauses doc min_len max_len debug = Ok cs ->
  NoDup (map clause_id cs).
Proof.
  unfold split_into_clauses.
  destruct (negb (truthy (_normalize_whitespace doc))).
  - intros H. inversion H. constructor.
  - destruct (parts_loop min_len max_len debug
                (parts_of (_normalize_whitespace doc)) ([], 0)) as [st|e] eqn:E;
      simpl; [|discriminate].
    intros H. inversion H; subst. clear H.
    apply parts_loop_numbered in E; [|reflexivity].
    unfold final_pass. destruct (1 <? length (fst st)).
    + apply kept_ids_distinct. rewrite E. apply seq_NoDup.
    + rewrite E. apply seq_NoDup.
Qed.

End ClauseIds.

Section ClauseClaims.
Import Py Clauses Props.

(** C1. With the default parameters, the document [doc_short_first] (a
    short opening line, then a paragraph of 59 characters) gives one clause,
    whose id is 1: the opening line took id 0 and was removed by the final
    pass, after the ids had been given out. The ids are not 0..N-1. *)
Theorem split_into_clauses_ids_gap :
  exists c : clause,
    split_into_clauses_default Inputs.doc_short_first = Ok [c]
    /\ clause_id c = 1
    /\ map clause_id [c] <> seq 0 (length [c]).
Proof.
  eexists. split; [vm_compute; reflexivity|].
  split; [reflexivity|]. simpl. discriminate.
Qed.

(** C2. With the default parameters, the document [doc_short_last] (a
    paragraph of 59 characters, then a short closing line) gives one clause:
    the closing line was merged into its text, 67 characters long, while its
    [length] is still 59. *)
Theorem split_into_clauses_stale_length :
  exists c : clause,
    split_into_clauses_default Inputs.doc_short_last = Ok [c]
    /\ clause_length c = 59
    /\ length (clause_text c) = 67.
Proof.
  eexists. split; [vm_compute; reflexivity|].
  split; reflexivity.
Qed.


End ClauseClaims.

(** ** The response parser *)
Section ParserFacts.
Import Py Json GroqClient Props.

Lemma lstrip_app_nonspace (a b : str) (c : ascii) (b' : str) :
  b = c :: b' -> isspace c = false -> lstrip (a ++ b) = lstrip a ++ b.
Proof.
  intros -> Hc. induction a as [|x a IH]; simpl.
  - rewrite Hc. reflexivity.
  - destruct (isspace x); auto.
Qed.

Lemma rstrip_app_nonspace (a b : str) (c : ascii) (a' : str) :
  a = a' ++ [c] -> isspace c = false -> rstrip (a ++ b) = a ++ rstrip b.
Proof.
  intros -> Hc. unfold rstrip.
  rewrite rev_app_distr.
  rewrite (@lstrip_app_nonspace (rev b) (rev (a' ++ [c])) c (rev a')).
  - rewrite rev_app_distr, rev_involutive. reflexivity.
  - rewrite rev_app_distr. reflexivity.
  - exact Hc.
Qed.

Lemma closes_at_end_last (s : str) :
  forall k, closes_at_end k s = true -> exists s', s = s' ++ [chr 125].
Proof.
  induction s as [|c rest IH]; intros k; simpl; [discriminate|].
  destruct (is_code 123 c) eqn:Eo.
  - intros H. destruct (IH _ H) as [s' ->]. exists (c :: s'). reflexivity.
  - destruct (is_code 125 c) eqn:Ec.
    + destruct k as [|k'].
      * destruct rest; [|discriminate]. intros _. exists [].
        unfold is_code, ord in Ec. apply N.eqb_eq in Ec.
        rewrite <- (ascii_N_embedding c), Ec. reflexivity.
      * intros H. destruct (IH _ H) as [s' ->]. exists (c :: s'). reflexivity.
    + intros H. destruct (IH _ H) as [s' ->]. exists (c :: s'). reflexivity.
Qed.

Lemma no_braces_app (a b : str) :
  no_braces (a ++ b) = no_braces a && no_braces b.
Proof. unfold no_braces. apply forallb_app. Qed.

Lemma no_braces_lstrip (s : str) : no_braces s = true -> no_braces (lstrip s) = true.
Proof.
  induction s as [|c s IH]; simpl; auto.
  intros H. destruct (isspace c); auto.
  apply andb_true_iff in H. apply IH. tauto.
Qed.

Lemma no_braces_rev (s : str) : no_braces (rev s) = no_braces s.
Proof.
  induction s as [|c s IH]; simpl; auto.
  rewrite no_braces_app, IH. simpl. rewrite andb_true_r. apply andb_comm.
Qed.

Lemma no_braces_rstrip (s : str) : no_braces s = true -> no_braces (rstrip s) = true.
Proof.
  intros H. unfold rstrip. rewrite no_braces_rev. apply no_braces_lstrip.
  rewrite no_braces_rev. exact H.
Qed.

Lemma no_braces_strip (s : str) : no_braces s = true -> no_braces (strip s) = true.
Proof.
  intros H. unfold strip. apply no_braces_lstrip, no_braces_rstrip, H.
Qed.

(** The scan passes over text without braces. *)
Lemma extract_loop_skip (text a r : str) :
  forall i start stack,
    no_braces a = true ->
    extract_loop text i start stack (a ++ r)
    = extract_loop text (i + length a) start stack r.
Proof.
  induction a as [|c a IH]; intros i start stack H; simpl.
  - f_equal; lia.
  - simpl in H. apply andb_true_iff in H. destruct H as [Hc Ha].
    unfold is_brace in Hc. apply negb_true_iff, orb_false_iff in Hc.
    destruct Hc as [-> ->]. rewrite IH by assumption. f_equal; lia.
Qed.

Lemma extract_loop_none (text s : str) :
  forall i start stack,
    no_braces s = true -> extract_loop text i start stack s = None.
Proof.
  intros i start stack H.
  rewrite <- (app_nil_r s), extract_loop_skip by assumption. reflexivity.
Qed.

(** Inside the object the scan stops on the brace that closes it. *)
Lemma extract_loop_closes (text body r : str) (st : nat) :
  forall i k,
    closes_at_end k body = true ->
    extract_loop text i (Some st) (S k) (body ++ r)
    = Some (slice text st (i + length body)).
Proof.
  induction body as [|c body IH]; intros i k; simpl; [discriminate|].
  destruct (is_code 123 c) eqn:Eo.
  - intros H. rewrite IH by assumption. do 2 f_equal; lia.
  - destruct (is_code 125 c) eqn:Ec.
    + destruct k as [|k'].
      * destruct body; [|discriminate]. intros _. simpl. do 2 f_equal; lia.
      * intros H. rewrite IH by assumption. do 2 f_equal; lia.
    + intros H. rewrite IH by assumption. do 2 f_equal; lia.
Qed.

Lemma extract_first_json_object (a obj r : str) :
  no_braces a = true -> balanced_object obj = true ->
  _extract_first_json (a ++ obj ++ r) = Some obj.
Proof.
  intros Ha Hobj. destruct obj as [|c body]; [discriminate|].
  simpl in Hobj. apply andb_true_iff in Hobj. destruct Hobj as [Hc Hb].
  unfold _extract_first_json.
  assert (Ht : truthy (a ++ (c :: body) ++ r) = true) by (destruct a; reflexivity).
  rewrite Ht. simpl negb. cbv iota.
  rewrite extract_loop_skip by assumption.
  change ((c :: body) ++ r) with (c :: (body ++ r)).
  cbn [extract_loop]. rewrite Hc.
  rewrite (extract_loop_closes _ _ _ _ _ _ Hb).
  f_equal. unfold slice. cbn [Nat.add].
  replace (S (length a + length body) - length a) with (S (length body)) by lia.
  rewrite skipn_app, skipn_all, Nat.sub_diag. cbn [skipn app].
  change (firstn (S (length body)) (c :: body ++ r))
    with (c :: firstn (length body) (body ++ r)).
  f_equal. rewrite firstn_app, firstn_all, Nat.sub_diag. cbn [firstn].
  apply app_nil_r.
Qed.

Lemma strip_around_object (pre obj post : str) :
  balanced_object obj = true ->
  strip (pre ++ obj ++ post) = lstrip pre ++ obj ++ rstrip post.
Proof.
  intros Hobj. destruct obj as [|c body]; [discriminate|].
  simpl in Hobj. apply andb_true_iff in Hobj. destruct Hobj as [Hc Hb].
  destruct (closes_at_end_last _ _ Hb) as [b' ->].
  assert (Hopen : isspace c = false).
  { unfold is_code, ord in Hc. apply N.eqb_eq in Hc.
    rewrite <- (ascii_N_embedding c), Hc. reflexivity. }
  unfold strip.
  assert (E : pre ++ (c :: b' ++ [chr 125]) ++ post
              = ((pre ++ c :: b') ++ [chr 125]) ++ post).
  { repeat (rewrite <- app_assoc; simpl). reflexivity. }
  rewrite E.
  rewrite (@rstrip_app_nonspace _ post (chr 125) (pre ++ c :: b') eq_refl eq_refl).
  assert (E2 : ((pre ++ c :: b') ++ [chr 125]) ++ rstrip post
               = pre ++ c :: ((b' ++ [chr 125]) ++ rstrip post)).
  { repeat (rewrite <- app_assoc; simpl). reflexivity. }
  rewrite E2.
  rewrite (@lstrip_app_nonspace pre _ c ((b' ++ [chr 125]) ++ rstrip post) eq_refl Hopen).
  reflexivity.
Qed.

(** Fence stripping brings in no brace. *)
Lemma splitlines_aux_no_braces_n (n : nat) :
  forall s cur, length s <= n -> no_braces cur = true -> no_braces s = true ->
    forallb no_braces (splitlines_aux cur s) = true.
Proof.
  induction n as [|n IH]; intros s cur Hn Hcur Hs.
  - destruct s; [|simpl in Hn; lia]. cbn [splitlines_aux].
    destruct cur as [|x cur']; [reflexivity|]. cbn [forallb].
    rewrite no_braces_rev, Hcur. reflexivity.
  - destruct s as [|c rest]; cbn [splitlines_aux].
    + destruct cur as [|x cur']; [reflexivity|]. cbn [forallb].
      rewrite no_braces_rev, Hcur. reflexivity.
    + simpl in Hs, Hn. apply andb_true_iff in Hs. destruct Hs as [Hc Hrest].
      assert (Hrev : no_braces (rev cur) = true)
        by (rewrite no_braces_rev; exact Hcur).
      destruct (is_linebreak c).
      * destruct rest as [|c2 rest2].
        -- cbn [splitlines_aux forallb]. rewrite Hrev. reflexivity.
        -- simpl in Hrest, Hn. apply andb_true_iff in Hrest.
           destruct Hrest as [Hc2 Hrest2].
           destruct (is_code 13 c && is_code 10 c2); cbn [forallb]; rewrite Hrev;
             cbn [andb]; apply IH; auto; simpl; try lia.
           rewrite Hc2. exact Hrest2.
      * apply IH; [lia| |exact Hrest]. simpl. rewrite Hc. exact Hcur.
Qed.

Lemma splitlines_aux_no_braces (s cur : str) :
  no_braces cur = true -> no_braces s = true ->
  forallb no_braces (splitlines_aux cur s) = true.
Proof. apply (splitlines_aux_no_braces_n (n := length s)). lia. Qed.

Lemma join_no_braces (l : list str) :
  forallb no_braces l = true -> no_braces (join [Re.nl] l) = true.
Proof.
  induction l as [|x [|y r] IH]; simpl; auto.
  - rewrite andb_true_r. auto.
  - intros H. apply andb_true_iff in H. destruct H as [Hx Hr].
    rewrite no_braces_app. rewrite Hx. simpl. apply IH. exact Hr.
Qed.

Lemma forallb_tl {A : Type} (p : A -> bool) (l : list A) :
  forallb p l = true -> forallb p (tl l) = true.
Proof. destruct l; simpl; auto. intros H. apply andb_true_iff in H. tauto. Qed.

Lemma forallb_removelast {A : Type} (p : A -> bool) (l : list A) :
  forallb p l = true -> forallb p (removelast l) = true.
Proof.
  induction l as [|x [|y r] IH]; simpl; auto.
  intros H. apply andb_true_iff in H. destruct H as [Hx Hr].
  rewrite Hx. simpl. apply IH. exact Hr.
Qed.

Lemma strip_code_fences_no_braces (raw : str) :
  no_braces raw = true -> no_braces (_strip_code_fences raw) = true.
Proof.
  intros H. unfold _strip_code_fences.
  destruct (negb (truthy raw)); auto.
  destruct (startswith (strip raw) fence && endswith (strip raw) fence).
  - apply no_braces_strip, join_no_braces.
    unfold drop_first_last. apply forallb_removelast, forallb_tl.
    apply splitlines_aux_no_braces; auto. apply no_braces_strip, H.
  - apply no_braces_strip, H.
Qed.

End ParserFacts.

Section JsonFacts.
Import Py Json Props.

Lemma match_number_not_dict (s : str) (v : json) (r : str) :
  match_number s = Some (v, r) -> is_dict v = false.
Proof.
  unfold match_number.
  destruct (match s with
            | [] => (false, s)
            | c :: r0 => if is_code 45 c then (true, r0) else (false, s)
            end) as [neg s1].
  destruct s1 as [|d r1]; [discriminate|].
  destruct (isdigit_09 d); [|discriminate].
  match goal with
  | |- (if ?b then _ else _) = _ -> _ => destruct b
  end; intros H; inversion H; reflexivity.
Qed.

Lemma keyword_not_dict (kw : string) (v0 : json) (s : str) (v : json) (r : str) :
  is_dict v0 = false -> keyword kw v0 s = Some (v, r) -> is_dict v = false.
Proof.
  unfold keyword. intros Hv. destruct (startswith s (lit kw)); [|discriminate].
  intros H. inversion H; subst. exact Hv.
Qed.

Lemma scan_items_not_dict (fuel : nat) :
  forall acc s v r, scan_items fuel acc s = Some (v, r) -> is_dict v = false.
Proof.
  induction fuel as [|f IH]; intros acc s v r; [discriminate|].
  cbn [scan_items].
  destruct (scan_once f s) as [[v1 r1]|]; [|discriminate].
  destruct (skip_ws r1) as [|c r2]; [discriminate|].
  destruct (is_code 93 c).
  - intros H. inversion H. reflexivity.
  - destruct (is_code 44 c); [|discriminate]. apply IH.
Qed.

(** A parsed object begins with an opening brace. *)
Lemma scan_once_dict (fuel : nat) (s : str) (v : json) (r : str) :
  scan_once fuel s = Some (v, r) -> is_dict v = true ->
  exists c rest, s = c :: rest /\ is_code 123 c = true.
Proof.
  destruct fuel as [|f]; [discriminate|]. cbn [scan_once].
  destruct s as [|c rest]; [discriminate|].
  destruct (is_code 34 c).
  { destruct (scanstring [] rest) as [[x y]|]; [|discriminate].
    intros H Hd. inversion H; subst. discriminate. }
  destruct (is_code 123 c) eqn:Eo.
  { intros _ _. exists c, rest. auto. }
  destruct (is_code 91 c).
  { destruct (skip_ws rest) as [|c1 r1]; [discriminate|].
    destruct (is_code 93 c1).
    - intros H Hd. inversion H; subst. discriminate.
    - intros H Hd. apply scan_items_not_dict in H. congruence. }
  destruct (is_code 110 c).
  { intros H Hd. apply keyword_not_dict in H; [congruence|reflexivity]. }
  destruct (is_code 116 c).
  { intros H Hd. apply keyword_not_dict in H; [congruence|reflexivity]. }
  destruct (is_code 102 c).
  { intros H Hd. apply keyword_not_dict in H; [congruence|reflexivity]. }
  destruct (is_code 78 c).
  { intros H Hd. apply keyword_not_dict in H; [congruence|reflexivity]. }
  destruct (is_code 73 c).
  { intros H Hd. apply keyword_not_dict in H; [congruence|reflexivity]. }
  destruct (is_code 45 c && startswith rest (lit "Infinity")).
  { intros H Hd. apply keyword_not_dict in H; [congruence|reflexivity]. }
  intros H Hd. apply match_number_not_dict in H. congruence.
Qed.

Lemma no_braces_skip_ws (s : str) :
  no_braces s = true -> no_braces (skip_ws s) = true.
Proof.
  induction s as [|c s IH]; simpl; auto.
  intros H. destruct (is_ws c); auto.
  apply andb_true_iff in H. apply IH. tauto.
Qed.

(** A text without braces never parses to an object. *)
Lemma json_loads_no_braces (s : str) (v : json) :
  no_braces s = true -> json_loads s = Some v -> is_dict v = false.
Proof.
  intros Hs. unfold json_loads.
  destruct (scan_once (S (length s)) (skip_ws s)) as [[v1 r]|] eqn:E; [|discriminate].
  destruct (skip_ws r); [|discriminate]. intros H. inversion H; subst.
  destruct (is_dict v) eqn:Hd; [|reflexivity].
  destruct (scan_once_dict _ _ E Hd) as [c [rest [Heq Hc]]].
  apply no_braces_skip_ws in Hs. rewrite Heq in Hs. simpl in Hs.
  unfold is_brace in Hs. rewrite Hc in Hs. discriminate.
Qed.

End JsonFacts.

Section ParserClaims.
Import Py Json GroqClient Props.

(** C5. On [reply_fence_glued], whose last line holds the object and then
    the closing backticks, the fence is stripped although that last line is
    no fence line: the line is removed with the object on it, nothing is
    left, and the parser returns [None] for a reply that holds a well-formed
    object. *)
Theorem strip_code_fences_loses_last_line :
  enclosed_in_fence Inputs.reply_fence_glued = true
  /\ splitlines (strip Inputs.reply_fence_glued)
     = [lit "```json"; Inputs.reply_object ++ lit "```"]
  /\ _strip_code_fences Inputs.reply_fence_glued = []
  /\ _parse_json_strict Inputs.reply_fence_glued = JNull
  /\ json_loads Inputs.reply_object = Some Inputs.reply_value.
Proof. repeat split; vm_compute; reflexivity. Qed.

(** C6, as stated, fails on both counts. The text [123] holds no brace and
    the parser returns the number 123, not [None]; and with three backticks
    as the commentary on each side of a well-formed object, the parser
    returns [None], not the object. *)
Lemma parse_json_strict_counterexample :
  (no_braces Inputs.reply_number = true
   /\ _parse_json_strict Inputs.reply_number = JInt 123
   /\ _parse_json_strict Inputs.reply_number <> JNull)
  /\ (no_braces fence = true
      /\ balanced_object Inputs.reply_object = true
      /\ json_loads Inputs.reply_object = Some Inputs.reply_value
      /\ _parse_json_strict (fence ++ Inputs.reply_object ++ fence) = JNull
      /\ JNull <> Inputs.reply_value).
Proof.
  split.
  - split; [reflexivity|]. split; [vm_compute; reflexivity|].
    vm_compute. discriminate.
  - repeat split; try (vm_compute; reflexivity). discriminate.
Qed.

(** C6, amended. (1) Let a raw text be commentary without braces on both
    sides of an object text that [json.loads] accepts and whose opening
    brace is closed by its last character, and let the trimmed text not be
    enclosed in triple backticks. The parser returns the value of the whole
    trimmed text when that is valid JSON by itself, and the inner object
    otherwise. (2) For a raw text without braces the parser returns what
    [json.loads] makes of the fence-stripped text, [None] when it rejects
    it; the value returned is never an object. *)
Theorem parse_json_strict_recovers :
  (forall (pre obj post : str) (v : json),
      no_braces pre = true -> no_braces post = true ->
      balanced_object obj = true -> json_loads obj = Some v ->
      enclosed_in_fence (pre ++ obj ++ post) = false ->
      _parse_json_strict (pre ++ obj ++ post)
      = match json_loads (strip (pre ++ obj ++ post)) with
        | Some whole => whole
        | None => v
        end)
  /\ (forall raw : str,
         no_braces raw = true ->
         _parse_json_strict raw
         = match json_loads (_strip_code_fences raw) with
           | Some whole => whole
           | None => JNull
           end
         /\ is_dict (_parse_json_strict raw) = false).
Proof.
  split.
  - intros pre obj post v Hpre Hpost Hobj Hv Hfence.
    unfold _parse_json_strict, _strip_code_fences.
    assert (Ht : truthy (pre ++ obj ++ post) = true).
    { destruct obj; [discriminate|]. destruct pre; reflexivity. }
    rewrite Ht. cbn [negb].
    unfold enclosed_in_fence in Hfence. rewrite Hfence.
    destruct (json_loads (strip (pre ++ obj ++ post))) as [whole|]; [reflexivity|].
    rewrite (@strip_around_object pre obj post Hobj).
    rewrite extract_first_json_object;
      [|apply no_braces_lstrip; exact Hpre|exact Hobj].
    destruct obj; [discriminate|]. cbn [truthy]. rewrite Hv. reflexivity.
  - intros raw Hraw.
    assert (E : _parse_json_strict raw
                = match json_loads (_strip_code_fences raw) with
                  | Some whole => whole
                  | None => JNull
                  end).
    { unfold _parse_json_strict. destruct raw as [|c raw']; [reflexivity|].
      cbn [truthy negb].
      destruct (json_loads (_strip_code_fences (c :: raw'))); [reflexivity|].
      unfold _extract_first_json.
      destruct (negb (truthy (_strip_code_fences (c :: raw')))); [reflexivity|].
      rewrite extract_loop_none; [reflexivity|].
      apply strip_code_fences_no_braces. exact Hraw. }
    split; [exact E|]. rewrite E.
    destruct (json_loads (_strip_code_fences raw)) as [whole|] eqn:El; [|reflexivity].
    eapply json_loads_no_braces; [|exact El].
    apply strip_code_fences_no_braces. exact Hraw.
Qed.

Lemma parse_json_strict_recovers_witness :
  _parse_json_strict (Inputs.reply_pre ++ Inputs.reply_object ++ Inputs.reply_post)
  = Inputs.reply_value
  /\ _parse_json_strict Inputs.reply_number = JInt 123.
Proof.
  split.
  - rewrite (proj1 parse_json_strict_recovers Inputs.reply_pre Inputs.reply_object
               Inputs.reply_post Inputs.reply_value);
      vm_compute; reflexivity.
  - rewrite (proj1 (proj2 parse_json_strict_recovers Inputs.reply_number eq_refl)).
    vm_compute. reflexivity.
Defined.

End ParserClaims.

(** ** The retry loop *)
Section RetryFacts.
Import Py Json World GroqClient Props.

Lemma count_app (p : event -> bool) (w1 w2 : world) :
  count p (w1 ++ w2) = count p w1 + count p w2.
Proof. unfold count. rewrite filter_app, length_app. reflexivity. Qed.

Lemma attempt_once_eq (E : env) (req : request) (w : world) :
  attempt_once E req w
  = (attempt_reply E (count is_post w) req, w ++ [EvPost req]).
Proof.
  unfold attempt_once, attempt_reply.
  destruct (http_post E (count is_post w) req); reflexivity.
Qed.

Lemma count_post_sleep (req : request) (d : Z) (w : world) :
  count is_post ((w ++ [EvPost req]) ++ [EvSleep d]) = S (count is_post w).
Proof. rewrite !count_app. unfold count. cbn [filter is_post length]. lia. Qed.

Variable E : env.
Variable req : request.
Variable max_retries : Z.

(** All the attempts of the list fail: the loop goes through all of them and
    raises. The last number of the list is [max_retries + 1]. *)
Lemma retry_loop_all_fail (n : nat) :
  forall (a : nat) (w : world),
    (Z.of_nat (a + n) = max_retries + 2)%Z ->
    (forall i, i < n -> fails (attempt_reply E (count is_post w + i) req)) ->
    retry_loop E req max_retries (map Z.of_nat (seq a n)) w
    = (Raise (RuntimeError "GROQ call failed"),
       w ++ attempts_trace req (Z.of_nat a) n).
Proof.
  induction n as [|n IH]; intros a w Hlast Hfail.
  - simpl. unfold raise. rewrite app_nil_r. reflexivity.
  - cbn [seq map retry_loop]. unfold try_except at 1.
    rewrite attempt_once_eq.
    destruct (Hfail 0 ltac:(lia)) as [e He].
    rewrite Nat.add_0_r in He. rewrite He.
    unfold mbind at 1.
    destruct n as [|n'].
    + assert (Hle : (Z.of_nat a <=? max_retries)%Z = false)
        by (apply Z.leb_gt; lia).
      rewrite Hle. unfold ret at 1. simpl. unfold raise. reflexivity.
    + assert (Hle : (Z.of_nat a <=? max_retries)%Z = true)
        by (apply Z.leb_le; lia).
      rewrite Hle. unfold emit at 1.
      rewrite IH.
      * cbn [attempts_trace]. rewrite <- !app_assoc. simpl.
        replace (Z.of_nat a + 1)%Z with (Z.of_nat (S a)) by lia.
        destruct a; reflexivity.
      * lia.
      * intros i Hi. rewrite count_post_sleep.
        replace (S (count is_post w) + i) with (count is_post w + S i) by lia.
        apply Hfail. lia.
Qed.

(** The first [k] attempts fail and the next one returns [parsed]: the loop
    stops there. *)
Lemma retry_loop_success (k : nat) :
  forall (n a : nat) (w : world) (parsed : json),
    (Z.of_nat (a + n) = max_retries + 2)%Z ->
    k < n ->
    (forall i, i < k -> fails (attempt_reply E (count is_post w + i) req)) ->
    attempt_reply E (count is_post w + k) req = Ok parsed ->
    retry_loop E req max_retries (map Z.of_nat (seq a n)) w
    = (Ok parsed, w ++ attempts_trace req (Z.of_nat a) (S k)).
Proof.
  induction k as [|k IH]; intros n a w parsed Hlast Hk Hfail Hok.
  - destruct n as [|n]; [lia|].
    cbn [seq map retry_loop]. unfold try_except.
    rewrite attempt_once_eq. rewrite Nat.add_0_r in Hok. rewrite Hok.
    reflexivity.
  - destruct n as [|n]; [lia|].
    cbn [seq map retry_loop]. unfold try_except at 1.
    rewrite attempt_once_eq.
    destruct (Hfail 0 ltac:(lia)) as [e He].
    rewrite Nat.add_0_r in He. rewrite He.
    unfold mbind at 1.
    assert (Hle : (Z.of_nat a <=? max_retries)%Z = true)
      by (apply Z.leb_le; lia).
    rewrite Hle. unfold emit at 1.
    rewrite (IH n (S a) _ parsed).
    + cbn [attempts_trace]. rewrite <- !app_assoc. simpl.
      replace (Z.of_nat a + 1)%Z with (Z.of_nat (S a)) by lia.
      destruct a; reflexivity.
    + lia.
    + lia.
    + intros i Hi. rewrite count_post_sleep.
      replace (S (count is_post w) + i) with (count is_post w + S i) by lia.
      apply Hfail. lia.
    + rewrite count_post_sleep.
      replace (S (count is_post w) + k) with (count is_post w + S k) by lia.
      exact Hok.
Qed.

(** The requests and the sleeps of [n] consecutive attempts. *)
Lemma attempts_trace_posts (n : nat) :
  forall first, count is_post (attempts_trace req first n) = n.
Proof.
  induction n as [|[|n'] IH]; intros first; try reflexivity.
  change (attempts_trace req first (S (S n')))
    with (EvPost req :: EvSleep (RETRY_DELAY * first)
          :: attempts_trace req (first + 1) (S n')).
  unfold count in *. cbn [filter is_post length]. rewrite IH. reflexivity.
Qed.

Lemma attempts_trace_sleeps (n : nat) :
  forall a : nat,
    sleeps (attempts_trace req (Z.of_nat a) (S n))
    = map (fun k => (RETRY_DELAY * Z.of_nat k)%Z) (seq a n).
Proof.
  induction n as [|n' IH]; intros a; [reflexivity|].
  change (attempts_trace req (Z.of_nat a) (S (S n')))
    with (EvPost req :: EvSleep (RETRY_DELAY * Z.of_nat a)
          :: attempts_trace req (Z.of_nat a + 1) (S n')).
  unfold sleeps in *. cbn [flat_map app seq map].
  replace (Z.of_nat a + 1)%Z with (Z.of_nat (S a)) by lia.
  rewrite IH. reflexivity.
Qed.

End RetryFacts.

Section RetryClaims.
Import Py Json World GroqClient Props.

(** C7, as stated, fails: without an API key every request would fail, and
    yet the call makes no attempt at all, instead of the three that
    [MAX_RETRIES + 1] announces, and raises at once. *)
Lemma call_groq_chat_counterexample :
  (forall (n : nat) (req : request), fails (attempt_reply Inputs.env_no_key n req))
  /\ call_groq_chat Inputs.env_no_key Inputs.a_prompt SYSTEM_PROMPT Inputs.a_model
       Inputs.a_temperature 512 DEFAULT_TIMEOUT MAX_RETRIES []
     = (Raise (EnvironmentError "GROQ_API_KEY not set in environment."), [])
  /\ (Z.of_nat (count is_post []) <> MAX_RETRIES + 1)%Z.
Proof.
  split; [|split].
  - intros n req. exists RequestError. reflexivity.
  - reflexivity.
  - vm_compute. discriminate.
Qed.

(** C7, amended. Without an API key the call raises at once, before any
    attempt: it sends no request and does not sleep, whatever [max_retries]
    is. With an API key set and [max_retries >= 0]: (1) when each of the
    [max_retries + 1] attempts fails, the call makes exactly these attempts,
    sleeps [RETRY_DELAY] times the attempt number after each but the last,
    and only then raises; (2) when the first [k] attempts fail and the next
    one succeeds, the call makes [k + 1] attempts, with the same sleeps
    between them, and returns the parsed object. *)
Theorem call_groq_chat_retries (E : env)
  (user_prompt system_prompt model temperature : str)
  (max_tokens timeout max_retries : Z) (w : world) :
  let req := request_of user_prompt system_prompt model temperature
               max_tokens timeout in
  let call := call_groq_chat E user_prompt system_prompt model temperature
                max_tokens timeout max_retries in
  let n := Z.to_nat max_retries in
  (GROQ_API_KEY E = [] ->
   call w = (Raise (EnvironmentError "GROQ_API_KEY not set in environment."), w))
  /\ (GROQ_API_KEY E <> [] -> (0 <= max_retries)%Z ->
      ((forall i, i <= n -> fails (attempt_reply E (count is_post w + i) req)) ->
       call w = (Raise (RuntimeError "GROQ call failed"),
                 w ++ attempts_trace req 1 (S n))
       /\ count is_post (attempts_trace req 1 (S n)) = S n
       /\ sleeps (attempts_trace req 1 (S n))
          = map (fun a => (RETRY_DELAY * Z.of_nat a)%Z) (seq 1 n))
      /\ (forall (k : nat) (parsed : json),
             k <= n ->
             (forall i, i < k ->
                        fails (attempt_reply E (count is_post w + i) req)) ->
             attempt_reply E (count is_post w + k) req = Ok parsed ->
             call w = (Ok parsed, w ++ attempts_trace req 1 (S k))
             /\ count is_post (attempts_trace req 1 (S k)) = S k
             /\ sleeps (attempts_trace req 1 (S k))
                = map (fun a => (RETRY_DELAY * Z.of_nat a)%Z) (seq 1 k))).
Proof.
  intros req call n. split.
  { intros Hkey. unfold call, call_groq_chat. rewrite Hkey. reflexivity. }
  intros Hkey Hpos.
  assert (Hcall : call = retry_loop E req max_retries
                           (map Z.of_nat (seq 1 (S n)))).
  { unfold call, call_groq_chat.
    destruct (GROQ_API_KEY E) as [|c key]; [congruence|]. cbn [truthy negb].
    unfold attempt_numbers.
    replace (Z.to_nat (max_retries + 1)) with (S n) by (unfold n; lia).
    reflexivity. }
  split.
  - intros Hfail. split; [|split].
    + rewrite Hcall. apply (@retry_loop_all_fail E req max_retries (S n) 1 w).
      * unfold n. lia.
      * intros i Hi. apply Hfail. lia.
    + apply attempts_trace_posts.
    + apply (@attempts_trace_sleeps req n 1).
  - intros k parsed Hk Hfail Hok. split; [|split].
    + rewrite Hcall.
      apply (@retry_loop_success E req max_retries k (S n) 1 w parsed); auto.
      * unfold n. lia.
      * lia.
    + apply attempts_trace_posts.
    + apply (@attempts_trace_sleeps req k 1).
Qed.

Lemma call_groq_chat_retries_witness :
  call_groq_chat Inputs.env_no_key Inputs.a_prompt SYSTEM_PROMPT Inputs.a_model
    Inputs.a_temperature 512 DEFAULT_TIMEOUT MAX_RETRIES []
  = (Raise (EnvironmentError "GROQ_API_KEY not set in environment."), [])
  /\ call_groq_chat Inputs.env_down Inputs.a_prompt SYSTEM_PROMPT Inputs.a_model
       Inputs.a_temperature 512 DEFAULT_TIMEOUT MAX_RETRIES []
     = (Raise (RuntimeError "GROQ call failed"),
        [] ++ attempts_trace
                (request_of Inputs.a_prompt SYSTEM_PROMPT Inputs.a_model
                   Inputs.a_temperature 512 DEFAULT_TIMEOUT) 1 3)
  /\ call_groq_chat Inputs.env_flaky Inputs.a_prompt SYSTEM_PROMPT Inputs.a_model
       Inputs.a_temperature 512 DEFAULT_TIMEOUT MAX_RETRIES []
     = (Ok Inputs.reply_value,
        [] ++ attempts_trace
                (request_of Inputs.a_prompt SYSTEM_PROMPT Inputs.a_model
                   Inputs.a_temperature 512 DEFAULT_TIMEOUT) 1 2).
Proof.
  split; [|split].
  - apply (proj1 (@call_groq_chat_retries Inputs.env_no_key Inputs.a_prompt
                    SYSTEM_PROMPT Inputs.a_model Inputs.a_temperature 512
                    DEFAULT_TIMEOUT MAX_RETRIES [])).
    reflexivity.
  - apply (proj1 (proj2 (@call_groq_chat_retries Inputs.env_down Inputs.a_prompt
                           SYSTEM_PROMPT Inputs.a_model Inputs.a_temperature 512
                           DEFAULT_TIMEOUT MAX_RETRIES [])
                    ltac:(discriminate) ltac:(vm_compute; discriminate))).
    intros i _. exists RequestError. reflexivity.
  - apply (proj2 (proj2 (@call_groq_chat_retries Inputs.env_flaky Inputs.a_prompt
                           SYSTEM_PROMPT Inputs.a_model Inputs.a_temperature 512
                           DEFAULT_TIMEOUT MAX_RETRIES [])
                    ltac:(discriminate) ltac:(vm_compute; discriminate))
             1 Inputs.reply_value).
    + vm_compute. lia.
    + intros i Hi. assert (i = 0) by lia. subst. exists RequestError. reflexivity.
    + vm_compute. reflexivity.
Defined.

End RetryClaims.

(** ** The keyword fallback *)
Section PrecedentFacts.
Import Py Json World Clauses Analyzer Props.

Lemma scored_ltb_true (x y : nat * str) :
  scored_ltb x y = true -> fst x <= fst y.
Proof.
  unfold scored_ltb. intros H. apply orb_true_iff in H.
  destruct H as [H|H].
  - apply Nat.ltb_lt in H. lia.
  - apply andb_true_iff in H. destruct H as [H _]. apply Nat.eqb_eq in H. lia.
Qed.

Lemma scored_ltb_false (x y : nat * str) :
  scored_ltb x y = false -> fst y <= fst x.
Proof.
  unfold scored_ltb. intros H. apply orb_false_iff in H.
  destruct H as [H _]. apply Nat.ltb_ge in H. exact H.
Qed.

Lemma insert_desc_perm (x : nat * str) (l : list (nat * str)) :
  Permutation (insert_desc x l) (x :: l).
Proof.
  induction l as [|y r IH]; simpl; auto.
  destruct (scored_ltb x y); auto.
  eapply perm_trans; [apply perm_skip, IH|apply perm_swap].
Qed.

Lemma sort_desc_perm (l : list (nat * str)) : Permutation (sort_desc l) l.
Proof.
  induction l as [|x r IH]; simpl; auto.
  eapply perm_trans; [apply insert_desc_perm|apply perm_skip, IH].
Qed.

Lemma insert_desc_hd (x y : nat * str) (l : list (nat * str)) :
  by_score y x -> HdRel by_score y l -> HdRel by_score y (insert_desc x l).
Proof.
  intros Hyx Hl. destruct l as [|z r]; simpl.
  - constructor. exact Hyx.
  - destruct (scored_ltb x z); constructor; auto.
    inversion Hl; auto.
Qed.

Lemma insert_desc_sorted (x : nat * str) (l : list (nat * str)) :
  Sorted by_score l -> Sorted by_score (insert_desc x l).
Proof.
  induction l as [|y r IH]; simpl; intros H.
  - repeat constructor.
  - inversion H; subst. destruct (scored_ltb x y) eqn:E.
    + constructor; auto. apply insert_desc_hd; auto.
      apply scored_ltb_true in E. exact E.
    + constructor; auto. constructor. apply scored_ltb_false in E. exact E.
Qed.

Lemma sort_desc_sorted (l : list (nat * str)) :
  StronglySorted by_score (sort_desc l).
Proof.
  apply Sorted_StronglySorted.
  - intros a b c Hab Hbc. unfold by_score in *. lia.
  - induction l as [|x r IH]; simpl; [constructor|].
    apply insert_desc_sorted, IH.
Qed.

Lemma In_firstn {A : Type} (n : nat) :
  forall (l : list A) (x : A), In x (firstn n l) -> In x l.
Proof.
  induction n as [|n IH]; intros l x H; simpl in H; [contradiction|].
  destruct l as [|y r]; [contradiction|].
  destruct H as [->|H]; [left; reflexivity|right; apply IH; exact H].
Qed.

Lemma StronglySorted_firstn {A : Type} (R : A -> A -> Prop) (n : nat) :
  forall l, StronglySorted R l -> StronglySorted R (firstn n l).
Proof.
  induction n as [|n IH]; intros l H; simpl; [constructor|].
  destruct l as [|x r]; [constructor|].
  apply StronglySorted_inv in H. destruct H as [Hr Hx]. constructor; auto.
  apply Forall_forall. intros y Hy. apply In_firstn in Hy.
  rewrite Forall_forall in Hx. auto.
Qed.

Lemma StronglySorted_filter {A : Type} (R : A -> A -> Prop) (p : A -> bool) :
  forall l, StronglySorted R l -> StronglySorted R (filter p l).
Proof.
  induction l as [|x r IH]; intros H; simpl; [constructor|].
  apply StronglySorted_inv in H. destruct H as [Hr Hx]. destruct (p x); auto.
  constructor; auto.
  apply Forall_forall. intros y Hy. apply filter_In in Hy.
  rewrite Forall_forall in Hx. apply Hx. tauto.
Qed.

Variable clause_text : str.

Lemma sorted_well_scored (ps : list str) :
  Forall (well_scored clause_text) (sort_desc (scored_of clause_text ps)).
Proof.
  apply Forall_forall. intros sp H.
  apply (Permutation_in _ (sort_desc_perm _)) in H.
  apply in_map_iff in H. destruct H as [p [<- _]]. reflexivity.
Qed.

Lemma sorted_from_corpus (ps : list str) (sp : nat * str) :
  In sp (sort_desc (scored_of clause_text ps)) -> In (snd sp) ps.
Proof.
  intros H. apply (Permutation_in _ (sort_desc_perm _)) in H.
  apply in_map_iff in H. destruct H as [p [<- Hp]]. exact Hp.
Qed.

Lemma map_snd_descending (l : list (nat * str)) :
  Forall (well_scored clause_text) l -> StronglySorted by_score l ->
  score_descending clause_text (map snd l).
Proof.
  unfold score_descending.
  induction l as [|x r IH]; intros Hw Hs; simpl; [constructor|].
  pose proof (Forall_inv Hw) as Hwx. pose proof (Forall_inv_tail Hw) as Hwr.
  apply StronglySorted_inv in Hs. destruct Hs as [Hsr Hsx].
  constructor; auto.
  apply Forall_forall. intros q Hq. apply in_map_iff in Hq.
  destruct Hq as [y [<- Hy]].
  rewrite Forall_forall in Hwr, Hsx.
  specialize (Hwr y Hy). specialize (Hsx y Hy).
  unfold well_scored, by_score in *. lia.
Qed.

Lemma hits_length (ps : list str) (k : nat) : length (hits_of clause_text ps k) <= k.
Proof.
  unfold hits_of. rewrite length_map.
  pose proof (filter_length_le (fun sp : nat * str => 0 <? fst sp)
                (firstn k (sort_desc (scored_of clause_text ps)))).
  pose proof (firstn_le_length k (sort_desc (scored_of clause_text ps))). lia.
Qed.

Lemma hits_incl (ps : list str) (k : nat) : incl (hits_of clause_text ps k) ps.
Proof.
  intros p Hp. unfold hits_of in Hp. apply in_map_iff in Hp.
  destruct Hp as [sp [<- Hsp]]. apply filter_In in Hsp. destruct Hsp as [Hsp _].
  apply In_firstn in Hsp. apply sorted_from_corpus. exact Hsp.
Qed.

Lemma hits_positive (ps : list str) (k : nat) :
  Forall (fun p => 0 < score clause_text p) (hits_of clause_text ps k).
Proof.
  apply Forall_forall. intros p Hp. unfold hits_of in Hp.
  apply in_map_iff in Hp. destruct Hp as [sp [<- Hsp]].
  apply filter_In in Hsp. destruct Hsp as [Hin Hpos].
  apply In_firstn in Hin.
  pose proof (sorted_well_scored ps) as Hw. rewrite Forall_forall in Hw.
  specialize (Hw sp Hin). unfold well_scored in Hw.
  apply Nat.ltb_lt in Hpos. lia.
Qed.

Lemma hits_descending (ps : list str) (k : nat) :
  score_descending clause_text (hits_of clause_text ps k).
Proof.
  unfold hits_of. apply map_snd_descending.
  - apply Forall_forall. intros sp Hsp. apply filter_In in Hsp.
    destruct Hsp as [Hin _]. apply In_firstn in Hin.
    pose proof (sorted_well_scored ps) as Hw. rewrite Forall_forall in Hw. auto.
  - apply StronglySorted_filter, StronglySorted_firstn, sort_desc_sorted.
Qed.

(** No reference scores above zero: nothing is selected. *)
Lemma hits_none (ps : list str) (k : nat) :
  (forall p, In p ps -> score clause_text p = 0) -> hits_of clause_text ps k = [].
Proof.
  intros Hz. pose proof (hits_positive ps k) as Hpos.
  destruct (hits_of clause_text ps k) as [|p r] eqn:E; [reflexivity|].
  pose proof (Forall_inv Hpos) as Hp. cbv beta in Hp.
  assert (Hin : In p ps) by (apply (@hits_incl ps k); rewrite E; left; reflexivity).
  specialize (Hz p Hin). lia.
Qed.

(** Some reference scores above zero: the best one is selected. *)
Lemma hits_some (ps : list str) (k : nat) (p : str) :
  In p ps -> 0 < score clause_text p -> hits_of clause_text ps (S k) <> [].
Proof.
  intros Hin Hpos. unfold hits_of.
  assert (Hp : In (score clause_text p, p) (sort_desc (scored_of clause_text ps))).
  { apply (Permutation_in _ (Permutation_sym (sort_desc_perm _))).
    apply in_map_iff. exists p. auto. }
  pose proof (sort_desc_sorted (scored_of clause_text ps)) as Hs.
  destruct (sort_desc (scored_of clause_text ps)) as [|top r]; [contradiction|].
  assert (Htop : 0 < fst top).
  { destruct Hp as [->|Hp]; [exact Hpos|].
    apply StronglySorted_inv in Hs. destruct Hs as [_ Hx].
    rewrite Forall_forall in Hx.
    specialize (Hx _ Hp). unfold by_score in Hx. simpl in Hx. lia. }
  cbn [firstn filter]. apply Nat.ltb_lt in Htop. rewrite Htop.
  simpl. discriminate.
Qed.

Lemma fallback_eq (E : env) (top_k : Z) (ps : list str) :
  clause_text <> [] -> (0 < top_k)%Z -> corpus_file E = Some ps ->
  _fallback_precedents E clause_text top_k
  = if nonempty (hits_of clause_text ps (Z.to_nat top_k)) then hits_of clause_text ps (Z.to_nat top_k)
    else firstn (Z.to_nat top_k) ps.
Proof.
  intros Hne Hk Hc. unfold _fallback_precedents.
  assert (Ht : truthy clause_text = true)
    by (destruct clause_text; [congruence|reflexivity]).
  rewrite Ht. cbn [negb].
  rewrite Hc. unfold take.
  assert (Hk' : (0 <=? top_k)%Z = true) by (apply Z.leb_le; lia).
  rewrite Hk'. reflexivity.
Qed.

End PrecedentFacts.

Section PrecedentClaims.
Import Py Json World Clauses Analyzer Props.

(** C8, as stated, fails on the empty clause text: the corpus of
    [env_no_key] is loaded, no reference scores above zero, and the
    resolver returns nothing instead of the first reference. *)
Lemma fallback_precedents_counterexample :
  corpus_file Inputs.env_no_key <> None
  /\ (forall p, score [] p = 0)
  /\ _fallback_precedents Inputs.env_no_key [] 1 = []
  /\ match corpus_file Inputs.env_no_key with
     | Some ps => take 1 ps <> []
     | None => False
     end.
Proof.
  split; [discriminate|]. split; [reflexivity|]. split; [reflexivity|].
  simpl. discriminate.
Qed.

(** C8, amended. For every non-empty clause text and every [top_k > 0]:
    when the corpus cannot be loaded the resolver returns nothing; when it
    is loaded, it returns at most [top_k] references of the corpus; if some
    reference scores above zero, the result is not empty, every returned
    reference scores above zero and they come in descending order of score;
    if none does, the result is the first [top_k] references of the corpus.
    (An empty clause text gives the empty sequence whatever the corpus.) *)
Theorem fallback_precedents_spec (E : env) (clause_text : str) (top_k : Z) :
  clause_text <> [] -> (0 < top_k)%Z ->
  let r := _fallback_precedents E clause_text top_k in
  (corpus_file E = None -> r = [])
  /\ (forall ps : list str,
         corpus_file E = Some ps ->
         (Z.of_nat (length r) <= top_k)%Z
         /\ incl r ps
         /\ ((exists p, In p ps /\ 0 < score clause_text p) ->
             r <> []
             /\ Forall (fun p => 0 < score clause_text p) r
             /\ score_descending clause_text r)
         /\ ((forall p, In p ps -> score clause_text p = 0) ->
             r = firstn (Z.to_nat top_k) ps)).
Proof.
  intros Hne Hk r. split.
  - intros Hc. unfold r, _fallback_precedents. rewrite Hc.
    destruct (negb (truthy clause_text)); reflexivity.
  - intros ps Hc.
    assert (Er : r = if nonempty (hits_of clause_text ps (Z.to_nat top_k))
                     then hits_of clause_text ps (Z.to_nat top_k)
                     else firstn (Z.to_nat top_k) ps)
      by (apply fallback_eq; assumption).
    split; [|split; [|split]].
    + rewrite Er.
      pose proof (hits_length clause_text ps (Z.to_nat top_k)).
      pose proof (firstn_le_length (Z.to_nat top_k) ps).
      destruct (nonempty (hits_of clause_text ps (Z.to_nat top_k))); lia.
    + rewrite Er.
      destruct (nonempty (hits_of clause_text ps (Z.to_nat top_k))).
      * apply hits_incl.
      * intros p Hp. apply In_firstn in Hp. exact Hp.
    + intros [p [Hin Hpos]].
      assert (Hsome : hits_of clause_text ps (Z.to_nat top_k) <> []).
      { replace (Z.to_nat top_k) with (S (Z.to_nat top_k - 1)) by lia.
        eapply hits_some; eauto. }
      assert (Er' : r = hits_of clause_text ps (Z.to_nat top_k)).
      { rewrite Er. destruct (hits_of clause_text ps (Z.to_nat top_k));
          [congruence|reflexivity]. }
      rewrite Er'. split; [exact Hsome|]. split.
      * apply hits_positive.
      * apply hits_descending.
    + intros Hz. rewrite Er. rewrite (@hits_none clause_text ps _ Hz).
      reflexivity.
Qed.

Lemma fallback_precedents_spec_witness :
  let r := _fallback_precedents Inputs.env_no_key
             (lit "Payment of the lease term is due") 2 in
  (corpus_file Inputs.env_no_key = None -> r = [])
  /\ (forall ps : list str,
         corpus_file Inputs.env_no_key = Some ps ->
         (Z.of_nat (length r) <= 2)%Z
         /\ incl r ps
         /\ ((exists p, In p ps
                        /\ 0 < score (lit "Payment of the lease term is due") p) ->
             r <> []
             /\ Forall (fun p => 0 < score (lit "Payment of the lease term is due") p) r
             /\ score_descending (lit "Payment of the lease term is due") r)
         /\ ((forall p, In p ps
                        -> score (lit "Payment of the lease term is due") p = 0) ->
             r = firstn (Z.to_nat 2) ps)).
Proof.
  apply (@fallback_precedents_spec Inputs.env_no_key
           (lit "Payment of the lease term is due") 2).
  - discriminate.
  - lia.
Defined.

(** C10. [CHROMA_AVAILABLE] is [False], so whatever the collection, the
    clause text and [top_k], [_query_precedents] returns what
    [_fallback_precedents] returns on the same clause text and [top_k]: the
    query of the similarity store is never made. *)
Theorem query_precedents_is_fallback (E : env) (coll : option collection)
  (clause_text : str) (top_k : Z) :
  CHROMA_AVAILABLE = false
  /\ _query_precedents E coll clause_text top_k
     = _fallback_precedents E clause_text top_k.
Proof.
  split; [reflexivity|].
  unfold _query_precedents, CHROMA_AVAILABLE. reflexivity.
Qed.

End PrecedentClaims.

(** ** The analysis loop *)
Section AnalyzerFacts.
Import Py Json World Clauses GroqClient Analyzer Props.

(** *** The segmenter never raises when [max_len] is not zero *)

Lemma chunk_loop_total (max_len : Z) (sentences : list str) :
  max_len <> 0%Z ->
  forall chunks current cur_len,
    exists out, chunk_loop max_len sentences chunks current cur_len = Ok out.
Proof.
  intros Hm. induction sentences as [|s rest IH]; intros chunks current cur_len.
  - eexists. reflexivity.
  - cbn [chunk_loop].
    destruct (cur_len + len s <=? max_len)%Z; [apply IH|].
    destruct (len s >? max_len)%Z; [|apply IH].
    unfold force_split.
    destruct (max_len =? 0)%Z eqn:E0; [apply Z.eqb_eq in E0; contradiction|].
    destruct (max_len <? 0)%Z; cbn [bind]; apply IH.
Qed.

Lemma parts_loop_total (min_len max_len : Z) (debug : bool) (parts : list part) :
  max_len <> 0%Z ->
  forall st, exists st', parts_loop min_len max_len debug parts st = Ok st'.
Proof.
  intros Hm. induction parts as [|[[pt si] ei] r IH]; intros st.
  - eexists. reflexivity.
  - cbn [parts_loop]. unfold _chunk_long_clause.
    destruct (len pt <=? max_len)%Z; cbn [bind]; [apply IH|].
    destruct (@chunk_loop_total max_len (Re.split_sentences pt) Hm [] [] 0%Z)
      as [out ->].
    cbn [bind]. apply IH.
Qed.

Lemma split_into_clauses_total (text : str) (min_len max_len : Z) (debug : bool) :
  max_len <> 0%Z ->
  exists cs, split_into_clauses text min_len max_len debug = Ok cs.
Proof.
  intros Hm. unfold split_into_clauses.
  destruct (negb (truthy (_normalize_whitespace text))); [eexists; reflexivity|].
  destruct (@parts_loop_total min_len max_len debug
              (parts_of (_normalize_whitespace text)) Hm ([], 0)) as [st ->].
  cbn [bind]. eexists. reflexivity.
Qed.

(** *** The trace file is touched by [_log_trace] only *)

Lemma traces_app (w1 w2 : world) : traces (w1 ++ w2) = traces w1 ++ traces w2.
Proof. unfold traces. apply flat_map_app. Qed.

Lemma retry_loop_traces (E : env) (req : request) (max_retries : Z)
  (attempts : list Z) :
  forall w r w',
    retry_loop E req max_retries attempts w = (r, w') -> traces w' = traces w.
Proof.
  induction attempts as [|a rest IH]; intros w r w'.
  - cbn [retry_loop]. unfold raise. intros H. inversion H. reflexivity.
  - cbn [retry_loop]. unfold try_except at 1. rewrite attempt_once_eq.
    destruct (attempt_reply E (count is_post w) req) as [parsed|e].
    + intros H. inversion H. rewrite traces_app. apply app_nil_r.
    + unfold mbind at 1.
      destruct (a <=? max_retries)%Z.
      * unfold emit at 1. intros H. apply IH in H. rewrite H.
        rewrite !traces_app. cbn. rewrite !app_nil_r. reflexivity.
      * unfold ret at 1. intros H. apply IH in H. rewrite H.
        rewrite traces_app. apply app_nil_r.
Qed.

Lemma call_groq_chat_traces (E : env)
  (user_prompt system_prompt model temperature : str)
  (max_tokens timeout max_retries : Z) (w : world) (r : result json) (w' : world) :
  call_groq_chat E user_prompt system_prompt model temperature max_tokens
    timeout max_retries w = (r, w') ->
  traces w' = traces w.
Proof.
  unfold call_groq_chat. destruct (negb (truthy (GROQ_API_KEY E))).
  - unfold raise. intros H. inversion H. reflexivity.
  - apply retry_loop_traces.
Qed.

(** When every request fails, so does the call. *)
Lemma retry_loop_raises (E : env) (req : request) (max_retries : Z)
  (attempts : list Z) :
  (forall n, fails (attempt_reply E n req)) ->
  forall w, exists e w',
    retry_loop E req max_retries attempts w = (Raise e, w').
Proof.
  intros Hf. induction attempts as [|a rest IH]; intros w.
  - cbn [retry_loop]. unfold raise. eauto.
  - cbn [retry_loop]. unfold try_except at 1. rewrite attempt_once_eq.
    destruct (Hf (count is_post w)) as [e ->].
    unfold mbind at 1.
    destruct (a <=? max_retries)%Z; [unfold emit at 1|unfold ret at 1]; apply IH.
Qed.

Lemma model_fails_when_requests_fail (E : env) (temperature : str)
  (max_tokens : Z) :
  (forall n req, fails (attempt_reply E n req)) ->
  model_always_fails E temperature max_tokens.
Proof.
  intros Hf user_prompt w. unfold call_groq_chat.
  destruct (negb (truthy (GROQ_API_KEY E))).
  - unfold raise. eauto.
  - apply retry_loop_raises. intros n. apply Hf.
Qed.

Variable E : env.
Variable coll : option collection.
Variable top_k : Z.
Variable temperature : str.
Variable max_tokens : Z.

(** One clause: a result for this clause, at most one trace entry, for this
    clause, and the degraded analysis when the model call raises. *)
Lemma analyze_clause_spec (cid : nat) (clause_text : str) (w : world) :
  exists obj w',
    analyze_clause E coll top_k temperature max_tokens cid clause_text w
    = (Ok obj, w')
    /\ res_clause_id obj = cid
    /\ res_clause obj = clause_text
    /\ (exists new, traces w' = traces w ++ new
                    /\ length new <= 1
                    /\ Forall (fun t => tr_clause_id t = cid) new)
    /\ (model_always_fails E temperature max_tokens ->
        res_analysis obj = llm_error_result).
Proof.
  unfold analyze_clause.
  unfold mbind at 1. unfold now at 1.
  unfold mbind at 1. unfold try_except at 1. unfold mbind at 1.
  destruct (call_groq_chat E (prompt_of clause_text) SYSTEM_PROMPT (GROQ_MODEL E)
              temperature max_tokens DEFAULT_TIMEOUT MAX_RETRIES (w ++ [EvNow]))
    as [[parsed|e] w2] eqn:Ecall.
  - unfold ret at 1. unfold mbind at 1. unfold _log_trace at 1.
    pose proof (call_groq_chat_traces _ _ _ _ _ _ _ _ _ Ecall) as Htr.
    rewrite traces_app in Htr. cbn in Htr. rewrite app_nil_r in Htr.
    destruct (trace_writable E (count is_trace_attempt w2)); unfold ret;
      eexists; eexists; (split; [reflexivity|]);
      (split; [reflexivity|]); (split; [reflexivity|]); split.
    + eexists. rewrite traces_app, Htr. split; [reflexivity|].
      split; [cbn; lia|]. repeat constructor.
    + intros Hfail. destruct (Hfail (prompt_of clause_text) (w ++ [EvNow]))
        as [e [w3 He]].
      rewrite Ecall in He. discriminate.
    + exists []. rewrite traces_app, Htr. cbn. split; [reflexivity|].
      split; [lia|constructor].
    + intros Hfail. destruct (Hfail (prompt_of clause_text) (w ++ [EvNow]))
        as [e [w3 He]].
      rewrite Ecall in He. discriminate.
  - unfold ret at 1. unfold mbind at 1. unfold _log_trace at 1.
    pose proof (call_groq_chat_traces _ _ _ _ _ _ _ _ _ Ecall) as Htr.
    rewrite traces_app in Htr. cbn in Htr. rewrite app_nil_r in Htr.
    destruct (trace_writable E (count is_trace_attempt w2)); unfold ret;
      eexists; eexists; (split; [reflexivity|]);
      (split; [reflexivity|]); (split; [reflexivity|]); split.
    + eexists. rewrite traces_app, Htr. split; [reflexivity|].
      split; [cbn; lia|]. repeat constructor.
    + intros _. reflexivity.
    + exists []. rewrite traces_app, Htr. cbn. split; [reflexivity|].
      split; [lia|constructor].
    + intros _. reflexivity.
Qed.

(** The loop: one result per eligible clause, in order, and no trace entry
    for any other clause. *)
Lemma analyze_loop_spec (clauses : list clause) :
  forall (results : list analysis_obj) (w : world),
    exists out w',
      analyze_loop E coll top_k temperature max_tokens clauses results w
      = (Ok (results ++ out), w')
      /\ map result_key out = map clause_key (filter eligible clauses)
      /\ (exists new,
             traces w' = traces w ++ new
             /\ length new <= length out
             /\ Forall (fun t => exists c, In c clauses
                                           /\ tr_clause_id t = clause_id c) new)
      /\ (model_always_fails E temperature max_tokens ->
          Forall (fun r => res_analysis r = llm_error_result) out).
Proof.
  induction clauses as [|cl rest IH]; intros results w.
  - exists [], w. cbn [analyze_loop]. unfold ret. rewrite app_nil_r.
    split; [reflexivity|]. split; [reflexivity|]. split.
    + exists []. rewrite app_nil_r. repeat split; auto.
    + intros _. constructor.
  - cbn [analyze_loop filter]. unfold eligible at 1.
    destruct (truthy (strip (clause_text cl))) eqn:Et; cbn [negb].
    + unfold mbind at 1.
      destruct (analyze_clause_spec (clause_id cl) (strip (clause_text cl)) w)
        as [obj [w1 [Erun [Hid [Htext [[new1 [Htr1 [Hlen1 Hall1]]] Hdeg1]]]]]].
      rewrite Erun.
      destruct (IH (results ++ [obj]) w1)
        as [out [w2 [Eloop [Hkeys [[new2 [Htr2 [Hlen2 Hall2]]] Hdeg2]]]]].
      exists (obj :: out), w2. split; [|split; [|split]].
      * rewrite Eloop. rewrite <- app_assoc. reflexivity.
      * cbn [map]. rewrite Hkeys. unfold result_key at 1, clause_key at 2.
        rewrite Hid, Htext. reflexivity.
      * exists (new1 ++ new2). rewrite Htr2, Htr1, app_assoc.
        split; [reflexivity|]. split; [rewrite length_app; cbn; lia|].
        apply Forall_app. split.
        -- eapply Forall_impl; [|exact Hall1]. intros t Ht.
           exists cl. split; [left; reflexivity|exact Ht].
        -- eapply Forall_impl; [|exact Hall2]. intros t [c [Hc Ht]].
           exists c. split; [right; exact Hc|exact Ht].
      * intros Hfail. constructor; auto.
    + destruct (IH results w)
        as [out [w2 [Eloop [Hkeys [[new2 [Htr2 [Hlen2 Hall2]]] Hdeg2]]]]].
      exists out, w2. split; [exact Eloop|]. split; [exact Hkeys|]. split.
      * exists new2. split; [exact Htr2|]. split; [exact Hlen2|].
        eapply Forall_impl; [|exact Hall2]. intros t [c [Hc Ht]].
        exists c. split; [right; exact Hc|exact Ht].
      * exact Hdeg2.
Qed.

End AnalyzerFacts.

Section AnalyzerRun.
Import Py Json World Clauses GroqClient Analyzer Props.

(** The whole run, in terms of the clauses the loop goes through. *)
Lemma analyze_document_text_spec (E : env) (text : str)
  (max_clauses : option Z) (top_k max_tokens : Z) (temperature : str)
  (w : world) :
  exists cs results w',
    split_into_clauses_default text = Ok cs
    /\ analyze_document_text E text max_clauses top_k max_tokens temperature w
       = (Ok results, w')
    /\ map result_key results
       = map clause_key (filter eligible (processed max_clauses cs))
    /\ (exists new,
           traces w' = traces w ++ new
           /\ length new <= length results
           /\ Forall (fun t => exists c, In c (processed max_clauses cs)
                                         /\ tr_clause_id t = clause_id c) new)
    /\ (model_always_fails E temperature max_tokens ->
        Forall (fun r => res_analysis r = llm_error_result) results).
Proof.
  destruct (@split_into_clauses_total text DEFAULT_MIN_LEN DEFAULT_MAX_LEN false)
    as [cs Hcs]; [discriminate|].
  exists cs. unfold analyze_document_text, split_into_clauses_default.
  unfold mbind at 1, lift at 1. rewrite Hcs.
  destruct cs as [|c0 cs'].
  - cbn [nonempty negb]. unfold ret. exists [], w.
    split; [reflexivity|]. split; [reflexivity|]. split.
    + destruct max_clauses as [k|]; [|reflexivity].
      unfold processed, take. destruct (0 <=? k)%Z;
        rewrite firstn_nil; reflexivity.
    + split; [|intros _; constructor].
      exists []. rewrite app_nil_r. repeat split; auto.
  - cbn [nonempty negb].
    destruct (@analyze_loop_spec E (setup_collection E) top_k temperature
                max_tokens (processed max_clauses (c0 :: cs')) [] w)
      as [out [w2 [Eloop [Hkeys [Htr Hdeg]]]]].
    exists out, w2. split; [reflexivity|].
    split; [exact Eloop|]. split; [exact Hkeys|]. split; [exact Htr|exact Hdeg].
Qed.

End AnalyzerRun.

Section AnalyzerClaims.
Import Py Json World Clauses GroqClient Analyzer Props.

Lemma NoDup_app_disjoint {A : Type} (l1 l2 : list A) (x : A) :
  NoDup (l1 ++ l2) -> In x l1 -> In x l2 -> False.
Proof.
  induction l1 as [|y r IH]; simpl; intros Hnd H1 H2; [contradiction|].
  inversion Hnd as [|? ? Hy Hr]; subst.
  destruct H1 as [->|H1].
  - apply Hy. apply in_or_app. right. exact H2.
  - apply IH; assumption.
Qed.

Lemma processed_nonneg (m : Z) (cs : list clause) :
  (0 <= m)%Z -> processed (Some m) cs = firstn (Z.to_nat m) cs.
Proof.
  intros Hm. unfold processed, take.
  destruct (0 <=? m)%Z eqn:E; [reflexivity|]. apply Z.leb_gt in E. lia.
Qed.

Lemma llm_error_result_degraded (r : analysis_obj) :
  res_analysis r = llm_error_result -> degraded r.
Proof.
  intros H. unfold degraded. rewrite H. unfold llm_error_result.
  split; [reflexivity|]. eexists. eexists. reflexivity.
Qed.

(** C3, as stated, fails: [doc_21_paragraphs] gives 21 clauses whose
    trimmed text is not empty and, with the default [max_clauses] of 20 and
    a model client that always raises, the analysis returns 20 results. *)
Lemma analyze_document_text_counterexample :
  model_always_fails Inputs.env_no_key Inputs.a_temperature 512
  /\ count_eligible (split_into_clauses_default Inputs.doc_21_paragraphs) = 21
  /\ count_results
       (analyze_document_text Inputs.env_no_key Inputs.doc_21_paragraphs
          DEFAULT_MAX_CLAUSES DEFAULT_TOP_K 512 Inputs.a_temperature [])
     = 20.
Proof.
  split; [|split].
  - intros user_prompt w. eexists. eexists. reflexivity.
  - vm_compute. reflexivity.
  - vm_compute. reflexivity.
Qed.

(** C3, amended. When every call of the model client raises, the analysis
    of any document returns, without raising, exactly one result per clause
    whose trimmed text is not empty among the clauses it goes through, which
    are the first [max_clauses] clauses of the segmentation (all of them
    when [max_clauses] is [None]); the results come in the order of the
    clauses, each with the id and the trimmed text of its clause, risk score
    0 and a non-empty list of reasons. *)
Theorem analyze_document_text_resilient (E : env) (text : str)
  (max_clauses : option Z) (top_k max_tokens : Z) (temperature : str)
  (w : world) :
  model_always_fails E temperature max_tokens ->
  exists cs results w',
    split_into_clauses_default text = Ok cs
    /\ analyze_document_text E text max_clauses top_k max_tokens temperature w
       = (Ok results, w')
    /\ map result_key results
       = map clause_key (filter eligible (processed max_clauses cs))
    /\ Forall degraded results.
Proof.
  intros Hfail.
  destruct (analyze_document_text_spec E text max_clauses top_k max_tokens
              temperature w)
    as [cs [results [w' [Hcs [Hrun [Hkeys [_ Hdeg]]]]]]].
  exists cs, results, w'. repeat split; auto.
  eapply Forall_impl; [|exact (Hdeg Hfail)].
  intros r. apply llm_error_result_degraded.
Qed.

Lemma analyze_document_text_resilient_witness :
  exists cs results w',
    split_into_clauses_default Inputs.doc_21_paragraphs = Ok cs
    /\ analyze_document_text Inputs.env_no_key Inputs.doc_21_paragraphs
         DEFAULT_MAX_CLAUSES DEFAULT_TOP_K 512 Inputs.a_temperature []
       = (Ok results, w')
    /\ map result_key results
       = map clause_key (filter eligible (processed DEFAULT_MAX_CLAUSES cs))
    /\ Forall degraded results.
Proof.
  apply (@analyze_document_text_resilient Inputs.env_no_key
           Inputs.doc_21_paragraphs DEFAULT_MAX_CLAUSES DEFAULT_TOP_K 512
           Inputs.a_temperature []).
  intros user_prompt w. eexists. eexists. reflexivity.
Defined.

(** C9, as stated, fails for a negative [max_clauses]:
    [doc_21_paragraphs] gives 21 clauses with a non-empty trimmed text,
    more than [-1], and with [max_clauses = -1] the analysis goes through
    [clauses[:-1]], all the clauses but the last: it returns 20 results and
    writes 20 trace entries, where at most [-1], that is none, were
    announced. *)
Lemma analyze_document_text_max_clauses_counterexample :
  count_eligible (split_into_clauses_default Inputs.doc_21_paragraphs) = 21
  /\ count_results
       (analyze_document_text Inputs.env_no_key Inputs.doc_21_paragraphs
          (Some (-1)%Z) DEFAULT_TOP_K 512 Inputs.a_temperature [])
     = 20
  /\ length
       (traces
          (snd (analyze_document_text Inputs.env_no_key
                  Inputs.doc_21_paragraphs (Some (-1)%Z) DEFAULT_TOP_K 512
                  Inputs.a_temperature [])))
     = 20
  /\ ~ (Z.of_nat 20 <= -1)%Z.
Proof.
  split; [|split; [|split]].
  - vm_compute. reflexivity.
  - vm_compute. reflexivity.
  - vm_compute. reflexivity.
  - lia.
Qed.

(** C9, amended. With [max_clauses = m >= 0], the analysis of any document returns
    at most [m] results and appends at most [m] trace entries: the results
    are those of the clauses with a non-empty trimmed text among the first
    [m] clauses of the segmentation, and no result and no trace entry
    carries the id of a clause beyond the first [m]. The default of
    [max_clauses] is 20. *)
Theorem analyze_document_text_max_clauses (E : env) (text : str) (m : Z)
  (top_k max_tokens : Z) (temperature : str) (w : world) :
  (0 <= m)%Z ->
  DEFAULT_MAX_CLAUSES = Some 20%Z
  /\ exists cs results w' new,
       split_into_clauses_default text = Ok cs
       /\ analyze_document_text E text (Some m) top_k max_tokens temperature w
          = (Ok results, w')
       /\ traces w' = traces w ++ new
       /\ (Z.of_nat (length results) <= m)%Z
       /\ (Z.of_nat (length new) <= m)%Z
       /\ map result_key results
          = map clause_key (filter eligible (firstn (Z.to_nat m) cs))
       /\ (forall c, In c (skipn (Z.to_nat m) cs) ->
           (forall r, In r results -> res_clause_id r <> clause_id c)
           /\ (forall t, In t new -> tr_clause_id t <> clause_id c)).
Proof.
  intros Hm. split; [reflexivity|].
  destruct (analyze_document_text_spec E text (Some m) top_k max_tokens
              temperature w)
    as [cs [results [w' [Hcs [Hrun [Hkeys [[new [Htr [Hlen Hall]]] _]]]]]]].
  rewrite processed_nonneg in Hkeys, Hall by exact Hm.
  assert (Hres : length results <= Z.to_nat m).
  { rewrite <- (length_map result_key), Hkeys, length_map.
    pose proof (filter_length_le eligible (firstn (Z.to_nat m) cs)).
    pose proof (firstn_le_length (Z.to_nat m) cs). lia. }
  exists cs, results, w', new.
  split; [exact Hcs|]. split; [exact Hrun|]. split; [exact Htr|].
  split; [lia|]. split; [lia|]. split; [exact Hkeys|].
  intros c Hc.
  assert (Hnd : NoDup (map clause_id (firstn (Z.to_nat m) cs)
                       ++ map clause_id (skipn (Z.to_nat m) cs))).
  { rewrite <- map_app, firstn_skipn.
    eapply split_into_clauses_ids_distinct. exact Hcs. }
  assert (Hcid : In (clause_id c) (map clause_id (skipn (Z.to_nat m) cs)))
    by (apply in_map; exact Hc).
  split.
  - intros r Hr Heq.
    assert (Hk : In (result_key r)
                    (map clause_key (filter eligible (firstn (Z.to_nat m) cs))))
      by (rewrite <- Hkeys; apply in_map; exact Hr).
    apply in_map_iff in Hk. destruct Hk as [c' [Hkey Hc']].
    apply filter_In in Hc'. destruct Hc' as [Hc' _].
    unfold result_key, clause_key in Hkey. injection Hkey as Hid _.
    apply (NoDup_app_disjoint _ _ (clause_id c) Hnd); [|exact Hcid].
    rewrite <- Heq, <- Hid. apply in_map. exact Hc'.
  - intros t Ht Heq. rewrite Forall_forall in Hall.
    destruct (Hall t Ht) as [c' [Hc' Hid]].
    apply (NoDup_app_disjoint _ _ (clause_id c) Hnd); [|exact Hcid].
    rewrite <- Heq, Hid. apply in_map. exact Hc'.
Qed.

Lemma analyze_document_text_max_clauses_witness :
  DEFAULT_MAX_CLAUSES = Some 20%Z
  /\ exists cs results w' new,
       split_into_clauses_default Inputs.doc_21_paragraphs = Ok cs
       /\ analyze_document_text Inputs.env_down Inputs.doc_21_paragraphs
            (Some 20%Z) DEFAULT_TOP_K 512 Inputs.a_temperature []
          = (Ok results, w')
       /\ traces w' = traces [] ++ new
       /\ (Z.of_nat (length results) <= 20)%Z
       /\ (Z.of_nat (length new) <= 20)%Z
       /\ map result_key results
          = map clause_key (filter eligible (firstn (Z.to_nat 20) cs))
       /\ (forall c, In c (skipn (Z.to_nat 20) cs) ->
           (forall r, In r results -> res_clause_id r <> clause_id c)
           /\ (forall t, In t new -> tr_clause_id t <> clause_id c)).
Proof.
  apply (@analyze_document_text_max_clauses Inputs.env_down
           Inputs.doc_21_paragraphs 20 DEFAULT_TOP_K 512 Inputs.a_temperature []).
  lia.
Defined.

End AnalyzerClaims.

(** * Further properties *)

(** ** The segmenter: ids and flags *)
Section ClauseShape.
Import Py Clauses Props MoreProps.

Lemma tl_update_last {A : Type} (f : A -> A) (l : list A) :
  tl (update_last f l) = update_last f (tl l).
Proof. destruct l as [|x [|y r]]; reflexivity. Qed.

Lemma merge_fragment_flag_ok (min_len : Z) (c : str) (prev : clause) :
  flag_ok min_len prev -> flag_ok min_len (merge_fragment min_len c prev).
Proof.
  intros [_ Hlen]. unfold flag_ok. cbn [merge_fragment clause_too_short
    clause_text clause_length]. split; [reflexivity|].
  rewrite length_app. lia.
Qed.

Lemma merge_fragment_long (min_len : Z) (c : str) (prev : clause) :
  long_enough min_len prev -> long_enough min_len (merge_fragment min_len c prev).
Proof.
  intros [_ Hlen]. unfold long_enough. cbn [merge_fragment clause_too_short
    clause_text].
  assert (H : (min_len <= len (clause_text prev ++ [Re.nl; Re.nl] ++ c))%Z).
  { unfold len in *. rewrite length_app. lia. }
  split; [apply Z.ltb_ge; exact H|exact H].
Qed.

Lemma add_chunk_inv (min_len : Z) (debug : bool) (si ei : nat)
  (st : loop_state) (c0 : str) :
  loop_inv min_len st -> loop_inv min_len (add_chunk min_len debug si ei st c0).
Proof.
  intros [Hnum [Hflag Hlong]]. split; [apply add_chunk_numbered; exact Hnum|].
  destruct st as [clauses cid]. unfold add_chunk. cbn [fst snd] in *.
  destruct ((len (strip c0) <? min_len)%Z && nonempty clauses) eqn:E;
    cbn [fst].
  - split.
    + apply update_last_Forall; [|exact Hflag].
      intros y. apply merge_fragment_flag_ok.
    + rewrite tl_update_last. apply update_last_Forall; [|exact Hlong].
      intros y. apply merge_fragment_long.
  - split.
    + apply Forall_app. split; [exact Hflag|].
      constructor; [|constructor]. split; cbn; [reflexivity|lia].
    + destruct clauses as [|x r]; [constructor|].
      cbn [app tl]. apply Forall_app. split; [exact Hlong|].
      cbn [nonempty] in E. rewrite andb_true_r in E.
      constructor; [|constructor]. split; cbn; [exact E|].
      apply Z.ltb_ge. exact E.
Qed.

Lemma fold_add_chunk_inv (min_len : Z) (debug : bool) (si ei : nat)
  (chunks : list str) :
  forall st, loop_inv min_len st ->
    loop_inv min_len (fold_left (add_chunk min_len debug si ei) chunks st).
Proof.
  induction chunks as [|c r IH]; intros st H; cbn [fold_left]; auto.
  apply IH, add_chunk_inv, H.
Qed.

Lemma parts_loop_inv (min_len max_len : Z) (debug : bool) (parts : list part) :
  forall st st', loop_inv min_len st ->
    parts_loop min_len max_len debug parts st = Ok st' -> loop_inv min_len st'.
Proof.
  induction parts as [|[[pt si] ei] r IH]; intros st st' Hst; cbn [parts_loop].
  - intros H. inversion H; subst. exact Hst.
  - destruct (_chunk_long_clause pt max_len) as [chunks|e]; cbn [bind];
      [|discriminate].
    apply IH, fold_add_chunk_inv, Hst.
Qed.

(** What is returned is the list built by the main loop, or that list
    without its first clause. *)
Lemma final_pass_shape (min_len : Z) (x : clause) (r : list clause) :
  Forall (long_enough min_len) r ->
  final_pass min_len (x :: r) = x :: r
  \/ (final_pass min_len (x :: r) = r /\ clause_too_short x = true /\ r <> []).
Proof.
  intros Hlong. unfold final_pass.
  destruct (1 <? length (x :: r)) eqn:E; [|left; reflexivity].
  assert (Hr : filter (fun c => negb (clause_too_short c
                 && (Z.of_nat (clause_length c) <? min_len)%Z)) r = r).
  { clear E. induction r as [|y r IH]; [reflexivity|].
    pose proof (Forall_inv Hlong) as [Hy _].
    cbn [filter]. rewrite Hy. cbn [andb negb]. f_equal.
    apply IH. exact (Forall_inv_tail Hlong). }
  cbn [filter]. rewrite Hr.
  destruct (clause_too_short x) eqn:Ex; cbn [andb negb].
  - destruct (Z.of_nat (clause_length x) <? min_len)%Z; cbn [negb];
      [|left; reflexivity].
    right. split; [reflexivity|]. split; [reflexivity|].
    destruct r; [discriminate|discriminate].
  - left. reflexivity.
Qed.

Lemma split_into_clauses_built (doc : str) (min_len max_len : Z) (debug : bool)
  (cs : list clause) :
  split_into_clauses doc min_len max_len debug = Ok cs ->
  exists st, loop_inv min_len st /\ cs = final_pass min_len (fst st).
Proof.
  unfold split_into_clauses.
  destruct (negb (truthy (_normalize_whitespace doc))).
  - intros H. inversion H. exists ([], 0). split; [|reflexivity].
    split; [reflexivity|]. split; constructor.
  - destruct (parts_loop min_len max_len debug
                (parts_of (_normalize_whitespace doc)) ([], 0)) as [st|e] eqn:E;
      cbn [bind]; [|discriminate].
    intros H. inversion H; subst. exists st. split; [|reflexivity].
    eapply parts_loop_inv; [|exact E].
    split; [reflexivity|]. split; constructor.
Qed.

(** X6. The returned ids are consecutive and begin at 0 or, when the final pass
    has removed the first clause, at 1. *)
Theorem split_into_clauses_ids_consecutive (doc : str) (min_len max_len : Z)
  (debug : bool) (cs : list clause) :
  split_into_clauses doc min_len max_len debug = Ok cs ->
  map clause_id cs = seq 0 (length cs) \/ map clause_id cs = seq 1 (length cs).
Proof.
  intros H. destruct (split_into_clauses_built _ _ _ _ H)
    as [[clauses cid] [[Hnum [_ Hlong]] ->]].
  unfold numbered in Hnum. cbn [fst snd] in *.
  assert (Hcid : cid = length clauses).
  { rewrite <- (length_map clause_id), Hnum, length_seq. reflexivity. }
  subst cid.
  destruct clauses as [|x r]; [left; reflexivity|].
  cbn [tl] in Hlong.
  destruct (final_pass_shape x Hlong) as [->|[-> _]].
  - left. exact Hnum.
  - right. cbn [map length seq] in Hnum. injection Hnum as _ Hr.
    rewrite <- seq_shift in Hr. rewrite <- seq_shift. exact Hr.
Qed.

Lemma split_into_clauses_ids_consecutive_witness :
  map clause_id Inputs.clauses_merge_over
  = seq 0 (length Inputs.clauses_merge_over)
  \/ map clause_id Inputs.clauses_merge_over
     = seq 1 (length Inputs.clauses_merge_over).
Proof.
  apply (@split_into_clauses_ids_consecutive Inputs.doc_merge_over 10 21 false).
  vm_compute. reflexivity.
Defined.

(** X7. Every returned clause is flagged [too_short] exactly when its text is
    shorter than [min_len]; every clause after the first is unflagged and
    at least [min_len] long; and so is the first one when more than one
    clause is returned. *)
Theorem split_into_clauses_flags (doc : str) (min_len max_len : Z)
  (debug : bool) (cs : list clause) :
  split_into_clauses doc min_len max_len debug = Ok cs ->
  Forall (fun c => clause_too_short c = (len (clause_text c) <? min_len)%Z) cs
  /\ Forall (long_enough min_len) (tl cs)
  /\ (2 <= length cs -> Forall (long_enough min_len) cs).
Proof.
  intros H. destruct (split_into_clauses_built _ _ _ _ H)
    as [[clauses cid] [[_ [Hflag Hlong]] ->]].
  cbn [fst] in *.
  destruct clauses as [|x r]; [repeat split; constructor|].
  assert (Hall : forall l, Forall (long_enough min_len) l
                 -> Forall (fun c => clause_too_short c
                                     = (len (clause_text c) <? min_len)%Z) l).
  { intros l Hl. eapply Forall_impl; [|exact Hl]. intros c [Hs Hm]. rewrite Hs.
    symmetry. apply Z.ltb_ge. exact Hm. }
  cbn [tl] in Hlong.
  pose proof (Forall_inv Hflag) as [Hfx Hlx].
  unfold final_pass.
  assert (Hr : filter (fun c => negb (clause_too_short c
                 && (Z.of_nat (clause_length c) <? min_len)%Z)) r = r).
  { clear -Hlong. induction r as [|y r IH]; [reflexivity|].
    pose proof (Forall_inv Hlong) as [Hy _].
    cbn [filter]. rewrite Hy. cbn [andb negb]. f_equal.
    apply IH. exact (Forall_inv_tail Hlong). }
  assert (Hdrop : clause_too_short x = true ->
                  (Z.of_nat (clause_length x) <? min_len)%Z = true).
  { intros Ex. rewrite Ex in Hfx. symmetry in Hfx. apply Z.ltb_lt in Hfx.
    apply Z.ltb_lt. unfold len in Hfx. lia. }
  assert (Hkeep : clause_too_short x = false -> long_enough min_len x).
  { intros Ex. split; [exact Ex|]. rewrite Ex in Hfx. symmetry in Hfx.
    apply Z.ltb_ge in Hfx. exact Hfx. }
  destruct (1 <? length (x :: r)) eqn:E.
  - cbn [filter]. rewrite Hr.
    destruct (clause_too_short x) eqn:Ex.
    + rewrite (Hdrop eq_refl). cbn [andb negb].
      split; [apply Hall; exact Hlong|]. split; [|intros _; exact Hlong].
      destruct r; [constructor|]. exact (Forall_inv_tail Hlong).
    + cbn [andb negb]. split; [|split].
      * eapply Forall_impl; [|exact Hflag]. intros c [Hc _]. exact Hc.
      * exact Hlong.
      * intros _. constructor; [apply Hkeep; reflexivity|exact Hlong].
  - apply Nat.ltb_ge in E. split; [|split].
    + eapply Forall_impl; [|exact Hflag]. intros c [Hc _]. exact Hc.
    + exact Hlong.
    + intros Hlen. lia.
Qed.

Lemma split_into_clauses_flags_witness :
  Forall (fun c => clause_too_short c = (len (clause_text c) <? 10)%Z)
         Inputs.clauses_merge_over
  /\ Forall (long_enough 10) (tl Inputs.clauses_merge_over)
  /\ (2 <= length Inputs.clauses_merge_over
      -> Forall (long_enough 10) Inputs.clauses_merge_over).
Proof.
  apply (@split_into_clauses_flags Inputs.doc_merge_over 10 21 false).
  vm_compute. reflexivity.
Defined.

End ClauseShape.

(** ** Normalisation of white space *)
Section NormalizeFacts.
Import Py Clauses Props MoreProps.

Lemma is_code_eq (n : N) (c : ascii) :
  (n < 256)%N -> is_code n c = true -> c = chr n.
Proof.
  intros Hn H. unfold is_code, ord in H. apply N.eqb_eq in H.
  unfold chr. rewrite <- H. symmetry. apply ascii_N_embedding.
Qed.

Lemma nl_isspace (c : ascii) : Re.is_nl c = true -> isspace c = true.
Proof.
  intros H. apply is_code_eq in H; [|reflexivity]. subst. reflexivity.
Qed.

Lemma cr_isspace (c : ascii) : Re.is_cr c = true -> isspace c = true.
Proof.
  intros H. apply is_code_eq in H; [|reflexivity]. subst. reflexivity.
Qed.

Lemma blank_isspace (c : ascii) : Re.is_blank c = true -> isspace c = true.
Proof.
  unfold Re.is_blank. intros H. apply orb_true_iff in H.
  destruct H as [H|H]; apply is_code_eq in H; try reflexivity; subst; reflexivity.
Qed.

Lemma nonspace_app (a b : str) : nonspace (a ++ b) = nonspace a ++ nonspace b.
Proof. apply filter_app. Qed.

Lemma nonspace_cons_space (c : ascii) (s : str) :
  isspace c = true -> nonspace (c :: s) = nonspace s.
Proof. intros H. unfold nonspace. cbn [filter]. rewrite H. reflexivity. Qed.

Lemma nonspace_cons (c : ascii) (s : str) :
  nonspace (c :: s) = (if isspace c then [] else [c]) ++ nonspace s.
Proof. unfold nonspace. cbn [filter]. destruct (isspace c); reflexivity. Qed.

Lemma nonspace_blank (s : str) : blank s = true -> nonspace s = [].
Proof.
  induction s as [|c s IH]; [reflexivity|]. cbn [blank forallb].
  intros H. apply andb_true_iff in H. destruct H as [Hc Hs].
  rewrite nonspace_cons_space by exact Hc. apply IH. exact Hs.
Qed.

Lemma blank_nonspace (s : str) : nonspace s = [] -> blank s = true.
Proof.
  induction s as [|c s IH]; [reflexivity|]. unfold nonspace. cbn [filter blank forallb].
  destruct (isspace c); cbn [negb]; [|discriminate]. exact IH.
Qed.

(** *** Prefixes found by the matchers *)

Lemma take_while_all (p : ascii -> bool) (s : str) :
  forallb p (Re.take_while p s) = true.
Proof.
  induction s as [|c s IH]; [reflexivity|]. cbn [Re.take_while].
  destruct (p c) eqn:E; [|reflexivity]. cbn [forallb]. rewrite E. exact IH.
Qed.

Lemma take_while_firstn (p : ascii -> bool) (s : str) :
  Re.take_while p s = firstn (Re.run p s) s.
Proof.
  unfold Re.run. induction s as [|c s IH]; [reflexivity|].
  cbn [Re.take_while]. destruct (p c); [|reflexivity].
  cbn [length firstn]. f_equal. exact IH.
Qed.

Lemma firstn_firstn_le (n m : nat) (s : str) :
  n <= m -> firstn n (firstn m s) = firstn n s.
Proof. intros H. rewrite firstn_firstn. f_equal. lia. Qed.

Lemma forallb_firstn (p : ascii -> bool) (n : nat) :
  forall s, forallb p s = true -> forallb p (firstn n s) = true.
Proof.
  induction n as [|n IH]; intros s H; [reflexivity|].
  destruct s as [|c s]; [reflexivity|]. cbn [firstn forallb] in *.
  apply andb_true_iff in H. destruct H as [-> H]. apply IH. exact H.
Qed.

(** The first [n] characters of [s] satisfy [p] when [n] does not exceed
    the run of [p] at the head of [s]. *)
Lemma firstn_run_all (p : ascii -> bool) (n : nat) (s : str) :
  n <= Re.run p s -> forallb p (firstn n s) = true.
Proof.
  intros H. rewrite <- (firstn_firstn_le s H), <- take_while_firstn.
  apply forallb_firstn, take_while_all.
Qed.

Lemma last_nl_aux_bound (r : str) :
  forall i best k,
    Re.last_nl_aux i best r = Some k -> best = Some k \/ (i <= k < i + length r).
Proof.
  induction r as [|c r IH]; intros i best k; cbn [Re.last_nl_aux].
  - intros H. left. exact H.
  - intros H. apply IH in H. destruct H as [H|H].
    + destruct (Re.is_nl c); [|left; exact H].
      injection H as <-. right. cbn [length]. lia.
    + right. cbn [length]. lia.
Qed.

Lemma last_nl_bound (r : str) (k : nat) :
  Re.last_nl r = Some k -> k < length r.
Proof.
  unfold Re.last_nl. intros H. apply last_nl_aux_bound in H.
  destruct H as [H|H]; [discriminate|lia].
Qed.

Lemma blank_lines_len_blank (rest : str) (n : nat) :
  Re.blank_lines_len rest = Some n -> blank (firstn n rest) = true.
Proof.
  unfold Re.blank_lines_len.
  destruct (2 <=? Re.count_nl (Re.take_while isspace rest)); [|discriminate].
  destruct (Re.last_nl (Re.take_while isspace rest)) as [k|] eqn:E; [|discriminate].
  intros H. injection H as <-. apply last_nl_bound in E.
  apply firstn_run_all. unfold Re.run. lia.
Qed.

Lemma para_sep_len_blank (rest : str) (n : nat) :
  Re.para_sep_len rest = Some n -> blank (firstn n rest) = true.
Proof.
  unfold Re.para_sep_len.
  destruct (Re.last_nl (Re.take_while isspace rest)) as [k|] eqn:E; [|discriminate].
  intros H. injection H as <-. apply last_nl_bound in E.
  apply firstn_run_all. unfold Re.run. lia.
Qed.

Lemma firstn_run_blank (rest : str) :
  blank (firstn (Re.run Re.is_blank rest) rest) = true.
Proof.
  rewrite <- take_while_firstn. unfold blank.
  induction rest as [|c r IH]; [reflexivity|]. cbn [Re.take_while].
  destruct (Re.is_blank c) eqn:E; [|reflexivity].
  cbn [forallb]. rewrite (@blank_isspace _ E). exact IH.
Qed.

(** *** Each pass changes white space only *)

Lemma sub_crlf_other (c : ascii) (rest : str) :
  Re.is_cr c = false -> Re.sub_crlf (c :: rest) = c :: Re.sub_crlf rest.
Proof. intros H. destruct rest; cbn [Re.sub_crlf]; rewrite H; reflexivity. Qed.

Lemma sub_crlf_pair (c c2 : ascii) (rest2 : str) :
  Re.is_cr c = true ->
  Re.sub_crlf (c :: c2 :: rest2)
  = Re.nl :: Re.sub_crlf (if Re.is_nl c2 then rest2 else c2 :: rest2).
Proof.
  intros H. change (Re.sub_crlf (c :: c2 :: rest2))
    with (if Re.is_cr c
          then if Re.is_nl c2 then Re.nl :: Re.sub_crlf rest2
               else Re.nl :: Re.sub_crlf (c2 :: rest2)
          else c :: Re.sub_crlf (c2 :: rest2)).
  rewrite H. destruct (Re.is_nl c2); reflexivity.
Qed.

Lemma sub_crlf_nonspace (s : str) :
  nonspace (Re.sub_crlf s) = nonspace s
  /\ forall c, nonspace (Re.sub_crlf (c :: s)) = nonspace (c :: s).
Proof.
  induction s as [|c2 rest2 [IH1 IH2]].
  - split; [reflexivity|]. intros c. cbn [Re.sub_crlf].
    destruct (Re.is_cr c) eqn:E; [|reflexivity].
    rewrite (@nonspace_cons_space _ _ (@cr_isspace _ E)). reflexivity.
  - split; [apply IH2|]. intros c.
    destruct (Re.is_cr c) eqn:E.
    + rewrite (@sub_crlf_pair c c2 rest2 E).
      rewrite (@nonspace_cons_space _ _ (@cr_isspace _ E)).
      rewrite nonspace_cons_space by reflexivity.
      destruct (Re.is_nl c2) eqn:E2.
      * rewrite (@nonspace_cons_space _ _ (@nl_isspace _ E2)). exact IH1.
      * apply IH2.
    + rewrite (@sub_crlf_other c (c2 :: rest2) E).
      rewrite (nonspace_cons c (Re.sub_crlf (c2 :: rest2))), IH2.
      symmetry. apply nonspace_cons.
Qed.

Lemma sub_blank_lines_nonspace (s : str) :
  forall n, blank (firstn n s) = true ->
    nonspace (Re.sub_blank_lines_aux n s) = nonspace s.
Proof.
  induction s as [|c rest IH]; intros n Hn; [reflexivity|].
  cbn [Re.sub_blank_lines_aux]. destruct n as [|k].
  - destruct (Re.is_nl c) eqn:E.
    + destruct (Re.blank_lines_len rest) as [m|] eqn:Em.
      * rewrite !nonspace_cons_space by reflexivity.
        rewrite (@nonspace_cons_space _ _ (@nl_isspace _ E)).
        apply IH. apply blank_lines_len_blank. exact Em.
      * rewrite !(@nonspace_cons_space _ _ (@nl_isspace _ E)). apply IH. reflexivity.
    + rewrite (nonspace_cons c (Re.sub_blank_lines_aux 0 rest)), (IH 0 eq_refl).
      symmetry. apply nonspace_cons.
  - cbn [firstn blank forallb] in Hn. apply andb_true_iff in Hn.
    destruct Hn as [Hc Hk]. rewrite (@nonspace_cons_space _ _ Hc).
    apply IH. exact Hk.
Qed.

Lemma sub_spaces_nonspace (s : str) :
  forall n, blank (firstn n s) = true ->
    nonspace (Re.sub_spaces_aux n s) = nonspace s.
Proof.
  induction s as [|c rest IH]; intros n Hn; [reflexivity|].
  cbn [Re.sub_spaces_aux]. destruct n as [|k].
  - destruct (Re.is_blank c) eqn:E.
    + cbv zeta. destruct (1 <=? Re.run Re.is_blank rest).
      * rewrite nonspace_cons_space by reflexivity.
        rewrite (@nonspace_cons_space _ _ (@blank_isspace _ E)).
        apply IH. apply firstn_run_blank.
      * rewrite !(@nonspace_cons_space _ _ (@blank_isspace _ E)).
        apply IH. reflexivity.
    + rewrite (nonspace_cons c (Re.sub_spaces_aux 0 rest)), (IH 0 eq_refl).
      symmetry. apply nonspace_cons.
  - cbn [firstn blank forallb] in Hn. apply andb_true_iff in Hn.
    destruct Hn as [Hc Hk]. rewrite (@nonspace_cons_space _ _ Hc).
    apply IH. exact Hk.
Qed.

Lemma lstrip_nonspace (s : str) : nonspace (lstrip s) = nonspace s.
Proof.
  induction s as [|c s IH]; [reflexivity|]. cbn [lstrip].
  destruct (isspace c) eqn:E; [|reflexivity].
  rewrite (@nonspace_cons_space _ _ E). exact IH.
Qed.

Lemma rstrip_nonspace (s : str) : nonspace (rstrip s) = nonspace s.
Proof.
  unfold rstrip, nonspace. rewrite filter_rev.
  fold (nonspace (lstrip (rev s))). rewrite lstrip_nonspace.
  unfold nonspace. rewrite filter_rev, rev_involutive. reflexivity.
Qed.

Lemma strip_nonspace (s : str) : nonspace (strip s) = nonspace s.
Proof. unfold strip. rewrite lstrip_nonspace. apply rstrip_nonspace. Qed.

Lemma normalize_whitespace_keeps_content_aux (s : str) :
  nonspace (_normalize_whitespace s) = nonspace s.
Proof.
  unfold _normalize_whitespace, Re.sub_spaces, Re.sub_blank_lines.
  rewrite strip_nonspace.
  rewrite sub_spaces_nonspace by reflexivity.
  rewrite sub_blank_lines_nonspace by reflexivity.
  apply (proj1 (sub_crlf_nonspace s)).
Qed.

(** X1. [_normalize_whitespace] neither removes, adds nor moves a character
    that is not white space: the characters of the result that are not
    white space are those of the argument, in the same order. *)
Theorem normalize_whitespace_keeps_content (s : str) :
  nonspace (_normalize_whitespace s) = nonspace s.
Proof. apply normalize_whitespace_keeps_content_aux. Qed.

End NormalizeFacts.

Section NormalForm.
Import Py Clauses Props MoreProps.

(** *** Where the characters of the result come from *)

Lemma sub_crlf_no_cr (s : str) :
  no_cr (Re.sub_crlf s) = true /\ forall c, no_cr (Re.sub_crlf (c :: s)) = true.
Proof.
  induction s as [|c2 rest2 [IH1 IH2]].
  - split; [reflexivity|]. intros c. cbn [Re.sub_crlf].
    destruct (Re.is_cr c) eqn:E; [reflexivity|].
    unfold no_cr. cbn [forallb]. rewrite E. reflexivity.
  - split; [apply IH2|]. intros c. destruct (Re.is_cr c) eqn:E.
    + rewrite (@sub_crlf_pair c c2 rest2 E). unfold no_cr. cbn [forallb].
      change (negb (Re.is_cr Re.nl)) with true. cbn [andb].
      destruct (Re.is_nl c2); [exact IH1|apply IH2].
    + rewrite (@sub_crlf_other c (c2 :: rest2) E). unfold no_cr. cbn [forallb].
      rewrite E. cbn [negb andb]. apply IH2.
Qed.

Lemma sub_blank_lines_from (s : str) :
  forall n x, In x (Re.sub_blank_lines_aux n s) -> x = Re.nl \/ In x s.
Proof.
  induction s as [|c rest IH]; intros n x; [contradiction|].
  cbn [Re.sub_blank_lines_aux]. destruct n as [|k].
  - destruct (Re.is_nl c).
    + destruct (Re.blank_lines_len rest) as [m|].
      * intros [<-|[<-|H]]; auto. apply IH in H. destruct H; auto. right. right. assumption.
      * intros [<-|H]; [right; left; reflexivity|].
        apply IH in H. destruct H; auto. right. right. assumption.
    + intros [<-|H]; [right; left; reflexivity|].
      apply IH in H. destruct H; auto. right. right. assumption.
  - intros H. apply IH in H. destruct H; auto. right. right. assumption.
Qed.

Lemma sub_spaces_from (s : str) :
  forall n x, In x (Re.sub_spaces_aux n s) -> x = Re.sp \/ In x s.
Proof.
  induction s as [|c rest IH]; intros n x; [contradiction|].
  cbn [Re.sub_spaces_aux]. destruct n as [|k].
  - destruct (Re.is_blank c).
    + cbv zeta. destruct (1 <=? Re.run Re.is_blank rest).
      * intros [<-|H]; auto. apply IH in H. destruct H; auto. right. right. assumption.
      * intros [<-|H]; [right; left; reflexivity|].
        apply IH in H. destruct H; auto. right. right. assumption.
    + intros [<-|H]; [right; left; reflexivity|].
      apply IH in H. destruct H; auto. right. right. assumption.
  - intros H. apply IH in H. destruct H; auto. right. right. assumption.
Qed.

Lemma lstrip_suffix (s : str) : exists u, s = u ++ lstrip s.
Proof.
  induction s as [|c s [u IH]]; [exists []; reflexivity|].
  cbn [lstrip]. destruct (isspace c).
  - exists (c :: u). cbn [app]. f_equal. exact IH.
  - exists []. reflexivity.
Qed.

Lemma rstrip_prefix (s : str) : exists u, s = rstrip s ++ u.
Proof.
  unfold rstrip. destruct (lstrip_suffix (rev s)) as [u Hu].
  exists (rev u). rewrite <- rev_app_distr, <- Hu, rev_involutive. reflexivity.
Qed.

Lemma strip_from (s : str) (x : ascii) : In x (strip s) -> In x s.
Proof.
  unfold strip. intros H.
  destruct (lstrip_suffix (rstrip s)) as [u Hu].
  destruct (rstrip_prefix s) as [v Hv].
  rewrite Hv, Hu. apply in_or_app. left. apply in_or_app. right. exact H.
Qed.

(** *** The ends of a stripped string *)

Lemma lstrip_head (s : str) (c : ascii) (r : str) :
  lstrip s = c :: r -> isspace c = false.
Proof.
  induction s as [|d s IH]; [discriminate|]. cbn [lstrip].
  destruct (isspace d) eqn:E; [exact IH|].
  intros H. injection H as <- _. exact E.
Qed.

Lemma last_app_nonempty (u v : str) (d : ascii) :
  v <> [] -> last (u ++ v) d = last v d.
Proof.
  intros Hv. induction u as [|x u IH]; [reflexivity|].
  cbn [app]. destruct (u ++ v) eqn:E.
  - destruct u; [cbn in E; contradiction|discriminate].
  - exact IH.
Qed.

Lemma rstrip_last (s : str) (d : ascii) :
  rstrip s <> [] -> isspace (last (rstrip s) d) = false.
Proof.
  unfold rstrip. destruct (lstrip (rev s)) as [|c r] eqn:E; [contradiction|].
  intros _. cbn [rev]. rewrite last_last. eapply lstrip_head. exact E.
Qed.

Lemma strip_trimmed (s : str) : trimmed (strip s) = true.
Proof.
  unfold strip. destruct (lstrip (rstrip s)) as [|c r] eqn:E; [reflexivity|].
  cbn [trimmed]. rewrite (lstrip_head _ E). cbn [negb andb].
  destruct (lstrip_suffix (rstrip s)) as [u Hu]. rewrite E in Hu.
  assert (Hne : rstrip s <> []) by (rewrite Hu; destruct u; discriminate).
  pose proof (rstrip_last s c Hne) as Hl.
  rewrite Hu in Hl at 1. rewrite last_app_nonempty in Hl by discriminate.
  rewrite Hl. reflexivity.
Qed.

(** *** Neighbouring blanks *)

Lemma no_double_blank_cons (c : ascii) (l : str) :
  Re.is_blank c = false \/ head_not_blank l = true ->
  no_double_blank l = true -> no_double_blank (c :: l) = true.
Proof.
  intros H Hl. destruct l as [|d l']; [reflexivity|].
  change (negb (Re.is_blank c && Re.is_blank d) && no_double_blank (d :: l') = true).
  rewrite Hl, andb_true_r. destruct H as [->|H]; [reflexivity|].
  cbn [head_not_blank] in H. apply negb_true_iff in H. rewrite H.
  rewrite andb_false_r. reflexivity.
Qed.

Lemma no_double_blank_tail (c : ascii) (l : str) :
  no_double_blank (c :: l) = true -> no_double_blank l = true.
Proof.
  destruct l as [|d l']; [reflexivity|].
  change (negb (Re.is_blank c && Re.is_blank d) && no_double_blank (d :: l') = true
          -> no_double_blank (d :: l') = true).
  intros H. apply andb_true_iff in H. tauto.
Qed.

Lemma no_double_blank_app_r (a b : str) :
  no_double_blank (a ++ b) = true -> no_double_blank b = true.
Proof.
  induction a as [|x a IH]; [auto|]. cbn [app]. intros H.
  apply IH. eapply no_double_blank_tail. exact H.
Qed.

Lemma no_double_blank_app_l (a b : str) :
  no_double_blank (a ++ b) = true -> no_double_blank a = true.
Proof.
  induction a as [|x a IH]; [reflexivity|]. cbn [app]. intros H.
  pose proof (no_double_blank_tail _ _ H) as Ht. specialize (IH Ht).
  destruct a as [|y a']; [reflexivity|].
  change (negb (Re.is_blank x && Re.is_blank y) && no_double_blank (y :: a') = true).
  rewrite IH, andb_true_r.
  change (negb (Re.is_blank x && Re.is_blank y)
          && no_double_blank (y :: a' ++ b) = true) in H.
  apply andb_true_iff in H. tauto.
Qed.

Lemma run_cons (p : ascii -> bool) (c : ascii) (s : str) :
  Re.run p (c :: s) = if p c then S (Re.run p s) else 0.
Proof. unfold Re.run. cbn [Re.take_while]. destruct (p c); reflexivity. Qed.

Lemma sub_spaces_no_double (s : str) :
  no_double_blank (Re.sub_spaces_aux 0 s) = true
  /\ forall n, n = Re.run Re.is_blank s ->
       no_double_blank (Re.sub_spaces_aux n s) = true
       /\ head_not_blank (Re.sub_spaces_aux n s) = true.
Proof.
  induction s as [|c rest [IH1 IH2]].
  - split; [reflexivity|]. intros n ->. split; reflexivity.
  - assert (Hother : Re.is_blank c = false ->
              no_double_blank (Re.sub_spaces_aux 0 (c :: rest)) = true
              /\ head_not_blank (Re.sub_spaces_aux 0 (c :: rest)) = true).
    { intros E. cbn [Re.sub_spaces_aux]. rewrite E. split.
      - apply no_double_blank_cons; [left; exact E|exact IH1].
      - cbn [head_not_blank]. rewrite E. reflexivity. }
    split.
    + destruct (Re.is_blank c) eqn:E; [|apply Hother; reflexivity].
      cbn [Re.sub_spaces_aux]. rewrite E. cbv zeta.
      destruct (IH2 (Re.run Re.is_blank rest) eq_refl) as [Hn Hh].
      destruct (1 <=? Re.run Re.is_blank rest) eqn:E1.
      * apply no_double_blank_cons; [right; exact Hh|exact Hn].
      * apply Nat.leb_gt in E1.
        assert (E0 : Re.run Re.is_blank rest = 0) by lia.
        rewrite E0 in Hn, Hh.
        apply no_double_blank_cons; [right; exact Hh|exact Hn].
    + intros n ->. rewrite run_cons. destruct (Re.is_blank c) eqn:E.
      * cbn [Re.sub_spaces_aux]. apply IH2. reflexivity.
      * apply Hother. reflexivity.
Qed.

(** X2. The result of [_normalize_whitespace] holds no carriage return, neither
    begins nor ends with white space, and holds no two neighbouring
    characters that are both a space or a tab. *)
Theorem normalize_whitespace_normal_form (s : str) :
  no_cr (_normalize_whitespace s) = true
  /\ trimmed (_normalize_whitespace s) = true
  /\ no_double_blank (_normalize_whitespace s) = true.
Proof.
  unfold _normalize_whitespace. split; [|split].
  - unfold no_cr. apply forallb_forall. intros x Hx.
    apply strip_from in Hx. unfold Re.sub_spaces in Hx.
    apply sub_spaces_from in Hx. destruct Hx as [->|Hx]; [reflexivity|].
    unfold Re.sub_blank_lines in Hx.
    apply sub_blank_lines_from in Hx. destruct Hx as [->|Hx]; [reflexivity|].
    pose proof (proj1 (sub_crlf_no_cr s)) as Hcr. unfold no_cr in Hcr.
    rewrite forallb_forall in Hcr. apply Hcr. exact Hx.
  - apply strip_trimmed.
  - unfold strip.
    destruct (lstrip_suffix (rstrip (Re.sub_spaces (Re.sub_blank_lines (Re.sub_crlf s)))))
      as [u Hu].
    destruct (rstrip_prefix (Re.sub_spaces (Re.sub_blank_lines (Re.sub_crlf s))))
      as [v Hv].
    pose proof (proj1 (sub_spaces_no_double (Re.sub_blank_lines (Re.sub_crlf s))))
      as Hn.
    fold (Re.sub_spaces (Re.sub_blank_lines (Re.sub_crlf s))) in Hn.
    rewrite Hv in Hn. apply no_double_blank_app_l in Hn.
    rewrite Hu in Hn. apply no_double_blank_app_r in Hn. exact Hn.
Qed.

(** A document made of white space only is normalised to the empty text,
    and no other document is. *)
Lemma normalize_whitespace_empty_iff (s : str) :
  _normalize_whitespace s = [] <-> blank s = true.
Proof.
  split.
  - intros H. apply blank_nonspace.
    rewrite <- normalize_whitespace_keeps_content_aux, H. reflexivity.
  - intros H. pose proof (normalize_whitespace_keeps_content_aux s) as Hc.
    rewrite (nonspace_blank _ H) in Hc.
    pose proof (strip_trimmed (Re.sub_spaces (Re.sub_blank_lines (Re.sub_crlf s))))
      as Ht.
    fold (_normalize_whitespace s) in Ht.
    destruct (_normalize_whitespace s) as [|c r]; [reflexivity|].
    cbn [trimmed] in Ht. apply andb_true_iff in Ht. destruct Ht as [Ht _].
    rewrite nonspace_cons in Hc. apply negb_true_iff in Ht. rewrite Ht in Hc.
    discriminate.
Qed.

End NormalForm.

(** ** Chunking *)
Section ChunkFacts.
Import Py Clauses Props MoreProps.

Lemma split_sentences_first (s : str) :
  forall skip prev cur, cur <> [] ->
    exists p rest, Re.split_sentences_aux skip prev cur s = p :: rest /\ p <> [].
Proof.
  induction s as [|c s IH]; intros skip prev cur Hcur.
  - exists (rev cur), []. split; [reflexivity|].
    destruct cur as [|x cur']; [contradiction|]. cbn [rev].
    destruct (rev cur'); discriminate.
  - cbn [Re.split_sentences_aux]. destruct skip as [|k]; [|apply IH; exact Hcur].
    destruct (prev && isspace c).
    + eexists. eexists. split; [reflexivity|].
      destruct cur as [|x cur']; [contradiction|]. cbn [rev].
      destruct (rev cur'); discriminate.
    + apply IH. discriminate.
Qed.

Lemma split_sentences_nonspace (s : str) :
  forall skip prev cur, blank (firstn skip s) = true ->
    nonspace (concat (Re.split_sentences_aux skip prev cur s))
    = nonspace (rev cur ++ s).
Proof.
  induction s as [|c s IH]; intros skip prev cur Hs.
  - cbn [Re.split_sentences_aux concat]. reflexivity.
  - cbn [Re.split_sentences_aux]. destruct skip as [|k].
    + destruct (prev && isspace c) eqn:E.
      * apply andb_true_iff in E. destruct E as [_ Ec].
        cbn [concat]. rewrite !nonspace_app, IH.
        -- rewrite (@nonspace_cons_space c s Ec). reflexivity.
        -- apply firstn_run_all. lia.
      * rewrite IH by reflexivity. cbn [rev]. rewrite <- app_assoc. reflexivity.
    + cbn [firstn blank forallb] in Hs. apply andb_true_iff in Hs.
      destruct Hs as [Hc Hk]. rewrite IH by exact Hk.
      rewrite !nonspace_app, (@nonspace_cons_space c s Hc). reflexivity.
Qed.

(** Both sides are brought to a right-nested concatenation of [nonspace]
    pieces. *)
Ltac ns_norm :=
  repeat (progress cbn [concat app]
          || rewrite concat_app || rewrite nonspace_app
          || rewrite app_nil_r || rewrite <- app_assoc).

Lemma join_nonspace (l : list str) :
  nonspace (join [Re.sp] l) = nonspace (concat l).
Proof.
  induction l as [|x [|y r] IH]; [reflexivity| |].
  - cbn [join concat]. rewrite app_nil_r. reflexivity.
  - change (join [Re.sp] (x :: y :: r)) with (x ++ [Re.sp] ++ join [Re.sp] (y :: r)).
    rewrite !nonspace_app, IH.
    change (nonspace [Re.sp]) with (@nil ascii). cbn [concat app].
    rewrite !nonspace_app. reflexivity.
Qed.

Lemma flush_nonspace (chunks current : list str) :
  nonspace (concat (flush chunks current))
  = nonspace (concat chunks ++ concat current).
Proof.
  unfold flush. destruct current as [|x r]; cbn [nonempty].
  - cbn [concat]. rewrite app_nil_r. reflexivity.
  - ns_norm. rewrite strip_nonspace, join_nonspace. ns_norm. reflexivity.
Qed.

(** The slices of [range(0, len(s), m)] put end to end give [s] back. *)
Lemma slices_cover (m : nat) (cnt : nat) :
  0 < m ->
  forall s : str, length s <= cnt * m ->
    concat (map (fun i => slice s i (i + m)) (map (fun k => k * m) (seq 0 cnt)))
    = s.
Proof.
  intros Hm. induction cnt as [|cnt IH]; intros s Hlen.
  - destruct s; [reflexivity|]. cbn in Hlen. lia.
  - cbn [seq map concat]. rewrite <- seq_shift, !map_map.
    unfold slice at 1. cbn [Nat.mul Nat.add skipn].
    replace (m - 0) with m by lia.
    transitivity (firstn m s ++ skipn m s); [|apply firstn_skipn].
    f_equal.
    transitivity (concat (map (fun i => slice (skipn m s) i (i + m))
                              (map (fun k => k * m) (seq 0 cnt)))).
    + rewrite map_map. f_equal. apply map_ext. intros k. unfold slice.
      rewrite skipn_skipn. f_equal; [lia|]. f_equal. lia.
    + apply IH. rewrite length_skipn. cbn [Nat.mul] in Hlen. lia.
Qed.

Lemma range_step_covers (n m : nat) : 0 < m -> n <= ((n + m - 1) / m) * m.
Proof.
  intros Hm. pose proof (Nat.div_mod_eq (n + m - 1) m) as Hd.
  pose proof (Nat.mod_upper_bound (n + m - 1) m ltac:(lia)) as Hr.
  nia.
Qed.

Lemma stripped_parts_nonspace (l : list str) :
  nonspace (concat (filter truthy (map strip l))) = nonspace (concat l).
Proof.
  induction l as [|x r IH]; [reflexivity|]. cbn [map filter concat].
  rewrite nonspace_app, <- (strip_nonspace x).
  destruct (strip x) as [|c t]; cbn [truthy]; [exact IH|].
  cbn [concat]. rewrite nonspace_app, IH. reflexivity.
Qed.

Lemma force_split_nonspace (s : str) (max_len : Z) :
  (0 < max_len)%Z ->
  exists parts, force_split s max_len = Ok parts
                /\ nonspace (concat parts) = nonspace s.
Proof.
  intros Hm. unfold force_split.
  destruct (max_len =? 0)%Z eqn:E0; [apply Z.eqb_eq in E0; lia|].
  destruct (max_len <? 0)%Z eqn:E1; [apply Z.ltb_lt in E1; lia|].
  eexists. split; [reflexivity|].
  rewrite <- (map_map (fun i => slice s i (i + Z.to_nat max_len)) strip).
  rewrite stripped_parts_nonspace. unfold range_step. f_equal.
  apply slices_cover; [lia|]. apply range_step_covers. lia.
Qed.

Lemma chunk_loop_nonspace (max_len : Z) (sentences : list str) :
  (0 < max_len)%Z ->
  forall chunks current cur_len out,
    chunk_loop max_len sentences chunks current cur_len = Ok out ->
    nonspace (concat out)
    = nonspace (concat chunks ++ concat current ++ concat sentences).
Proof.
  intros Hm. induction sentences as [|s rest IH];
    intros chunks current cur_len out; cbn [chunk_loop].
  - intros H. injection H as <-. cbn [concat]. rewrite app_nil_r.
    apply flush_nonspace.
  - destruct (cur_len + len s <=? max_len)%Z.
    + intros H. apply IH in H. rewrite H. ns_norm. reflexivity.
    + destruct (len s >? max_len)%Z.
      * destruct (force_split_nonspace s Hm) as [parts [-> Hparts]].
        cbn [bind]. intros H. apply IH in H. rewrite H. ns_norm.
        rewrite flush_nonspace, Hparts. ns_norm. reflexivity.
      * intros H. apply IH in H. rewrite H. ns_norm.
        rewrite flush_nonspace. ns_norm. reflexivity.
Qed.

Lemma chunk_long_clause_nonspace (text : str) (max_len : Z) :
  (0 < max_len)%Z ->
  exists chunks, _chunk_long_clause text max_len = Ok chunks
                 /\ nonspace (concat chunks) = nonspace text.
Proof.
  intros Hm. unfold _chunk_long_clause.
  destruct (len text <=? max_len)%Z.
  - eexists. split; [reflexivity|].
    destruct text; cbn [truthy concat]; [reflexivity|].
    rewrite app_nil_r. reflexivity.
  - destruct (@chunk_loop_total max_len (Re.split_sentences text)
                ltac:(lia) [] [] 0%Z) as [out Hout].
    exists out. split; [exact Hout|].
    apply (chunk_loop_nonspace _ Hm) in Hout. rewrite Hout. cbn [concat app].
    unfold Re.split_sentences. rewrite split_sentences_nonspace by reflexivity.
    reflexivity.
Qed.

(** X3. With a positive [max_len], [_chunk_long_clause] returns and loses
    nothing but white space: the characters of the chunks that are not white
    space are those of the text, in the same order. *)
Theorem chunk_long_clause_keeps_content (text : str) (max_len : Z) :
  (0 < max_len)%Z ->
  exists chunks, _chunk_long_clause text max_len = Ok chunks
                 /\ nonspace (concat chunks) = nonspace text.
Proof. apply chunk_long_clause_nonspace. Qed.

Lemma chunk_long_clause_keeps_content_witness :
  exists chunks,
    _chunk_long_clause (lit "One two three. Four five six seven. Eight.") 12
    = Ok chunks
    /\ nonspace (concat chunks)
       = nonspace (lit "One two three. Four five six seven. Eight.").
Proof.
  apply (@chunk_long_clause_keeps_content
           (lit "One two three. Four five six seven. Eight.") 12).
  lia.
Defined.

(** X4. [_chunk_long_clause] raises exactly when [max_len] is 0 and the text is
    not empty, and what it raises then is the [ValueError] of [range]. *)
Theorem chunk_long_clause_raises_iff (text : str) (max_len : Z) :
  (max_len = 0%Z /\ text <> []
   -> _chunk_long_clause text max_len
      = Raise (ValueError "range() arg 3 must not be zero"))
  /\ (max_len <> 0%Z \/ text = []
      -> exists chunks, _chunk_long_clause text max_len = Ok chunks).
Proof.
  split.
  - intros [-> Htext]. destruct text as [|c r]; [contradiction|].
    unfold _chunk_long_clause.
    assert (E : (len (c :: r) <=? 0)%Z = false).
    { apply Z.leb_gt. unfold len. cbn [length]. lia. }
    rewrite E. unfold Re.split_sentences. cbn [Re.split_sentences_aux andb].
    destruct (@split_sentences_first r 0 (Re.is_sentence_end c) [c]
                ltac:(discriminate)) as [p [rest [-> Hp]]].
    cbn [chunk_loop].
    assert (Epos : (0 < len p)%Z).
    { unfold len. destruct p; [contradiction|]. cbn [length]. lia. }
    assert (E1 : (0 + len p <=? 0)%Z = false) by (apply Z.leb_gt; lia).
    assert (E2 : (len p >? 0)%Z = true) by (apply Z.gtb_lt; lia).
    rewrite E1, E2. reflexivity.
  - intros H. destruct (Z.eq_dec max_len 0) as [->|Hm].
    + destruct H as [H| ->]; [contradiction|]. eexists. reflexivity.
    + unfold _chunk_long_clause. destruct (len text <=? max_len)%Z.
      * eexists. reflexivity.
      * apply chunk_loop_total. exact Hm.
Qed.

Lemma chunk_long_clause_raises_iff_witness :
  _chunk_long_clause (lit "Any text.") 0
  = Raise (ValueError "range() arg 3 must not be zero")
  /\ exists chunks, _chunk_long_clause (lit "Any text.") 4 = Ok chunks.
Proof.
  split.
  - apply (proj1 (@chunk_long_clause_raises_iff (lit "Any text.") 0)).
    split; [reflexivity|discriminate].
  - apply (proj2 (@chunk_long_clause_raises_iff (lit "Any text.") 4)).
    left. discriminate.
Defined.

End ChunkFacts.

(** ** What the segmenter keeps of the document *)
Section Coverage.
Import Py Clauses Props MoreProps.

Lemma split_paragraphs_nonspace (s : str) :
  forall skip cur, blank (firstn skip s) = true ->
    nonspace (concat (Re.split_paragraphs_aux skip cur s))
    = nonspace (rev cur ++ s).
Proof.
  induction s as [|c s IH]; intros skip cur Hs.
  - cbn [Re.split_paragraphs_aux concat]. reflexivity.
  - cbn [Re.split_paragraphs_aux]. destruct skip as [|k].
    + destruct (Re.is_nl c) eqn:E.
      * destruct (Re.para_sep_len s) as [n|] eqn:En.
        -- cbn [concat]. rewrite !nonspace_app, IH.
           ++ rewrite (@nonspace_cons_space c s (@nl_isspace c E)). reflexivity.
           ++ apply para_sep_len_blank. exact En.
        -- rewrite IH by reflexivity. cbn [rev]. rewrite <- app_assoc.
           reflexivity.
      * rewrite IH by reflexivity. cbn [rev]. rewrite <- app_assoc. reflexivity.
    + cbn [firstn blank forallb] in Hs. apply andb_true_iff in Hs.
      destruct Hs as [Hc Hk]. rewrite IH by exact Hk.
      rewrite !nonspace_app, (@nonspace_cons_space c s Hc). reflexivity.
Qed.

Lemma kept_stripped_nonspace (l : list str) :
  nonspace (concat (map strip (filter (fun p => truthy (strip p)) l)))
  = nonspace (concat l).
Proof.
  induction l as [|x r IH]; [reflexivity|]. cbn [filter concat].
  rewrite nonspace_app, <- (strip_nonspace x).
  destruct (strip x) as [|c t] eqn:E; cbn [truthy]; [exact IH|].
  cbn [map concat]. rewrite E, nonspace_app, IH. reflexivity.
Qed.

Lemma paragraphs_of_nonspace (text : str) :
  nonspace (concat (paragraphs_of text)) = nonspace text.
Proof.
  unfold paragraphs_of. rewrite kept_stripped_nonspace.
  unfold Re.split_paragraphs. rewrite split_paragraphs_nonspace by reflexivity.
  reflexivity.
Qed.

Lemma paragraph_parts_text (paragraphs : list str) :
  forall idx, parts_text (paragraph_parts paragraphs idx) = concat paragraphs.
Proof.
  unfold parts_text.
  induction paragraphs as [|p r IH]; intros idx; [reflexivity|].
  cbn [paragraph_parts map concat fst]. rewrite IH. reflexivity.
Qed.

(** *** The heading positions *)

Lemma asc_from_weaken (l : list nat) (lo lo' : nat) :
  lo' <= lo -> asc_from lo l -> asc_from lo' l.
Proof.
  destruct l as [|x r]; [auto|]. cbn [asc_from]. intros H [Hx Hr].
  split; [lia|exact Hr].
Qed.

Lemma heading_starts_ascending (s : str) :
  forall pos bol skip, asc_from pos (Re.heading_starts_aux pos bol skip s).
Proof.
  induction s as [|c s IH]; intros pos bol skip; [exact I|].
  cbn [Re.heading_starts_aux].
  assert (Hnext : forall b k, asc_from pos (Re.heading_starts_aux (S pos) b k s)).
  { intros b k. apply (@asc_from_weaken _ (S pos)); [lia|apply IH]. }
  destruct skip as [|k]; [|apply Hnext].
  destruct bol; [|apply Hnext].
  destruct (Re.heading_match_len (c :: s)) as [[|n]|]; try apply Hnext.
  cbn [asc_from]. split; [lia|apply Hnext].
Qed.

Lemma slice_join (text : str) (a b c : nat) :
  a <= b -> b <= c -> slice text a b ++ slice text b c = slice text a c.
Proof.
  intros Hab Hbc. unfold slice.
  replace (c - a) with ((b - a) + (c - b)) by lia.
  rewrite <- (firstn_skipn (b - a) (firstn (b - a + (c - b)) (skipn a text))).
  rewrite firstn_firstn. replace (Nat.min (b - a) (b - a + (c - b))) with (b - a) by lia.
  f_equal. rewrite skipn_firstn_comm.
  replace (b - a + (c - b) - (b - a)) with (c - b) by lia.
  rewrite skipn_skipn. f_equal. f_equal. lia.
Qed.

Lemma heading_parts_loop_nonspace (text : str) (starts : list nat) :
  forall last parts parts' last',
    asc_from last starts ->
    heading_parts_loop text starts last parts = (parts', last') ->
    last <= last'
    /\ nonspace (parts_text parts')
       = nonspace (parts_text parts) ++ nonspace (slice text last last').
Proof.
  unfold parts_text.
  induction starts as [|start rest IH]; intros last parts parts' last' Hasc;
    cbn [heading_parts_loop].
  - intros H. injection H as <- <-. split; [lia|].
    unfold slice. rewrite Nat.sub_diag. cbn [firstn]. rewrite app_nil_r.
    reflexivity.
  - cbn [asc_from] in Hasc. destruct Hasc as [Hle Hrest].
    intros H. apply IH in H; [|exact Hrest]. destruct H as [Hle' H].
    split; [lia|]. rewrite H. rewrite <- (@slice_join text last start last') by lia.
    rewrite nonspace_app, app_assoc. f_equal.
    destruct (last <? start) eqn:E.
    + destruct (strip (slice text last start)) as [|c t] eqn:Es; cbn [truthy].
      * rewrite <- (strip_nonspace (slice text last start)), Es.
        rewrite app_nil_r. reflexivity.
      * rewrite map_app, concat_app, nonspace_app. cbn [map concat fst].
        rewrite app_nil_r, <- Es, strip_nonspace. reflexivity.
    + apply Nat.ltb_ge in E. assert (start = last) by lia. subst start.
      unfold slice. rewrite Nat.sub_diag. cbn [firstn]. rewrite app_nil_r.
      reflexivity.
Qed.

Lemma heading_parts_nonspace (text : str) (starts : list nat) :
  asc_from 0 starts ->
  nonspace (parts_text (heading_parts text starts)) = nonspace text.
Proof.
  intros Hasc. unfold heading_parts.
  destruct (heading_parts_loop text starts 0 []) as [parts last] eqn:E.
  apply heading_parts_loop_nonspace in E; [|exact Hasc].
  destruct E as [_ E]. cbn [parts_text map concat app] in E.
  change (parts_text []) with (@nil ascii) in E. cbn [nonspace filter app] in E.
  assert (Hall : nonspace (parts_text parts)
                 ++ nonspace (strip (slice_from text last)) = nonspace text).
  { rewrite E, strip_nonspace. unfold slice, slice_from.
    rewrite Nat.sub_0_r. cbn [skipn]. rewrite <- nonspace_app, firstn_skipn.
    reflexivity. }
  destruct (strip (slice_from text last)) as [|c t] eqn:Es; cbn [truthy].
  - rewrite app_nil_r in Hall. exact Hall.
  - unfold parts_text in *. rewrite map_app, concat_app, nonspace_app.
    cbn [map concat fst]. rewrite app_nil_r. exact Hall.
Qed.

Lemma parts_of_nonspace (text : str) :
  nonspace (parts_text (parts_of text)) = nonspace text.
Proof.
  unfold parts_of.
  assert (Hp : nonspace (parts_text (paragraph_parts (paragraphs_of text) 0))
               = nonspace text).
  { rewrite paragraph_parts_text. apply paragraphs_of_nonspace. }
  assert (Hh : nonspace (parts_text (heading_parts text (Re.heading_starts text)))
               = nonspace text).
  { apply heading_parts_nonspace. apply heading_starts_ascending. }
  destruct (nonempty (Re.heading_starts text)).
  - destruct (length (heading_parts text (Re.heading_starts text)) =? 1);
      [|exact Hh].
    destruct (1 <? length (paragraphs_of text)); [exact Hp|exact Hh].
  - destruct (length (paragraph_parts (paragraphs_of text) 0) =? 1);
      [|exact Hp].
    destruct (1 <? length (paragraphs_of text)); exact Hp.
Qed.

(** *** The main loop *)

Lemma update_last_text (f : clause -> clause) (extra : str) (l : list clause) :
  l <> [] ->
  (forall x, clause_text (f x) = clause_text x ++ extra) ->
  clauses_text (update_last f l) = clauses_text l ++ extra.
Proof.
  unfold clauses_text. intros Hl Hf.
  induction l as [|x [|y r] IH]; [contradiction| |].
  - cbn [update_last map concat]. rewrite Hf, !app_nil_r. reflexivity.
  - change (update_last f (x :: y :: r)) with (x :: update_last f (y :: r)).
    cbn [map concat]. cbn [map concat] in IH. rewrite IH by discriminate.
    rewrite <- !app_assoc. reflexivity.
Qed.

Lemma add_chunk_nonspace (min_len : Z) (debug : bool) (si ei : nat)
  (st : loop_state) (c0 : str) :
  nonspace (clauses_text (fst (add_chunk min_len debug si ei st c0)))
  = nonspace (clauses_text (fst st)) ++ nonspace c0.
Proof.
  destruct st as [clauses cid]. unfold add_chunk. cbn [fst].
  destruct ((len (strip c0) <? min_len)%Z && nonempty clauses) eqn:E; cbn [fst].
  - apply andb_true_iff in E. destruct E as [_ E].
    rewrite (@update_last_text (merge_fragment min_len (strip c0))
               ([Re.nl; Re.nl] ++ strip c0) clauses).
    + rewrite !nonspace_app, strip_nonspace. reflexivity.
    + destruct clauses; [discriminate|discriminate].
    + intros x. reflexivity.
  - unfold clauses_text. rewrite map_app, concat_app, nonspace_app.
    cbn [map concat clause_text]. rewrite app_nil_r, strip_nonspace.
    reflexivity.
Qed.

Lemma fold_add_chunk_nonspace (min_len : Z) (debug : bool) (si ei : nat)
  (chunks : list str) :
  forall st,
    nonspace (clauses_text
                (fst (fold_left (add_chunk min_len debug si ei) chunks st)))
    = nonspace (clauses_text (fst st)) ++ nonspace (concat chunks).
Proof.
  induction chunks as [|c r IH]; intros st; cbn [fold_left concat].
  - rewrite app_nil_r. reflexivity.
  - rewrite IH, add_chunk_nonspace, nonspace_app, app_assoc. reflexivity.
Qed.

Lemma parts_loop_nonspace (min_len max_len : Z) (debug : bool)
  (parts : list part) :
  (0 < max_len)%Z ->
  forall st, exists st',
    parts_loop min_len max_len debug parts st = Ok st'
    /\ nonspace (clauses_text (fst st'))
       = nonspace (clauses_text (fst st)) ++ nonspace (parts_text parts).
Proof.
  intros Hm. induction parts as [|[[pt si] ei] r IH]; intros st.
  - exists st. split; [reflexivity|]. rewrite app_nil_r. reflexivity.
  - cbn [parts_loop].
    destruct (chunk_long_clause_nonspace pt Hm) as [chunks [-> Hchunks]].
    cbn [bind].
    destruct (IH (fold_left (add_chunk min_len debug si ei) chunks st))
      as [st' [Hrun Hst']].
    exists st'. split; [exact Hrun|].
    rewrite Hst', fold_add_chunk_nonspace, Hchunks.
    unfold parts_text. cbn [map concat fst]. rewrite nonspace_app, app_assoc.
    reflexivity.
Qed.

(** X8. With a positive [max_len], [split_into_clauses] returns, and the
    characters of the returned clause texts that are not white space are
    those of the document, in the same order, except for those of one
    opening fragment shorter than [min_len], which the final pass may have
    removed. *)
Theorem split_into_clauses_keeps_content (doc : str) (min_len max_len : Z)
  (debug : bool) :
  (0 < max_len)%Z ->
  exists cs dropped,
    split_into_clauses doc min_len max_len debug = Ok cs
    /\ nonspace dropped ++ nonspace (clauses_text cs) = nonspace doc
    /\ (dropped = [] \/ ((len dropped < min_len)%Z /\ cs <> [])).
Proof.
  intros Hm. unfold split_into_clauses.
  destruct (negb (truthy (_normalize_whitespace doc))) eqn:Et.
  - exists [], []. split; [reflexivity|]. split; [|left; reflexivity].
    assert (Hn : _normalize_whitespace doc = [])
      by (destruct (_normalize_whitespace doc); [reflexivity|discriminate]).
    rewrite <- (normalize_whitespace_keeps_content_aux doc), Hn. reflexivity.
  - destruct (@parts_loop_nonspace min_len max_len debug
                (parts_of (_normalize_whitespace doc)) Hm ([], 0))
      as [st [Hrun Hst]].
    rewrite Hrun. cbn [bind].
    assert (Hinv : loop_inv min_len st).
    { eapply parts_loop_inv; [|exact Hrun].
      split; [reflexivity|]. split; constructor. }
    cbn [fst clauses_text map concat nonspace filter app] in Hst.
    change (nonspace (clauses_text [])) with (@nil ascii) in Hst.
    cbn [app] in Hst.
    rewrite parts_of_nonspace, normalize_whitespace_keeps_content_aux in Hst.
    destruct st as [clauses cid]. cbn [fst] in *.
    destruct Hinv as [_ [Hflag Hlong]]. cbn [fst] in *.
    destruct clauses as [|x r].
    + exists [], []. split; [reflexivity|]. split; [exact Hst|left; reflexivity].
    + cbn [tl] in Hlong.
      destruct (final_pass_shape x Hlong) as [Hall|[Hall [Hx Hr]]].
      * exists (x :: r), []. rewrite Hall. split; [reflexivity|].
        split; [exact Hst|left; reflexivity].
      * exists r, (clause_text x). rewrite Hall. split; [reflexivity|].
        split.
        -- rewrite <- Hst. unfold clauses_text. cbn [map concat].
           rewrite nonspace_app. reflexivity.
        -- right. split; [|exact Hr].
           pose proof (Forall_inv Hflag) as [Hfx _]. rewrite Hx in Hfx.
           symmetry in Hfx. apply Z.ltb_lt in Hfx. exact Hfx.
Qed.

Lemma split_into_clauses_keeps_content_witness :
  exists cs dropped,
    split_into_clauses Inputs.doc_short_first 40 2000 false = Ok cs
    /\ nonspace dropped ++ nonspace (clauses_text cs)
       = nonspace Inputs.doc_short_first
    /\ (dropped = [] \/ ((len dropped < 40)%Z /\ cs <> [])).
Proof.
  apply (@split_into_clauses_keeps_content Inputs.doc_short_first 40 2000 false).
  lia.
Defined.

End Coverage.

Section SegmenterReturns.
Import Py Clauses Props MoreProps.

(** X5. [split_into_clauses] raises for no document when [max_len] is not 0,
    and for every [min_len] and [max_len] it returns the empty list on a
    document made of white space only. *)
Theorem split_into_clauses_returns (doc : str) (min_len max_len : Z)
  (debug : bool) :
  (max_len <> 0%Z ->
   exists cs, split_into_clauses doc min_len max_len debug = Ok cs)
  /\ (blank doc = true ->
      split_into_clauses doc min_len max_len debug = Ok []).
Proof.
  split.
  - apply split_into_clauses_total.
  - intros Hb. unfold split_into_clauses.
    rewrite (proj2 (normalize_whitespace_empty_iff doc) Hb). reflexivity.
Qed.

Lemma split_into_clauses_returns_witness :
  (exists cs, split_into_clauses Inputs.doc_merge_over 10 (-5) true = Ok cs)
  /\ split_into_clauses (esc " \n\t \r\n ") 40 0 false = Ok [].
Proof.
  split.
  - apply (proj1 (@split_into_clauses_returns Inputs.doc_merge_over 10 (-5) true)).
    discriminate.
  - apply (proj2 (@split_into_clauses_returns (esc " \n\t \r\n ") 40 0 false)).
    reflexivity.
Defined.

End SegmenterReturns.

(** ** The parser: extraction and fences *)
Section ExtractionFacts.
Import Py Json GroqClient Props MoreProps.

Lemma extract_loop_skip_open (text a r : str) :
  forall i, no_open_brace a = true ->
    extract_loop text i None 0 (a ++ r)
    = extract_loop text (i + length a) None 0 r.
Proof.
  induction a as [|c a IH]; intros i H; cbn [app length].
  - f_equal; lia.
  - cbn [no_open_brace forallb] in H. apply andb_true_iff in H.
    destruct H as [Hc Ha]. apply negb_true_iff in Hc.
    cbn [extract_loop]. rewrite Hc.
    destruct (is_code 125 c); rewrite (IH (S i) Ha); f_equal; lia.
Qed.

Lemma extract_loop_inside (text : str) (st : nat) (s : str) :
  forall j k cand,
    extract_loop text j (Some st) (S k) s = Some cand ->
    exists body r,
      s = body ++ r /\ closes_at_end k body = true
      /\ cand = slice text st (j + length body).
Proof.
  induction s as [|c rest IH]; intros j k cand; [discriminate|].
  cbn [extract_loop]. destruct (is_code 123 c) eqn:Eo.
  - intros H. apply IH in H. destruct H as [body [r [-> [Hb ->]]]].
    exists (c :: body), r. split; [reflexivity|]. split.
    + cbn [closes_at_end]. rewrite Eo. exact Hb.
    + cbn [length]. f_equal. lia.
  - destruct (is_code 125 c) eqn:Ec.
    + destruct k as [|k'].
      * intros H. injection H as <-. exists [c], rest.
        split; [reflexivity|]. split.
        -- cbn [closes_at_end]. rewrite Eo, Ec. reflexivity.
        -- reflexivity.
      * intros H. apply IH in H. destruct H as [body [r [-> [Hb ->]]]].
        exists (c :: body), r. split; [reflexivity|]. split.
        -- cbn [closes_at_end]. rewrite Eo, Ec. exact Hb.
        -- cbn [length]. f_equal. lia.
    + intros H. apply IH in H. destruct H as [body [r [-> [Hb ->]]]].
      exists (c :: body), r. split; [reflexivity|]. split.
      * cbn [closes_at_end]. rewrite Eo, Ec. exact Hb.
      * cbn [length]. f_equal. lia.
Qed.

Lemma extract_loop_outside (text : str) (s : str) :
  forall i cand,
    extract_loop text i None 0 s = Some cand ->
    exists a c body r,
      s = a ++ c :: body ++ r /\ no_open_brace a = true
      /\ is_code 123 c = true /\ closes_at_end 0 body = true
      /\ cand = slice text (i + length a) (i + length a + 1 + length body).
Proof.
  induction s as [|c rest IH]; intros i cand; [discriminate|].
  cbn [extract_loop]. destruct (is_code 123 c) eqn:Eo.
  - intros H. apply extract_loop_inside in H.
    destruct H as [body [r [-> [Hb ->]]]].
    exists [], c, body, r. repeat split; auto; cbn [length]; f_equal; lia.
  - assert (Hnext : extract_loop text (S i) None 0 rest = Some cand ->
              exists a c0 body r,
                c :: rest = a ++ c0 :: body ++ r /\ no_open_brace a = true
                /\ is_code 123 c0 = true /\ closes_at_end 0 body = true
                /\ cand = slice text (i + length a)
                            (i + length a + 1 + length body)).
    { intros H. apply IH in H.
      destruct H as [a [c0 [body [r [-> [Ha [Hc0 [Hb ->]]]]]]]].
      exists (c :: a), c0, body, r. split; [reflexivity|]. split.
      - cbn [no_open_brace forallb]. rewrite Eo. exact Ha.
      - repeat split; auto; cbn [length]; f_equal; lia. }
    destruct (is_code 125 c); exact Hnext.
Qed.

Lemma slice_middle (a obj r : str) :
  slice (a ++ obj ++ r) (length a) (length a + length obj) = obj.
Proof.
  unfold slice. replace (length a + length obj - length a) with (length obj) by lia.
  rewrite skipn_app, skipn_all, Nat.sub_diag. cbn [skipn app].
  rewrite firstn_app, firstn_all, Nat.sub_diag. cbn [firstn]. apply app_nil_r.
Qed.

Lemma extract_first_json_open (a obj r : str) :
  no_open_brace a = true -> balanced_object obj = true ->
  _extract_first_json (a ++ obj ++ r) = Some obj.
Proof.
  intros Ha Hobj. destruct obj as [|c body]; [discriminate|].
  cbn [balanced_object] in Hobj. apply andb_true_iff in Hobj.
  destruct Hobj as [Hc Hb]. unfold _extract_first_json.
  assert (Ht : truthy (a ++ (c :: body) ++ r) = true) by (destruct a; reflexivity).
  rewrite Ht. cbn [negb].
  rewrite extract_loop_skip_open by exact Ha.
  change ((c :: body) ++ r) with (c :: (body ++ r)).
  cbn [extract_loop]. rewrite Hc.
  rewrite (@extract_loop_closes (a ++ c :: body ++ r) body r (0 + length a)
             (S (0 + length a)) 0 Hb).
  f_equal. cbn [Nat.add].
  replace (S (length a + length body)) with (length a + length (c :: body))
    by (cbn [length]; lia).
  exact (slice_middle a (c :: body) r).
Qed.

(** X10. [_extract_first_json] returns [cand] exactly when the text reads
    [a ++ cand ++ r] where [a] holds no opening brace and [cand] begins with
    an opening brace that its last character closes: it finds the first
    brace-balanced span, and nothing else. *)
Theorem extract_first_json_spec (text cand : str) :
  _extract_first_json text = Some cand
  <-> exists a r, text = a ++ cand ++ r
                  /\ no_open_brace a = true /\ balanced_object cand = true.
Proof.
  split.
  - unfold _extract_first_json. destruct (negb (truthy text)); [discriminate|].
    intros H. apply extract_loop_outside in H.
    destruct H as [a [c [body [r [Htext [Ha [Hc [Hb Hcand]]]]]]]].
    exists a, r. cbn [Nat.add] in Hcand.
    assert (Hc' : cand = c :: body).
    { rewrite Hcand, Htext.
      replace (length a + 1 + length body) with (length a + length (c :: body))
        by (cbn [length]; lia).
      exact (slice_middle a (c :: body) r). }
    rewrite Hc'. split; [exact Htext|]. split; [exact Ha|].
    cbn [balanced_object]. rewrite Hc, Hb. reflexivity.
  - intros [a [r [-> [Ha Hb]]]]. apply extract_first_json_open; assumption.
Qed.

Lemma extract_first_json_spec_witness :
  _extract_first_json (lit "a } b " ++ Inputs.reply_object ++ lit " {c}")
  = Some Inputs.reply_object.
Proof.
  apply (proj2 (extract_first_json_spec
                  (lit "a } b " ++ Inputs.reply_object ++ lit " {c}")
                  Inputs.reply_object)).
  exists (lit "a } b "), (lit " {c}"). repeat split; reflexivity.
Defined.

End ExtractionFacts.

Section FenceFacts.
Import Py Json GroqClient Props MoreProps.

Lemma splitlines_aux_line (l : str) :
  forall cur rest, one_line l = true ->
    splitlines_aux cur (l ++ rest) = splitlines_aux (rev l ++ cur) rest.
Proof.
  induction l as [|c l IH]; intros cur rest H; [reflexivity|].
  cbn [one_line forallb] in H. apply andb_true_iff in H. destruct H as [Hc Hl].
  apply negb_true_iff in Hc. cbn [app splitlines_aux]. rewrite Hc.
  rewrite IH by exact Hl. cbn [rev]. rewrite <- app_assoc. reflexivity.
Qed.

Lemma splitlines_aux_nl (cur rest : str) :
  splitlines_aux cur (Re.nl :: rest) = rev cur :: splitlines_aux [] rest.
Proof. destruct rest; reflexivity. Qed.

Lemma join_cons (sep x : str) (l : list str) :
  l <> [] -> join sep (x :: l) = x ++ sep ++ join sep l.
Proof. destruct l; [contradiction|reflexivity]. Qed.

Lemma splitlines_join (lines : list str) (final : str) :
  forallb one_line lines = true -> one_line final = true -> final <> [] ->
  splitlines (join [Re.nl] (lines ++ [final])) = lines ++ [final].
Proof.
  intros Hlines Hfinal Hne. unfold splitlines.
  induction lines as [|x r IH].
  - cbn [app join]. rewrite <- (app_nil_r final) at 1.
    rewrite splitlines_aux_line by exact Hfinal. rewrite app_nil_r.
    cbn [splitlines_aux]. destruct (rev final) eqn:E.
    + apply (f_equal (@rev ascii)) in E. rewrite rev_involutive in E.
      contradiction.
    + rewrite <- E, rev_involutive. reflexivity.
  - cbn [forallb] in Hlines. apply andb_true_iff in Hlines.
    destruct Hlines as [Hx Hr]. cbn [app].
    rewrite join_cons by (destruct r; discriminate).
    rewrite splitlines_aux_line by exact Hx. rewrite app_nil_r.
    cbn [app]. rewrite splitlines_aux_nl, rev_involutive, (IH Hr). reflexivity.
Qed.

Lemma startswith_app (p x : str) : startswith (p ++ x) p = true.
Proof.
  induction p as [|c p IH]; [destruct x; reflexivity|].
  cbn [app startswith]. rewrite Ascii.eqb_refl. exact IH.
Qed.

Lemma join_snoc (sep x : str) (l : list str) :
  l <> [] -> join sep (l ++ [x]) = join sep l ++ sep ++ x.
Proof.
  induction l as [|y [|z r] IH]; intros H; [contradiction|reflexivity|].
  change ((y :: z :: r) ++ [x]) with (y :: ((z :: r) ++ [x])).
  rewrite join_cons by discriminate. rewrite IH by discriminate.
  rewrite (@join_cons sep y (z :: r)) by discriminate.
  rewrite <- !app_assoc. reflexivity.
Qed.

(** The shape of a fenced reply: it begins with the fence and ends with
    it. *)
Lemma fenced_shape (tag : str) (body : list str) :
  exists middle, fenced tag body = fence ++ middle ++ fence.
Proof.
  unfold fenced.
  change ((fence ++ tag) :: body ++ [fence])
    with (((fence ++ tag) :: body) ++ [fence]).
  rewrite join_snoc by discriminate.
  destruct body as [|b body'].
  - exists (tag ++ [Re.nl]). cbn [join]. rewrite <- !app_assoc. reflexivity.
  - rewrite join_cons by discriminate.
    exists (tag ++ [Re.nl] ++ join [Re.nl] (b :: body') ++ [Re.nl]).
    rewrite <- !app_assoc. reflexivity.
Qed.

Lemma strip_fenced (middle : str) :
  strip (fence ++ middle ++ fence) = fence ++ middle ++ fence.
Proof.
  assert (E : fence ++ middle ++ fence
              = (fence ++ middle ++ lit "``") ++ [chr 96]).
  { rewrite <- !app_assoc. reflexivity. }
  assert (Hr : rstrip (fence ++ middle ++ fence) = fence ++ middle ++ fence).
  { pose proof (@rstrip_app_nonspace (fence ++ middle ++ fence) [] (chr 96)
                  (fence ++ middle ++ lit "``") E eq_refl) as H.
    rewrite app_nil_r in H. rewrite H. apply app_nil_r. }
  unfold strip. rewrite Hr.
  exact (@lstrip_app_nonspace [] (fence ++ middle ++ fence) (chr 96)
           (lit "``" ++ middle ++ fence) eq_refl eq_refl).
Qed.

Lemma strip_code_fences_fenced_aux (tag : str) (body : list str) :
  one_line tag = true -> forallb one_line body = true ->
  _strip_code_fences (fenced tag body) = strip (join [Re.nl] body).
Proof.
  intros Htag Hbody. destruct (fenced_shape tag body) as [middle Hm].
  unfold _strip_code_fences.
  assert (Ht : truthy (fenced tag body) = true) by (rewrite Hm; reflexivity).
  rewrite Ht. cbn [negb]. rewrite Hm, strip_fenced.
  rewrite startswith_app.
  assert (He : endswith (fence ++ middle ++ fence) fence = true).
  { unfold endswith. rewrite !rev_app_distr, <- app_assoc. apply startswith_app. }
  rewrite He. cbn [andb]. rewrite <- Hm. unfold fenced.
  change ((fence ++ tag) :: body ++ [fence])
    with (((fence ++ tag) :: body) ++ [fence]).
  rewrite splitlines_join.
  - unfold drop_first_last. cbn [app tl]. rewrite removelast_last. reflexivity.
  - cbn [forallb]. rewrite Hbody, andb_true_r.
    unfold one_line. rewrite forallb_app. fold (one_line tag). rewrite Htag.
    reflexivity.
  - reflexivity.
  - discriminate.
Qed.

(** X9. A fence on lines of its own is removed and nothing else: for an
    opening fence line with any language tag, body lines free of line
    boundaries and a closing fence line, [_strip_code_fences] returns the
    body lines, joined as they were, stripped. *)
Theorem strip_code_fences_fenced (tag : str) (body : list str) :
  one_line tag = true -> forallb one_line body = true ->
  _strip_code_fences (fenced tag body) = strip (join [Re.nl] body).
Proof. apply strip_code_fences_fenced_aux. Qed.

Lemma strip_code_fences_fenced_witness :
  _strip_code_fences (fenced (lit "json") [lit "{"; Inputs.reply_object; lit "}"])
  = strip (join [Re.nl] [lit "{"; Inputs.reply_object; lit "}"]).
Proof.
  apply (@strip_code_fences_fenced (lit "json")
           [lit "{"; Inputs.reply_object; lit "}"]); reflexivity.
Defined.

(** X11. The parser recovers a well-formed value with or without a fence: from
    a properly fenced reply it returns what [json.loads] makes of the body,
    and from a reply that is not enclosed in backticks what [json.loads]
    makes of the trimmed reply. *)
Theorem parse_json_strict_well_formed (v : json) :
  (forall (tag : str) (body : list str),
      one_line tag = true -> forallb one_line body = true ->
      json_loads (strip (join [Re.nl] body)) = Some v ->
      _parse_json_strict (fenced tag body) = v)
  /\ (forall text : str,
         enclosed_in_fence text = false ->
         json_loads (strip text) = Some v ->
         _parse_json_strict text = v).
Proof.
  split.
  - intros tag body Htag Hbody Hv. unfold _parse_json_strict.
    destruct (fenced_shape tag body) as [middle Hm].
    assert (Ht : truthy (fenced tag body) = true) by (rewrite Hm; reflexivity).
    rewrite Ht. cbn [negb].
    rewrite strip_code_fences_fenced_aux by assumption. rewrite Hv. reflexivity.
  - intros text Hf Hv. unfold _parse_json_strict, _strip_code_fences.
    destruct text as [|c t]; [discriminate|]. cbn [truthy negb].
    unfold enclosed_in_fence in Hf. rewrite Hf, Hv. reflexivity.
Qed.

Lemma parse_json_strict_well_formed_witness :
  _parse_json_strict (fenced (lit "json") [Inputs.reply_object])
  = Inputs.reply_value
  /\ _parse_json_strict (esc "  \n" ++ Inputs.reply_object ++ esc "\n")
     = Inputs.reply_value.
Proof.
  split.
  - apply (proj1 (parse_json_strict_well_formed Inputs.reply_value));
      vm_compute; reflexivity.
  - apply (proj2 (parse_json_strict_well_formed Inputs.reply_value));
      vm_compute; reflexivity.
Defined.

End FenceFacts.

(** ** The model call: what it returns and what it costs *)
Section CallFacts.
Import Py Json World GroqClient Props MoreProps.

Lemma parse_reply_dict (j v : json) : parse_reply j = Ok v -> is_dict v = true.
Proof.
  unfold parse_reply. destruct (content_of j) as [content|e]; cbn [bind];
    [|discriminate].
  destruct (negb (json_truthy content)); [discriminate|].
  destruct content; try discriminate.
  destruct (_parse_json_strict s); try discriminate.
  intros H. injection H as <-. reflexivity.
Qed.

Lemma attempt_reply_dict (E : env) (n : nat) (req : request) (v : json) :
  attempt_reply E n req = Ok v -> is_dict v = true.
Proof.
  unfold attempt_reply. destruct (http_post E n req); cbn [bind];
    [apply parse_reply_dict|discriminate].
Qed.

Lemma sleeps_app (w1 w2 : world) : sleeps (w1 ++ w2) = sleeps w1 ++ sleeps w2.
Proof. unfold sleeps. apply flat_map_app. Qed.

(** Any run of the retry loop: the world grows by requests and sleeps only,
    at most one request per attempt number, a sleep only after an attempt
    numbered [max_retries] or less, and a value returned is an object. *)
Lemma retry_loop_run (E : env) (req : request) (max_retries : Z)
  (attempts : list Z) :
  forall w, exists r evs,
    retry_loop E req max_retries attempts w = (r, w ++ evs)
    /\ forallb is_request_or_sleep evs = true
    /\ count is_post evs <= length attempts
    /\ length (sleeps evs)
       <= length (filter (fun a => (a <=? max_retries)%Z) attempts)
    /\ Forall (fun d => exists a, In a attempts /\ (a <= max_retries)%Z
                                  /\ d = (RETRY_DELAY * a)%Z) (sleeps evs)
    /\ (forall v, r = Ok v -> is_dict v = true).
Proof.
  induction attempts as [|a rest IH]; intros w.
  - exists (Raise (RuntimeError "GROQ call failed")), [].
    cbn [retry_loop]. unfold raise. rewrite app_nil_r.
    repeat split; try reflexivity; try constructor. intros v H. discriminate.
  - cbn [retry_loop]. unfold try_except at 1. rewrite attempt_once_eq.
    destruct (attempt_reply E (count is_post w) req) as [parsed|e] eqn:Er.
    + exists (Ok parsed), [EvPost req]. split; [reflexivity|].
      split; [reflexivity|]. split; [cbn; lia|]. split; [cbn; lia|].
      split; [constructor|].
      intros v H. injection H as <-. eapply attempt_reply_dict. exact Er.
    + unfold mbind at 1. destruct (a <=? max_retries)%Z eqn:Ea.
      * unfold emit at 1.
        destruct (IH ((w ++ [EvPost req]) ++ [EvSleep (RETRY_DELAY * a)]))
          as [r [evs [Hrun [Hkind [Hposts [Hlen [Hsl Hdict]]]]]]].
        exists r, (EvPost req :: EvSleep (RETRY_DELAY * a) :: evs).
        split; [rewrite Hrun, <- !app_assoc; reflexivity|].
        split; [cbn [forallb is_request_or_sleep andb]; exact Hkind|].
        split; [unfold count in *; cbn [filter is_post length]; lia|].
        split; [cbn [filter]; rewrite Ea; unfold sleeps in *;
                cbn [flat_map app length]; lia|].
        split; [|exact Hdict].
        unfold sleeps in *. cbn [flat_map app]. constructor.
        -- exists a. split; [left; reflexivity|].
           split; [apply Z.leb_le; exact Ea|reflexivity].
        -- eapply Forall_impl; [|exact Hsl]. intros d [a' [Hin H]].
           exists a'. split; [right; exact Hin|exact H].
      * unfold ret at 1.
        destruct (IH (w ++ [EvPost req]))
          as [r [evs [Hrun [Hkind [Hposts [Hlen [Hsl Hdict]]]]]]].
        exists r, (EvPost req :: evs).
        split; [rewrite Hrun, <- !app_assoc; reflexivity|].
        split; [cbn [forallb is_request_or_sleep andb]; exact Hkind|].
        split; [unfold count in *; cbn [filter is_post length]; lia|].
        split; [cbn [filter]; rewrite Ea; unfold sleeps in *;
                cbn [flat_map app]; exact Hlen|].
        split; [|exact Hdict].
        unfold sleeps in *. cbn [flat_map app].
        eapply Forall_impl; [|exact Hsl]. intros d [a' [Hin H]].
        exists a'. split; [right; exact Hin|exact H].
Qed.

Lemma attempt_numbers_in (max_retries a : Z) :
  In a (attempt_numbers max_retries) -> (1 <= a <= max_retries + 1)%Z.
Proof.
  unfold attempt_numbers. intros H. apply in_map_iff in H.
  destruct H as [k [<- Hk]]. apply in_seq in Hk. lia.
Qed.

Lemma attempt_numbers_sleeping (max_retries : Z) :
  length (filter (fun a => (a <=? max_retries)%Z) (attempt_numbers max_retries))
  <= Z.to_nat max_retries.
Proof.
  unfold attempt_numbers.
  destruct (Z.to_nat (max_retries + 1)) as [|n] eqn:En; [cbn; lia|].
  rewrite seq_S, map_app, filter_app, length_app. cbn [map filter].
  assert (Hlast : (Z.of_nat (1 + n) <=? max_retries)%Z = false)
    by (apply Z.leb_gt; lia).
  rewrite Hlast. cbn [length].
  pose proof (filter_length_le (fun a => (a <=? max_retries)%Z)
                (map Z.of_nat (seq 1 n))) as H.
  rewrite length_map, length_seq in H. lia.
Qed.

(** The whole call: see [call_groq_chat_run_bounds]. *)
Lemma call_groq_chat_run (E : env)
  (user_prompt system_prompt model temperature : str)
  (max_tokens timeout max_retries : Z) (w : world) :
  exists r evs,
    call_groq_chat E user_prompt system_prompt model temperature max_tokens
      timeout max_retries w = (r, w ++ evs)
    /\ forallb is_request_or_sleep evs = true
    /\ posts evs <= Z.to_nat (max_retries + 1)
    /\ length (sleeps evs) <= Z.to_nat max_retries
    /\ Forall (fun d => (RETRY_DELAY <= d <= RETRY_DELAY * max_retries)%Z)
              (sleeps evs)
    /\ (forall v, r = Ok v -> is_dict v = true).
Proof.
  unfold call_groq_chat. destruct (negb (truthy (GROQ_API_KEY E))).
  - exists (Raise (EnvironmentError "GROQ_API_KEY not set in environment.")), [].
    unfold raise. rewrite app_nil_r.
    repeat split; try reflexivity; try constructor; try (cbn; lia).
    intros v H. discriminate.
  - match goal with
    | |- context [retry_loop E ?req max_retries _ w] =>
        destruct (retry_loop_run E req max_retries (attempt_numbers max_retries) w)
          as [r [evs [Hrun [Hkind [Hposts [Hlen [Hsl Hdict]]]]]]]
    end.
    exists r, evs. split; [exact Hrun|]. split; [exact Hkind|].
    split. { unfold posts. unfold attempt_numbers in Hposts.
             rewrite length_map, length_seq in Hposts. exact Hposts. }
    split. { pose proof (attempt_numbers_sleeping max_retries). lia. }
    split; [|exact Hdict].
    eapply Forall_impl; [|exact Hsl]. intros d [a [Hin [Hle ->]]].
    apply attempt_numbers_in in Hin. unfold RETRY_DELAY. lia.
Qed.

(** X12. Whatever the service answers, [call_groq_chat] adds to the world
    requests and sleeps only, makes at most [max_retries + 1] requests (none
    when that number is negative), sleeps at most [max_retries] times, each
    time between [RETRY_DELAY] and [RETRY_DELAY] times [max_retries]
    seconds, and a value it returns is a JSON object. *)
Theorem call_groq_chat_run_bounds (E : env)
  (user_prompt system_prompt model temperature : str)
  (max_tokens timeout max_retries : Z) (w : world) :
  exists r evs,
    call_groq_chat E user_prompt system_prompt model temperature max_tokens
      timeout max_retries w = (r, w ++ evs)
    /\ forallb is_request_or_sleep evs = true
    /\ posts evs <= Z.to_nat (max_retries + 1)
    /\ length (sleeps evs) <= Z.to_nat max_retries
    /\ Forall (fun d => (RETRY_DELAY <= d <= RETRY_DELAY * max_retries)%Z)
              (sleeps evs)
    /\ (forall v, r = Ok v -> is_dict v = true).
Proof. apply call_groq_chat_run. Qed.

End CallFacts.

Section LangchainFacts.
Import Py Json World GroqClient Langchain Props MoreProps.

(** X13. With an API key, the Langchain entry point makes of a message content
    what one attempt of [call_groq_chat] makes of a chat completion carrying
    that content: the same object or the same exception; and what it
    returns is always a JSON object. *)
Theorem call_groq_chat_langchain_agrees (api_key : str) :
  (api_key <> [] ->
   forall content : str,
     call_groq_chat_langchain api_key (Ok (JStr content))
     = parse_reply (Inputs.completion content))
  /\ (forall (reply : result json) (v : json),
         call_groq_chat_langchain api_key reply = Ok v ->
         is_dict v = true /\ api_key <> []).
Proof.
  split.
  - intros Hkey content. unfold call_groq_chat_langchain.
    destruct api_key as [|k key]; [contradiction|]. cbn [truthy negb bind].
    unfold parse_reply, Inputs.completion.
    destruct content as [|c t]; reflexivity.
  - intros reply v. unfold call_groq_chat_langchain.
    destruct api_key as [|k key]; [discriminate|]. cbn [truthy negb].
    destruct reply as [content|e]; cbn [bind]; [|discriminate].
    destruct (negb (json_truthy content)); [discriminate|].
    destruct content; try discriminate.
    destruct (_parse_json_strict s); try discriminate.
    intros H. injection H as <-. split; [reflexivity|discriminate].
Qed.

Lemma call_groq_chat_langchain_agrees_witness :
  call_groq_chat_langchain (lit "gsk-test") (Ok (JStr Inputs.reply_object))
  = parse_reply (Inputs.completion Inputs.reply_object)
  /\ is_dict Inputs.reply_value = true.
Proof.
  split.
  - apply (proj1 (call_groq_chat_langchain_agrees (lit "gsk-test"))).
    discriminate.
  - apply (proj2 (call_groq_chat_langchain_agrees (lit "gsk-test"))
             (Ok (JStr Inputs.reply_object)) Inputs.reply_value).
    vm_compute. reflexivity.
Defined.

End LangchainFacts.

(** ** The keyword fallback: what it returns in every case *)
Section FallbackFacts.
Import Py Json World Clauses Analyzer Props MoreProps.

Lemma In_take {A : Type} (k : Z) (l : list A) (x : A) : In x (take k l) -> In x l.
Proof. unfold take. destruct (0 <=? k)%Z; apply In_firstn. Qed.

Lemma take_length {A : Type} (k : Z) (l : list A) : length (take k l) <= length l.
Proof. unfold take. destruct (0 <=? k)%Z; rewrite length_firstn; lia. Qed.

(** X14. For every clause text and every integer [top_k], zero and negative
    ones included: nothing is returned when the corpus cannot be loaded,
    when the clause text is empty or when [top_k] is 0, and whatever is
    returned is a reference of the corpus, no more of them than the corpus
    holds. *)
Theorem fallback_precedents_from_corpus (E : env) (clause_text : str)
  (top_k : Z) :
  let r := _fallback_precedents E clause_text top_k in
  (corpus_file E = None -> r = [])
  /\ (clause_text = [] -> r = [])
  /\ (top_k = 0%Z -> r = [])
  /\ (forall ps, corpus_file E = Some ps -> incl r ps /\ length r <= length ps).
Proof.
  cbv zeta. unfold _fallback_precedents. split; [|split; [|split]].
  - intros ->. destruct (negb (truthy clause_text)); reflexivity.
  - intros ->. reflexivity.
  - intros ->. destruct (negb (truthy clause_text)); [reflexivity|].
    destruct (corpus_file E); reflexivity.
  - intros ps ->. destruct (negb (truthy clause_text)).
    + split; [intros x Hx; contradiction|cbn; lia].
    + match goal with
      | |- context [if nonempty ?h then _ else _] => set (hits := h)
      end.
      assert (Hin : incl hits ps).
      { intros p Hp. unfold hits in Hp. apply in_map_iff in Hp.
        destruct Hp as [sp [<- Hsp]]. apply filter_In in Hsp.
        destruct Hsp as [Hsp _]. apply In_take in Hsp.
        apply (Permutation_in _ (sort_desc_perm _)) in Hsp.
        apply in_map_iff in Hsp. destruct Hsp as [p [<- Hp]]. exact Hp. }
      assert (Hlen : length hits <= length ps).
      { unfold hits. rewrite length_map.
        match goal with
        | |- length (filter ?f ?l) <= _ => pose proof (filter_length_le f l) as H1
        end.
        match type of H1 with
        | _ <= length (take ?k ?l) => pose proof (take_length k l) as H2
        end.
        rewrite (Permutation_length (sort_desc_perm _)), length_map in H2. lia. }
      destruct (nonempty hits); [split; assumption|]. split.
      * intros p Hp. apply In_take in Hp. exact Hp.
      * apply take_length.
Qed.

Lemma fallback_precedents_from_corpus_witness :
  _fallback_precedents Inputs.env_no_key (lit "Payment terms") 0 = []
  /\ _fallback_precedents Inputs.env_no_key [] 3 = []
  /\ incl (_fallback_precedents Inputs.env_no_key (lit "Payment terms") (-1))
          [lit "Either party may terminate this agreement.";
           lit "Payment is due within thirty days.";
           lit "The lease term is one year."]
  /\ length (_fallback_precedents Inputs.env_no_key (lit "Payment terms") (-1))
     <= 3.
Proof.
  split; [|split].
  - apply (proj1 (proj2 (proj2 (@fallback_precedents_from_corpus
                                  Inputs.env_no_key (lit "Payment terms") 0)))).
    reflexivity.
  - apply (proj1 (proj2 (@fallback_precedents_from_corpus
                           Inputs.env_no_key [] 3))).
    reflexivity.
  - apply (proj2 (proj2 (proj2 (@fallback_precedents_from_corpus
                                  Inputs.env_no_key (lit "Payment terms") (-1))))).
    reflexivity.
Defined.

Lemma StronglySorted_app_order {A : Type} (R : A -> A -> Prop) (l1 l2 : list A) :
  StronglySorted R (l1 ++ l2) ->
  forall x y, In x l1 -> In y l2 -> R x y.
Proof.
  induction l1 as [|a l1 IH]; intros Hs x y Hx Hy; [contradiction|].
  cbn [app] in Hs. apply StronglySorted_inv in Hs. destruct Hs as [Hs Ha].
  destruct Hx as [->|Hx].
  - rewrite Forall_forall in Ha. apply Ha. apply in_or_app. right. exact Hy.
  - apply IH; assumption.
Qed.

(** X15. The references returned for their score are the best ones: a reference
    of the corpus that is not returned scores no higher than any reference
    that is. *)
Theorem fallback_precedents_best (E : env) (clause_text : str) (top_k : Z)
  (ps : list str) :
  clause_text <> [] -> (0 < top_k)%Z -> corpus_file E = Some ps ->
  (exists p, In p ps /\ 0 < score clause_text p) ->
  let r := _fallback_precedents E clause_text top_k in
  forall p q, In p ps -> ~ In p r -> In q r ->
              score clause_text p <= score clause_text q.
Proof.
  intros Hne Hk Hc [p0 [Hp0 Hpos0]] r p q Hp Hnot Hq.
  assert (Er : r = hits_of clause_text ps (Z.to_nat top_k)).
  { unfold r. rewrite (@fallback_eq clause_text E top_k ps Hne Hk Hc).
    assert (Hsome : hits_of clause_text ps (Z.to_nat top_k) <> []).
    { replace (Z.to_nat top_k) with (S (Z.to_nat top_k - 1)) by lia.
      exact (@hits_some clause_text ps (Z.to_nat top_k - 1) p0 Hp0 Hpos0). }
    destruct (hits_of clause_text ps (Z.to_nat top_k)); [contradiction|reflexivity]. }
  rewrite Er in Hnot, Hq. unfold hits_of in Hnot, Hq.
  set (sorted := sort_desc (scored_of clause_text ps)) in *.
  set (k := Z.to_nat top_k) in *.
  apply in_map_iff in Hq. destruct Hq as [sq [<- Hsq]].
  apply filter_In in Hsq. destruct Hsq as [Hsq Hposq].
  apply Nat.ltb_lt in Hposq.
  assert (Hwq : well_scored clause_text sq).
  { pose proof (sorted_well_scored clause_text ps) as Hw.
    rewrite Forall_forall in Hw. apply Hw. eapply In_firstn. exact Hsq. }
  unfold well_scored in Hwq.
  assert (Hin : In (score clause_text p, p) sorted).
  { apply (Permutation_in _ (Permutation_sym (sort_desc_perm _))).
    apply in_map_iff. exists p. auto. }
  rewrite <- (firstn_skipn k sorted) in Hin. apply in_app_or in Hin.
  destruct Hin as [Hin|Hin].
  - destruct (0 <? score clause_text p) eqn:Epos.
    + exfalso. apply Hnot. apply in_map_iff.
      exists (score clause_text p, p). split; [reflexivity|].
      apply filter_In. split; [exact Hin|exact Epos].
    + apply Nat.ltb_ge in Epos. lia.
  - pose proof (sort_desc_sorted (scored_of clause_text ps)) as Hs.
    fold sorted in Hs. rewrite <- (firstn_skipn k sorted) in Hs.
    pose proof (@StronglySorted_app_order _ by_score _ _ Hs _ _ Hsq Hin) as Ho.
    unfold by_score in Ho. cbn [fst] in Ho. lia.
Qed.

Lemma fallback_precedents_best_witness :
  _fallback_precedents Inputs.env_no_key
    (lit "Payment of the lease term is due") 1
  = [lit "The lease term is one year."]
  /\ score (lit "Payment of the lease term is due")
           (lit "Payment is due within thirty days.")
     <= score (lit "Payment of the lease term is due")
              (lit "The lease term is one year.").
Proof.
  split; [reflexivity|].
  apply (@fallback_precedents_best Inputs.env_no_key
           (lit "Payment of the lease term is due") 1
           [lit "Either party may terminate this agreement.";
            lit "Payment is due within thirty days.";
            lit "The lease term is one year."]).
  - discriminate.
  - lia.
  - reflexivity.
  - exists (lit "Payment is due within thirty days."). split.
    + right. left. reflexivity.
    + vm_compute. lia.
  - right. left. reflexivity.
  - vm_compute. intros [H|[]]. discriminate H.
  - vm_compute. left. reflexivity.
Defined.

Lemma lower_length (s : str) : length (lower s) = length s.
Proof. unfold lower. apply length_map. Qed.

(** X16. The resolver ignores the letter case of the clause text: two clause
    texts with the same lower-case form get the same references. *)
Theorem fallback_precedents_ignores_case (E : env) (a b : str) (top_k : Z) :
  lower a = lower b ->
  _fallback_precedents E a top_k = _fallback_precedents E b top_k.
Proof.
  intros H. unfold _fallback_precedents.
  assert (Ht : truthy a = truthy b).
  { pose proof (lower_length a) as Ha. pose proof (lower_length b) as Hb.
    rewrite H in Ha. destruct a, b; cbn in *; try reflexivity; lia. }
  rewrite Ht. destruct (negb (truthy b)); [reflexivity|].
  destruct (corpus_file E) as [ps|]; [|reflexivity].
  assert (Hs : forall p, score a p = score b p).
  { intros p. unfold score, word_set. rewrite H. reflexivity. }
  assert (Hm : map (fun p => (score a p, p)) ps
               = map (fun p => (score b p, p)) ps).
  { apply map_ext. intros p. rewrite Hs. reflexivity. }
  rewrite Hm. reflexivity.
Qed.

Lemma fallback_precedents_ignores_case_witness :
  _fallback_precedents Inputs.env_no_key (lit "PAYMENT is Due") 2
  = _fallback_precedents Inputs.env_no_key (lit "payment IS due") 2.
Proof.
  apply (@fallback_precedents_ignores_case Inputs.env_no_key
           (lit "PAYMENT is Due") (lit "payment IS due") 2).
  reflexivity.
Defined.

End FallbackFacts.

(** ** The analysis: results, effects and trace *)
Section RunFacts.
Import Py Json World Clauses GroqClient Analyzer Props MoreProps.

Lemma quiet_events (evs : world) :
  forallb is_request_or_sleep evs = true ->
  clock_reads evs = 0 /\ trace_attempts evs = 0 /\ traces evs = [].
Proof.
  unfold clock_reads, trace_attempts, count, traces.
  induction evs as [|e evs IH]; [repeat split; reflexivity|].
  cbn [forallb]. intros H. apply andb_true_iff in H. destruct H as [He H].
  destruct (IH H) as [H1 [H2 H3]].
  destruct e; try discriminate; cbn [filter is_now is_trace_attempt flat_map app];
    repeat split; assumption.
Qed.

Variable E : env.
Variable coll : option collection.
Variable top_k : Z.
Variable temperature : str.
Variable max_tokens : Z.

(** One clause, whatever the service answers. *)
Lemma analyze_clause_run (cid : nat) (clause_text : str) (w : world) :
  exists obj evs,
    analyze_clause E coll top_k temperature max_tokens cid clause_text w
    = (Ok obj, w ++ evs)
    /\ res_clause_id obj = cid
    /\ res_clause obj = clause_text
    /\ res_ts obj = clock E (clock_reads w)
    /\ res_precedents obj = _query_precedents E coll clause_text top_k
    /\ is_dict (res_analysis obj) = true
    /\ clock_reads evs = 1
    /\ trace_attempts evs = 1
    /\ posts evs <= 3
    /\ (traces evs = [] \/ exists t, traces evs = [t] /\ entry_matches t obj)
    /\ ((forall n, trace_writable E n = true) ->
        exists t, traces evs = [t] /\ entry_matches t obj).
Proof.
  unfold analyze_clause.
  unfold mbind at 1. unfold now at 1.
  unfold mbind at 1. unfold try_except at 1. unfold mbind at 1.
  destruct (call_groq_chat_run E (prompt_of clause_text) SYSTEM_PROMPT
              (GROQ_MODEL E) temperature max_tokens DEFAULT_TIMEOUT MAX_RETRIES
              (w ++ [EvNow]))
    as [r [cevs [Hcall [Hkind [Hposts [_ [_ Hdict]]]]]]].
  rewrite Hcall.
  destruct (quiet_events _ Hkind) as [Hq1 [Hq2 Hq3]].
  assert (Hp3 : posts cevs <= 3) by (change 3 with (Z.to_nat (MAX_RETRIES + 1)); exact Hposts).
  assert (Hcounts : forall last,
             is_trace_attempt last = true -> is_now last = false ->
             is_post last = false ->
             clock_reads (EvNow :: cevs ++ [last]) = 1
             /\ trace_attempts (EvNow :: cevs ++ [last]) = 1
             /\ posts (EvNow :: cevs ++ [last]) <= 3).
  { intros last H1 H2 H3. unfold clock_reads, trace_attempts, posts, count in *.
    cbn [filter is_now is_trace_attempt is_post].
    rewrite !filter_app, !length_app. cbn [filter]. rewrite H1, H2, H3.
    rewrite ?app_nil_r. cbn [length]. lia. }
  assert (Htr : forall last, traces (EvNow :: cevs ++ [last]) = traces [last]).
  { intros last. change (EvNow :: cevs ++ [last]) with ([EvNow] ++ cevs ++ [last]).
    rewrite !traces_app, Hq3. reflexivity. }
  destruct r as [parsed|e].
  - unfold ret at 1. unfold mbind at 1. unfold _log_trace at 1.
    destruct (trace_writable E (count is_trace_attempt ((w ++ [EvNow]) ++ cevs)))
      eqn:Ew; unfold ret.
    + eexists. eexists (EvNow :: cevs ++ [EvTrace _]).
      split; [rewrite <- !app_assoc; reflexivity|].
      split; [reflexivity|]. split; [reflexivity|]. split; [reflexivity|].
      split; [reflexivity|].
      split; [apply Hdict; reflexivity|].
      destruct (Hcounts (EvTrace
        {| tr_ts := clock E (count is_now w); tr_clause_id := cid;
           tr_clause_length := length clause_text;
           tr_prompt := firstn 500 (prompt_of clause_text); tr_error := None;
           tr_response := parsed; tr_risk_score := risk_score_of parsed;
           tr_precedents := _query_precedents E coll clause_text top_k |})
        eq_refl eq_refl eq_refl) as [H1 [H2 H3]].
      split; [exact H1|]. split; [exact H2|]. split; [exact H3|].
      rewrite Htr. split.
      * right. eexists. split; [reflexivity|]. repeat split.
      * intros _. eexists. split; [reflexivity|]. repeat split.
    + eexists. eexists (EvNow :: cevs ++ [EvTraceFailed]).
      split; [rewrite <- !app_assoc; reflexivity|].
      split; [reflexivity|]. split; [reflexivity|]. split; [reflexivity|].
      split; [reflexivity|].
      split; [apply Hdict; reflexivity|].
      destruct (Hcounts EvTraceFailed eq_refl eq_refl eq_refl) as [H1 [H2 H3]].
      split; [exact H1|]. split; [exact H2|]. split; [exact H3|].
      rewrite Htr. split; [left; reflexivity|].
      intros Hw. rewrite Hw in Ew. discriminate.
  - unfold ret at 1. unfold mbind at 1. unfold _log_trace at 1.
    destruct (trace_writable E (count is_trace_attempt ((w ++ [EvNow]) ++ cevs)))
      eqn:Ew; unfold ret.
    + eexists. eexists (EvNow :: cevs ++ [EvTrace _]).
      split; [rewrite <- !app_assoc; reflexivity|].
      split; [reflexivity|]. split; [reflexivity|]. split; [reflexivity|].
      split; [reflexivity|].
      split; [reflexivity|].
      destruct (Hcounts (EvTrace
        {| tr_ts := clock E (count is_now w); tr_clause_id := cid;
           tr_clause_length := length clause_text;
           tr_prompt := firstn 500 (prompt_of clause_text); tr_error := Some e;
           tr_response := llm_error_result;
           tr_risk_score := risk_score_of llm_error_result;
           tr_precedents := _query_precedents E coll clause_text top_k |})
        eq_refl eq_refl eq_refl) as [H1 [H2 H3]].
      split; [exact H1|]. split; [exact H2|]. split; [exact H3|].
      rewrite Htr. split.
      * right. eexists. split; [reflexivity|]. repeat split.
      * intros _. eexists. split; [reflexivity|]. repeat split.
    + eexists. eexists (EvNow :: cevs ++ [EvTraceFailed]).
      split; [rewrite <- !app_assoc; reflexivity|].
      split; [reflexivity|]. split; [reflexivity|]. split; [reflexivity|].
      split; [reflexivity|].
      split; [reflexivity|].
      destruct (Hcounts EvTraceFailed eq_refl eq_refl eq_refl) as [H1 [H2 H3]].
      split; [exact H1|]. split; [exact H2|]. split; [exact H3|].
      rewrite Htr. split; [left; reflexivity|].
      intros Hw. rewrite Hw in Ew. discriminate.
Qed.

(** The loop, whatever the service answers. *)
Lemma analyze_loop_run (clauses : list clause) :
  forall (results : list analysis_obj) (w : world),
    exists out evs,
      analyze_loop E coll top_k temperature max_tokens clauses results w
      = (Ok (results ++ out), w ++ evs)
      /\ map result_key out = map clause_key (filter eligible clauses)
      /\ Forall (fun r => is_dict (res_analysis r) = true
                          /\ res_precedents r
                             = _query_precedents E coll (res_clause r) top_k) out
      /\ map res_ts out = map (clock E) (seq (clock_reads w) (length out))
      /\ clock_reads evs = length out
      /\ trace_attempts evs = length out
      /\ posts evs <= 3 * length out
      /\ length (traces evs) <= length out
      /\ ((forall n, trace_writable E n = true) ->
          Forall2 entry_matches (traces evs) out).
Proof.
  induction clauses as [|cl rest IH]; intros results w.
  - exists [], []. cbn [analyze_loop]. unfold ret. rewrite !app_nil_r.
    repeat split; try reflexivity; try constructor.
  - cbn [analyze_loop filter]. unfold eligible at 1.
    destruct (truthy (strip (clause_text cl))) eqn:Et; cbn [negb].
    + unfold mbind at 1.
      destruct (analyze_clause_run (clause_id cl) (strip (clause_text cl)) w)
        as [obj [evs1 [Erun [Hid [Htext [Hts [Hprec [Hdict [Hc1 [Ht1 [Hp1 [Htr1 Hw1]]]]]]]]]]]].
      rewrite Erun.
      destruct (IH (results ++ [obj]) (w ++ evs1))
        as [out [evs2 [Eloop [Hkeys [Hall [Hts2 [Hc2 [Ht2 [Hp2 [Hl2 Hw2]]]]]]]]]].
      exists (obj :: out), (evs1 ++ evs2).
      split; [rewrite Eloop, <- !app_assoc; reflexivity|].
      split. { cbn [map]. rewrite Hkeys. unfold result_key at 1, clause_key at 2.
               rewrite Hid, Htext. reflexivity. }
      split. { constructor; [|exact Hall]. split; [exact Hdict|].
               rewrite Hprec, Htext. reflexivity. }
      split. { cbn [map length seq]. rewrite Hts, Hts2. unfold clock_reads.
               rewrite count_app. fold (clock_reads w). fold (clock_reads evs1).
               rewrite Hc1, Nat.add_1_r. reflexivity. }
      unfold clock_reads, trace_attempts, posts in *.
      rewrite !count_app, traces_app, length_app. cbn [length].
      split; [lia|]. split; [lia|]. split; [lia|]. split.
      * destruct Htr1 as [->|[t [-> _]]]; cbn [length]; lia.
      * intros Hw. destruct (Hw1 Hw) as [t [-> Hm]]. cbn [app].
        constructor; [exact Hm|apply Hw2; exact Hw].
    + apply IH.
Qed.

End RunFacts.

Section RunClaims.
Import Py Json World Clauses GroqClient Analyzer Props MoreProps.

Lemma analyze_document_text_run (E : env) (text : str)
  (max_clauses : option Z) (top_k max_tokens : Z) (temperature : str)
  (w : world) :
  exists cs results evs,
    split_into_clauses_default text = Ok cs
    /\ analyze_document_text E text max_clauses top_k max_tokens temperature w
       = (Ok results, w ++ evs)
    /\ map result_key results
       = map clause_key (filter eligible (processed max_clauses cs))
    /\ Forall (fun r => is_dict (res_analysis r) = true
                        /\ res_precedents r
                           = _fallback_precedents E (res_clause r) top_k) results
    /\ map res_ts results
       = map (clock E) (seq (clock_reads w) (length results))
    /\ clock_reads evs = length results
    /\ trace_attempts evs = length results
    /\ posts evs <= 3 * length results
    /\ length (traces evs) <= length results
    /\ ((forall n, trace_writable E n = true) ->
        Forall2 entry_matches (traces evs) results).
Proof.
  destruct (@split_into_clauses_total text DEFAULT_MIN_LEN DEFAULT_MAX_LEN false)
    as [cs Hcs]; [discriminate|].
  exists cs. unfold analyze_document_text, split_into_clauses_default.
  unfold mbind at 1, lift at 1. rewrite Hcs.
  destruct cs as [|c0 cs'].
  - cbn [nonempty negb]. unfold ret. exists [], []. rewrite app_nil_r.
    split; [reflexivity|]. split; [reflexivity|]. split.
    + destruct max_clauses as [k|]; [|reflexivity].
      unfold processed, take. destruct (0 <=? k)%Z; rewrite firstn_nil; reflexivity.
    + repeat split; try reflexivity; try constructor.
  - cbn [nonempty negb].
    destruct (@analyze_loop_run E (setup_collection E) top_k temperature
                max_tokens (processed max_clauses (c0 :: cs')) [] w)
      as [out [evs [Eloop [Hkeys [Hall Hrest]]]]].
    exists out, evs. split; [reflexivity|]. split; [exact Eloop|].
    split; [exact Hkeys|]. split; [|exact Hrest].
    eapply Forall_impl; [|exact Hall]. intros r [Hd Hp]. split; [exact Hd|].
    rewrite Hp. reflexivity.
Qed.

(** X17. Whatever the service answers and whether or not the trace can be
    written, [analyze_document_text] raises nothing and returns one result
    per clause with a non-empty trimmed text among the clauses it goes
    through, in their order, each with the id and trimmed text of its
    clause, a JSON object as analysis and, as precedents, what the keyword
    fallback returns for that text. *)
Theorem analyze_document_text_results (E : env) (text : str)
  (max_clauses : option Z) (top_k max_tokens : Z) (temperature : str)
  (w : world) :
  exists cs results w',
    split_into_clauses_default text = Ok cs
    /\ analyze_document_text E text max_clauses top_k max_tokens temperature w
       = (Ok results, w')
    /\ map result_key results
       = map clause_key (filter eligible (processed max_clauses cs))
    /\ Forall (fun r => is_dict (res_analysis r) = true
                        /\ res_precedents r
                           = _fallback_precedents E (res_clause r) top_k) results.
Proof.
  destruct (analyze_document_text_run E text max_clauses top_k max_tokens
              temperature w)
    as [cs [results [evs [H1 [H2 [H3 [H4 _]]]]]]].
  exists cs, results, (w ++ evs). repeat split; assumption.
Qed.

(** X18. What a run costs: the world only grows, by one clock reading and one
    attempt to write the trace per result, and by at most three requests
    per result; the time stamps of the results are these clock readings, in
    the order of the results. *)
Theorem analyze_document_text_effects (E : env) (text : str)
  (max_clauses : option Z) (top_k max_tokens : Z) (temperature : str)
  (w : world) :
  exists results evs,
    analyze_document_text E text max_clauses top_k max_tokens temperature w
    = (Ok results, w ++ evs)
    /\ clock_reads evs = length results
    /\ map res_ts results
       = map (clock E) (seq (clock_reads w) (length results))
    /\ trace_attempts evs = length results
    /\ length (traces evs) <= length results
    /\ posts evs <= 3 * length results.
Proof.
  destruct (analyze_document_text_run E text max_clauses top_k max_tokens
              temperature w)
    as [cs [results [evs [_ [H2 [_ [_ [Hts [H5 [H6 [H7 [H8 _]]]]]]]]]]]].
  exists results, evs. repeat split; assumption.
Qed.

(** X19. When the trace file can be written, a run appends exactly one entry per
    result, in the order of the results, and each entry carries the clause
    id, the length of the clause text, the time stamp, the analysis, its
    risk score, the precedents and the first 500 characters of the prompt of
    its result. *)
Theorem analyze_document_text_trace (E : env) (text : str)
  (max_clauses : option Z) (top_k max_tokens : Z) (temperature : str)
  (w : world) :
  (forall n, trace_writable E n = true) ->
  exists results w',
    analyze_document_text E text max_clauses top_k max_tokens temperature w
    = (Ok results, w')
    /\ exists new, traces w' = traces w ++ new
                   /\ Forall2 entry_matches new results.
Proof.
  intros Hw.
  destruct (analyze_document_text_run E text max_clauses top_k max_tokens
              temperature w)
    as [cs [results [evs [_ [H2 [_ [_ [_ [_ [_ [_ [_ H9]]]]]]]]]]]].
  exists results, (w ++ evs). split; [exact H2|].
  exists (traces evs). split; [apply traces_app|apply H9; exact Hw].
Qed.

Lemma analyze_document_text_trace_witness :
  exists results w',
    analyze_document_text Inputs.env_flaky Inputs.doc_short_last
      DEFAULT_MAX_CLAUSES DEFAULT_TOP_K 512 Inputs.a_temperature []
    = (Ok results, w')
    /\ exists new, traces w' = traces [] ++ new
                   /\ Forall2 entry_matches new results.
Proof.
  apply (@analyze_document_text_trace Inputs.env_flaky Inputs.doc_short_last
           DEFAULT_MAX_CLAUSES DEFAULT_TOP_K 512 Inputs.a_temperature []).
  intros n. reflexivity.
Defined.

(** X20. On a document made of white space only the analysis returns the empty
    list and leaves the world as it was: no request, no clock reading, no
    trace entry. *)
Theorem analyze_document_text_blank (E : env) (text : str)
  (max_clauses : option Z) (top_k max_tokens : Z) (temperature : str)
  (w : world) :
  blank text = true ->
  analyze_document_text E text max_clauses top_k max_tokens temperature w
  = (Ok [], w).
Proof.
  intros Hb. unfold analyze_document_text, split_into_clauses_default,
    split_into_clauses.
  rewrite (proj2 (normalize_whitespace_empty_iff text) Hb). reflexivity.
Qed.

Lemma analyze_document_text_blank_witness :
  analyze_document_text Inputs.env_down (esc "  \n\n \t ") DEFAULT_MAX_CLAUSES
    DEFAULT_TOP_K 512 Inputs.a_temperature []
  = (Ok [], []).
Proof.
  apply (@analyze_document_text_blank Inputs.env_down (esc "  \n\n \t ")).
  reflexivity.
Defined.

End RunClaims.

(** ** The length bound of the segmenter *)
Section LengthBound.
Import Py Clauses Props MoreProps.

(** *** Stripping *)




(** *** The sentences *)





(** *** Sizes *)









(** *** The chunks *)






(** *** The clauses *)





End LengthBound.

Section LengthBoundClaim.
Import Py Clauses Props.



End LengthBoundClaim.
